(** * TodoCLI: the task manager core, embedded in Rocq

    A shallow embedding of [internal/todo] (task entity and manager), of
    [internal/storage] (the JSON file store) and of what the commands of
    [cmd] decide, of the TodoCLI repository, together with the properties
    the specification states about them and further properties of the code.

    Conventions of the embedding:
    - Go's [int] is a 64-bit two's complement integer: a [Z] with the
      wrap-around of [+ 1] written out ([GoInt.wrap]).
    - [string] is Go's byte string; [Priority] is a string, as in the source,
      so a priority read from the file can be any string.
    - [time.Time] is an instant (a [Z]); [time.Now()] and the outcome of
      writing the file are inputs of the operations ([Env]).
    - a [*Task] is modelled by the task it points to; [m.tasks] is the list
      of the tasks in storage order.
    - the functions of Go's standard library the core relies on are embedded
      too: [strings.TrimSpace], [strings.Contains] and [sort.Slice]
      ([GoStrings], [GoSort]); [strings.ToLower], [time.Parse],
      [strconv.Atoi] and the JSON codec are parameters.

    The file has three parts: the program, the notions the properties are
    stated with, and the properties with their proofs. *)

From Stdlib Require Import ZArith Lia Bool List.
From stdpp Require Import base tactics option list numbers strings gmap sorting.

Open Scope Z_scope.

(** ** Go integers *)

Module GoInt.

Definition min_int : Z := - 2 ^ 63.
Definition max_int : Z := 2 ^ 63 - 1.

(** Two's complement wrap-around of a 64-bit signed integer. *)
Definition wrap (z : Z) : Z := (z + 2 ^ 63) `mod` 2 ^ 64 - 2 ^ 63.

Definition in_range (z : Z) : Prop := min_int <= z <= max_int.

(** [x + 1] and [x++] on an [int]. *)
Definition succ (x : Z) : Z := wrap (x + 1).

End GoInt.

(** ** Time *)

Definition Time : Type := Z.

(** [t.Before(u)] and [t.After(u)] compare instants. *)
Definition Time_Before (t u : Time) : bool := t <? u.
Definition Time_After (t u : Time) : bool := u <? t.

(** ** The Go standard library functions the core calls *)

Module GoStrings.

Local Open Scope N_scope.

(** [strings.TrimSpace] removes the leading and the trailing white space, as
    Unicode defines it, of a UTF-8 string.  The white space runes are
    ['\t'], ['\n'], ['\v'], ['\f'], ['\r'], [' '], U+0085, U+00A0, U+1680,
    U+2000..U+200A, U+2028, U+2029, U+202F, U+205F and U+3000; [space_width]
    recognises their UTF-8 encodings at the head of a byte sequence and
    returns the width of the rune (0 when the head is no white space). *)
Definition space_width (bs : list N) : nat :=
  match bs with
  | b :: rest =>
      if b <? 128 then
        if (b =? 9) || (b =? 10) || (b =? 11) || (b =? 12) || (b =? 13) || (b =? 32)
        then 1%nat else 0%nat
      else
        match rest with
        | c :: rest' =>
            if (b =? 194) && ((c =? 133) || (c =? 160)) then 2%nat
            else
              match rest' with
              | d :: _ =>
                  if (b =? 225) && (c =? 154) && (d =? 128) then 3%nat
                  else if (b =? 226) && (c =? 128) &&
                          (((128 <=? d) && (d <=? 138)) || (d =? 168) || (d =? 169) || (d =? 175))
                  then 3%nat
                  else if (b =? 226) && (c =? 129) && (d =? 159) then 3%nat
                  else if (b =? 227) && (c =? 128) && (d =? 128) then 3%nat
                  else 0%nat
              | [] => 0%nat
              end
        | [] => 0%nat
        end
  | [] => 0%nat
  end.

(** The same test at the end of a byte sequence given in reverse: the last
    rune is white space when the bytes end with its encoding. *)
Definition space_width_last (rev_bs : list N) : nat :=
  match rev_bs with
  | b :: rest =>
      if b <? 128 then space_width [b]
      else
        match rest with
        | c :: rest' =>
            if (0 <? space_width [c; b])%nat then 2%nat
            else
              match rest' with
              | d :: _ => space_width [d; c; b]
              | [] => 0%nat
              end
        | [] => 0%nat
        end
  | [] => 0%nat
  end.

Fixpoint trim_with (width : list N -> nat) (fuel : nat) (bs : list N) : list N :=
  match fuel with
  | O => bs
  | S fuel' =>
      match width bs with
      | O => bs
      | w => trim_with width fuel' (drop w bs)
      end
  end.

Definition bytes_of_string (s : string) : list N :=
  map Ascii.N_of_ascii (String.list_ascii_of_string s).

Definition string_of_bytes (bs : list N) : string :=
  String.string_of_list_ascii (map Ascii.ascii_of_N bs).

Definition TrimSpace (s : string) : string :=
  let bs := bytes_of_string s in
  let bs := trim_with space_width (length bs) bs in
  let rs := trim_with space_width_last (length bs) (rev bs) in
  string_of_bytes (rev rs).

(** [strings.Contains s substr]: [substr] occurs in [s] as a run of bytes. *)
Fixpoint Contains (s substr : string) : bool :=
  String.prefix substr s ||
  match s with
  | EmptyString => false
  | String _ s' => Contains s' substr
  end.

End GoStrings.

(** ** [sort.Slice]

    [sort.Slice(x, less)] of Go's standard library (package [sort], files
    [slice.go] and [zsortfunc.go], Go 1.19 and later): a pattern-defeating
    quicksort that works on the slice in place through [data.Less(i, j)] and
    [data.Swap(i, j)].  The closure the manager passes as [less] reads the
    slice being sorted, so [data.Less(i, j)] compares the elements at [i] and
    [j] of the current state of the slice.  Indices are kept as [nat]: they
    stay within the slice.  Every loop is a structural recursion whose fuel is
    the loop's own bound. *)

Module GoSort.

Local Open Scope nat_scope.

Section Sort.

Context {A : Type} `{!Inhabited A}.
Variable less : A -> A -> bool.

Definition data_Less (l : list A) (i j : nat) : bool := less (l !!! i) (l !!! j).

Definition data_Swap (l : list A) (i j : nat) : list A :=
  <[j := l !!! i]> (<[i := l !!! j]> l).

(** [for j := i; j > a && data.Less(j, j-1); j-- { data.Swap(j, j-1) }] *)
Fixpoint insertion_inner (a j : nat) (l : list A) {struct j} : list A :=
  match j with
  | O => l
  | S j' =>
      if (a <? j) && data_Less l j j'
      then insertion_inner a j' (data_Swap l j j')
      else l
  end.

(** [for i := a + 1; i < b; i++ { ... }], with [n] iterations left. *)
Fixpoint insertion_outer (n a i : nat) (l : list A) {struct n} : list A :=
  match n with
  | O => l
  | S n' => insertion_outer n' a (S i) (insertion_inner a i l)
  end.

Definition insertionSort_func (l : list A) (a b : nat) : list A :=
  insertion_outer (b - (a + 1)) a (a + 1) l.

(** [siftDown_func(data, lo, hi, first)]; the root index grows at every
    turn and stays below [hi]. *)
Fixpoint siftDown_loop (fuel : nat) (l : list A) (root hi first : nat) : list A :=
  match fuel with
  | O => l
  | S fuel' =>
      let child := 2 * root + 1 in
      if hi <=? child then l
      else
        let child :=
          if (child + 1 <? hi) && data_Less l (first + child) (first + child + 1)
          then child + 1 else child in
        if negb (data_Less l (first + root) (first + child)) then l
        else siftDown_loop fuel' (data_Swap l (first + root) (first + child)) child hi first
  end.

Definition siftDown_func (l : list A) (lo hi first : nat) : list A :=
  siftDown_loop hi l lo hi first.

(** [for i := (hi - 1) / 2; i >= 0; i-- { siftDown_func(data, i, hi, first) }] *)
Fixpoint heap_build (i : nat) (l : list A) (hi first : nat) : list A :=
  let l := siftDown_func l i hi first in
  match i with
  | O => l
  | S i' => heap_build i' l hi first
  end.

(** [for i := hi - 1; i >= 0; i-- { data.Swap(first, first+i); siftDown_func(data, lo, i, first) }],
    with [n = i + 1]. *)
Fixpoint heap_pop (n : nat) (l : list A) (first : nat) : list A :=
  match n with
  | O => l
  | S i => heap_pop i (siftDown_func (data_Swap l first (first + i)) 0 i first) first
  end.

Definition heapSort_func (l : list A) (a b : nat) : list A :=
  let first := a in
  let hi := b - a in
  heap_pop hi (heap_build ((hi - 1) / 2) l hi first) first.

(** [for i <= j && p(i) { i++ }] *)
Fixpoint scan_up (fuel : nat) (p : nat -> bool) (i j : nat) : nat :=
  match fuel with
  | O => i
  | S fuel' => if (i <=? j) && p i then scan_up fuel' p (S i) j else i
  end.

(** [for i <= j && p(j) { j-- }] *)
Fixpoint scan_down (fuel : nat) (p : nat -> bool) (i j : nat) : nat :=
  match fuel with
  | O => j
  | S fuel' => if (i <=? j) && p j then scan_down fuel' p i (j - 1) else j
  end.

(** The [for { ... }] loop of [partition_func]. *)
Fixpoint partition_loop (fuel : nat) (l : list A) (a i j : nat) : list A * nat :=
  match fuel with
  | O => (l, j)
  | S fuel' =>
      let i := scan_up (S j - i) (fun i => data_Less l i a) i j in
      let j := scan_down (S j - i) (fun j => negb (data_Less l j a)) i j in
      if j <? i then (l, j)
      else partition_loop fuel' (data_Swap l i j) a (i + 1) (j - 1)
  end.

Definition partition_func (l : list A) (a b pivot : nat) : list A * nat * bool :=
  let l := data_Swap l a pivot in
  let i := a + 1 in
  let j := b - 1 in
  let i := scan_up (S j - i) (fun i => data_Less l i a) i j in
  let j := scan_down (S j - i) (fun j => negb (data_Less l j a)) i j in
  if j <? i then (data_Swap l j a, j, true)
  else
    let l := data_Swap l i j in
    let '(l, j) := partition_loop (S j - i) l a (i + 1) (j - 1) in
    (data_Swap l j a, j, false).

(** The [for { ... }] loop of [partitionEqual_func]. *)
Fixpoint partitionEqual_loop (fuel : nat) (l : list A) (a i j : nat) : list A * nat :=
  match fuel with
  | O => (l, i)
  | S fuel' =>
      let i := scan_up (S j - i) (fun i => negb (data_Less l a i)) i j in
      let j := scan_down (S j - i) (fun j => data_Less l a j) i j in
      if j <? i then (l, i)
      else partitionEqual_loop fuel' (data_Swap l i j) a (i + 1) (j - 1)
  end.

Definition partitionEqual_func (l : list A) (a b pivot : nat) : list A * nat :=
  let l := data_Swap l a pivot in
  partitionEqual_loop (S (b - a)) l a (a + 1) (b - 1).

(** [xorshift.Next()] on a [uint64] state, and [bits.Len].  The generator
    only picks the elements [breakPatterns_func] swaps. *)
Definition xorshift_Next (r : N) : N :=
  let r := N.lxor r (N.shiftl r 13 mod 2 ^ 64)%N in
  let r := N.lxor r (N.shiftr r 7) in
  let r := N.lxor r (N.shiftl r 17 mod 2 ^ 64)%N in
  r.

Definition bits_Len (n : nat) : nat :=
  match n with
  | O => 0
  | _ => S (Nat.log2 n)
  end.

Definition nextPowerOfTwo (length : nat) : N := N.shiftl 1 (N.of_nat (bits_Len length)).

(** [for i := 0; i < 3; i++ { ... }] of [breakPatterns_func], [n] turns left. *)
Fixpoint breakPatterns_loop (n : nat) (l : list A) (a length idx i : nat)
    (random modulus : N) : list A :=
  match n with
  | O => l
  | S n' =>
      let random := xorshift_Next random in
      let other := N.to_nat (N.land random (modulus - 1)) in
      let other := if length <=? other then other - length else other in
      breakPatterns_loop n' (data_Swap l (idx - 1 + i) (a + other)) a length idx (S i)
        random modulus
  end.

Definition breakPatterns_func (l : list A) (a b : nat) : list A :=
  let length := b - a in
  if 8 <=? length then
    let random := N.of_nat length in
    let modulus := nextPowerOfTwo length in
    let idx := a + (length / 4) * 2 - 1 in
    breakPatterns_loop 3 l a length idx 0 random modulus
  else l.

Inductive sortedHint : Set := unknownHint | increasingHint | decreasingHint.

(** [order2_func], [median_func], [medianAdjacent_func]: the counter
    [*swaps] is threaded through. *)
Definition order2_func (l : list A) (a b swaps : nat) : nat * nat * nat :=
  if data_Less l b a then (b, a, S swaps) else (a, b, swaps).

Definition median_func (l : list A) (a b c swaps : nat) : nat * nat :=
  let '(a, b, swaps) := order2_func l a b swaps in
  let '(b, c, swaps) := order2_func l b c swaps in
  let '(a, b, swaps) := order2_func l a b swaps in
  (b, swaps).

Definition medianAdjacent_func (l : list A) (a swaps : nat) : nat * nat :=
  median_func l (a - 1) a (a + 1) swaps.

Definition choosePivot_func (l : list A) (a b : nat) : nat * sortedHint :=
  let shortestNinther := 50 in
  let maxSwaps := 4 * 3 in
  let len := b - a in
  let i := a + len / 4 * 1 in
  let j := a + len / 4 * 2 in
  let k := a + len / 4 * 3 in
  let '(j, swaps) :=
    if 8 <=? len then
      let '(i, j, k, swaps) :=
        if shortestNinther <=? len then
          let '(i, swaps) := medianAdjacent_func l i 0 in
          let '(j, swaps) := medianAdjacent_func l j swaps in
          let '(k, swaps) := medianAdjacent_func l k swaps in
          (i, j, k, swaps)
        else (i, j, k, 0) in
      median_func l i j k swaps
    else (j, 0) in
  if swaps =? 0 then (j, increasingHint)
  else if swaps =? maxSwaps then (j, decreasingHint)
  else (j, unknownHint).

(** [for i < j { data.Swap(i, j); i++; j-- }] *)
Fixpoint reverseRange_loop (fuel : nat) (l : list A) (i j : nat) : list A :=
  match fuel with
  | O => l
  | S fuel' =>
      if i <? j then reverseRange_loop fuel' (data_Swap l i j) (i + 1) (j - 1) else l
  end.

Definition reverseRange_func (l : list A) (a b : nat) : list A :=
  reverseRange_loop (b - a) l a (b - 1).

(** The loops of [partialInsertionSort_func]:
    [for j := i - 1; j >= 1; j-- { if !data.Less(j, j-1) { break }; data.Swap(j, j-1) }] *)
Fixpoint shift_left (j : nat) (l : list A) {struct j} : list A :=
  match j with
  | O => l
  | S j' => if negb (data_Less l j j') then l else shift_left j' (data_Swap l j j')
  end.

(** [for j := i + 1; j < b; j++ { if !data.Less(j, j-1) { break }; data.Swap(j, j-1) }] *)
Fixpoint shift_right (fuel : nat) (l : list A) (j b : nat) : list A :=
  match fuel with
  | O => l
  | S fuel' =>
      if j <? b then
        if negb (data_Less l j (j - 1)) then l
        else shift_right fuel' (data_Swap l j (j - 1)) (S j) b
      else l
  end.

(** [for j := 0; j < maxSteps; j++ { ... }], [steps] turns left. *)
Fixpoint partialInsertionSort_loop (steps : nat) (l : list A) (a b i : nat)
    : list A * bool :=
  match steps with
  | O => (l, false)
  | S steps' =>
      let shortestShifting := 50 in
      let i := scan_up (b - i) (fun i => negb (data_Less l i (i - 1))) i (b - 1) in
      if i =? b then (l, true)
      else if b - a <? shortestShifting then (l, false)
      else
        let l := data_Swap l i (i - 1) in
        let l := if 2 <=? i - a then shift_left (i - 1) l else l in
        let l := if 2 <=? b - i then shift_right (b - (i + 1)) l (i + 1) b else l in
        partialInsertionSort_loop steps' l a b i
  end.

Definition partialInsertionSort_func (l : list A) (a b : nat) : list A * bool :=
  let maxSteps := 5 in
  partialInsertionSort_loop maxSteps l a b (a + 1).

(** [pdqsort_func(data, a, b, limit)].  The function's [for] loop and its
    recursive call are one recursion: [wasBalanced] and [wasPartitioned] are
    the loop's variables, [true] at every call.  Each turn and each call
    works on a strictly shorter range, so [fuel] above [b - a] is never used
    up. *)
Fixpoint pdqsort_loop (fuel : nat) (l : list A) (a b limit : nat)
    (wasBalanced wasPartitioned : bool) : list A :=
  match fuel with
  | O => l
  | S fuel' =>
      let maxInsertion := 12 in
      let length := b - a in
      if length <=? maxInsertion then insertionSort_func l a b
      else if limit =? 0 then heapSort_func l a b
      else
        let '(l, limit) :=
          if negb wasBalanced then (breakPatterns_func l a b, limit - 1) else (l, limit) in
        let '(pivot, hint) := choosePivot_func l a b in
        let '(l, pivot, hint) :=
          match hint with
          | decreasingHint =>
              (reverseRange_func l a b, (b - 1) - (pivot - a), increasingHint)
          | _ => (l, pivot, hint)
          end in
        let '(l, sorted) :=
          match hint with
          | increasingHint =>
              if wasBalanced && wasPartitioned then partialInsertionSort_func l a b
              else (l, false)
          | _ => (l, false)
          end in
        if sorted then l
        else if (0 <? a) && negb (data_Less l (a - 1) pivot) then
          let '(l, mid) := partitionEqual_func l a b pivot in
          pdqsort_loop fuel' l mid b limit wasBalanced wasPartitioned
        else
          let '(l, mid, alreadyPartitioned) := partition_func l a b pivot in
          let wasPartitioned := alreadyPartitioned in
          let leftLen := mid - a in
          let rightLen := b - mid in
          let balanceThreshold := length / 8 in
          if leftLen <? rightLen then
            let wasBalanced := balanceThreshold <=? leftLen in
            let l := pdqsort_loop fuel' l a mid limit true true in
            pdqsort_loop fuel' l (mid + 1) b limit wasBalanced wasPartitioned
          else
            let wasBalanced := balanceThreshold <=? rightLen in
            let l := pdqsort_loop fuel' l (mid + 1) b limit true true in
            pdqsort_loop fuel' l a mid limit wasBalanced wasPartitioned
  end.

Definition pdqsort_func (l : list A) (a b limit : nat) : list A :=
  pdqsort_loop (S (b - a)) l a b limit true true.

(** [sort.Slice(x, less)]: the slice after the call. *)
Definition Slice (x : list A) : list A :=
  let length := length x in
  let limit := bits_Len length in
  pdqsort_func x 0 length limit.

End Sort.

End GoSort.

Local Open Scope string_scope.

(** ** Package [storage] *)

Module storage.

Definition Priority : Type := string.

(** [storage.Task]: a task as the JSON document holds it. *)
Module Task.
Record t : Type := mk {
  ID : Z;
  Title : string;
  Completed : bool;
  DueDate : option Time;
  Priority : storage.Priority;
  CreatedAt : Time;
  UpdatedAt : Time
}.
End Task.

(** [TaskList]: the document.  A field the JSON text leaves out has Go's zero
    value, so a document without ["next_id"] has [NextID = 0].  The entries
    of [Tasks] are tasks: on a [null] entry both [LoadTasks] stop at a nil
    pointer and no manager comes out of the call. *)
Record TaskList : Type := {
  Tasks : list Task.t;
  NextID : Z;
  LastUpdate : string
}.

(** The errors [LoadTasks] and [SaveTasks] wrap. *)
Inductive error : Set :=
  | ErrCreateDirectory   (* "failed to create directory: %w" *)
  | ErrReadFile          (* "failed to read file: %w" *)
  | ErrParseJSON         (* "failed to parse JSON: %w" *)
  | ErrMarshalJSON       (* "failed to marshal JSON: %w" *)
  | ErrWriteFile.        (* "failed to write file: %w" *)

(** What [os.ReadFile] and [json.Unmarshal] make of the storage file: it
    cannot be read, it is empty, it does not parse, or it parses to a
    document. *)
Inductive FileContent : Type :=
  | Unreadable
  | EmptyFile
  | Malformed
  | Document (taskList : TaskList).

(** The file system as [LoadTasks] sees it: whether [ensureDir] succeeds, and
    the storage file if [os.Stat] finds one. *)
Record Disk : Type := {
  ensureDir_ok : bool;
  file : option FileContent
}.

(** The loop that repairs a zero [NextID]:
    [for _, task := range taskList.Tasks { if task.ID >= taskList.NextID { taskList.NextID = task.ID + 1 } }] *)
Fixpoint highest_next (tasks : list Task.t) (nextID : Z) : Z :=
  match tasks with
  | [] => nextID
  | task :: rest =>
      highest_next rest
        (if (Task.ID task >=? nextID)%Z then GoInt.succ (Task.ID task) else nextID)
  end.

(** [FileStorage.LoadTasks]: the tasks and the next id, or the error. *)
Definition LoadTasks (d : Disk) : (list Task.t * Z) + error :=
  if negb (ensureDir_ok d) then inr ErrCreateDirectory
  else
    match file d with
    | None => inl ([], 1)
    | Some Unreadable => inr ErrReadFile
    | Some EmptyFile => inl ([], 1)
    | Some Malformed => inr ErrParseJSON
    | Some (Document taskList) =>
        let nextID :=
          if (NextID taskList =? 0)%Z then highest_next (Tasks taskList) 1
          else NextID taskList in
        inl (Tasks taskList, nextID)
    end.

(** What [SaveTasks] and [BackupTasks] take from the operating system besides
    the files: the value of the environment variable [USER]; the document a
    later [json.Unmarshal] reads from the text [json.MarshalIndent] writes
    for a document ([None] when marshalling fails, as it does on a time whose
    year is outside [0, 9999]; a string that is not valid UTF-8 is read back
    changed); and, when [os.WriteFile] fails, what it leaves of the file it
    was to write ([WriteFile_fails = None] when it succeeds). *)
Record OS : Type := {
  Getenv_USER : string;
  json_MarshalIndent : TaskList -> option TaskList;
  WriteFile_fails : option (option FileContent)
}.

(** [FileStorage.SaveTasks]: the error, if any, and the file system after
    the call. *)
Definition SaveTasks (os : OS) (d : Disk) (tasks : list Task.t) (nextID : Z)
    : option error * Disk :=
  if negb (ensureDir_ok d) then (Some ErrCreateDirectory, d)
  else
    let taskList :=
      {| Tasks := tasks; NextID := nextID; LastUpdate := Getenv_USER os |} in
    match json_MarshalIndent os taskList with
    | None => (Some ErrMarshalJSON, d)
    | Some written =>
        match WriteFile_fails os with
        | Some remains => (Some ErrWriteFile, {| ensureDir_ok := true; file := remains |})
        | None => (None, {| ensureDir_ok := true; file := Some (Document written) |})
        end
    end.

(** [FileStorage.FileExists] *)
Definition FileExists (d : Disk) : bool :=
  match file d with
  | Some _ => true
  | None => false
  end.

(** The errors of [BackupTasks]. *)
Inductive backup_error : Set :=
  | ErrNoTasksFile       (* "no tasks file to backup" *)
  | ErrReadTasksFile     (* "failed to read tasks file: %w" *)
  | ErrCreateBackup.     (* "failed to create backup: %w" *)

(** The storage file together with the file at [fs.filePath + ".backup"]. *)
Record Files : Type := {
  tasks_file : Disk;
  backup_file : option FileContent
}.

(** [FileStorage.BackupTasks]: the bytes [os.ReadFile] returns are written
    to the backup file as they are. *)
Definition BackupTasks (os : OS) (fs : Files) : option backup_error * Files :=
  if negb (FileExists (tasks_file fs)) then (Some ErrNoTasksFile, fs)
  else
    match file (tasks_file fs) with
    | None | Some Unreadable => (Some ErrReadTasksFile, fs)
    | Some data =>
        match WriteFile_fails os with
        | Some remains =>
            (Some ErrCreateBackup, {| tasks_file := tasks_file fs; backup_file := remains |})
        | None =>
            (None, {| tasks_file := tasks_file fs; backup_file := Some data |})
        end
    end.

End storage.

(** ** Package [todo] *)

Module todo.

Definition Priority : Type := string.

Definition PriorityLow : Priority := "low".
Definition PriorityMedium : Priority := "medium".
Definition PriorityHigh : Priority := "high".

(** [Task] *)
Module Task.
Record t : Type := mk {
  ID : Z;
  Title : string;
  Completed : bool;
  DueDate : option Time;
  Priority : todo.Priority;
  CreatedAt : Time;
  UpdatedAt : Time
}.
End Task.

Definition NewTask (now : Time) (id : Z) (title : string) : Task.t :=
  {| Task.ID := id;
     Task.Title := title;
     Task.Completed := false;
     Task.DueDate := None;
     Task.Priority := PriorityMedium;
     Task.CreatedAt := now;
     Task.UpdatedAt := now |}.

Definition Complete (now : Time) (t : Task.t) : Task.t :=
  {| Task.ID := Task.ID t;
     Task.Title := Task.Title t;
     Task.Completed := true;
     Task.DueDate := Task.DueDate t;
     Task.Priority := Task.Priority t;
     Task.CreatedAt := Task.CreatedAt t;
     Task.UpdatedAt := now |}.

Definition SetPriority (now : Time) (priority : Priority) (t : Task.t) : Task.t :=
  {| Task.ID := Task.ID t;
     Task.Title := Task.Title t;
     Task.Completed := Task.Completed t;
     Task.DueDate := Task.DueDate t;
     Task.Priority := priority;
     Task.CreatedAt := Task.CreatedAt t;
     Task.UpdatedAt := now |}.

Definition SetDueDate (now : Time) (dueDate : Time) (t : Task.t) : Task.t :=
  {| Task.ID := Task.ID t;
     Task.Title := Task.Title t;
     Task.Completed := Task.Completed t;
     Task.DueDate := Some dueDate;
     Task.Priority := Task.Priority t;
     Task.CreatedAt := Task.CreatedAt t;
     Task.UpdatedAt := now |}.

(** [IsOverdue], with the reading of [time.Now()] as [now]. *)
Definition IsOverdue (now : Time) (t : Task.t) : bool :=
  match Task.DueDate t with
  | None => false
  | Some dueDate =>
      if Task.Completed t then false else Time_After now dueDate
  end.

Definition ValidatePriority (priority : string) : bool :=
  String.eqb priority PriorityLow || String.eqb priority PriorityMedium
  || String.eqb priority PriorityHigh.

(** The errors of the manager.  The specification calls the first two a
    [ValidationError]. *)
Inductive error : Type :=
  | ErrEmptyTitle                          (* "task title cannot be empty" *)
  | ErrInvalidPriority (priority : Priority)  (* "invalid priority: %s (...)" *)
  | ErrInvalidID                           (* ErrInvalidID *)
  | ErrTaskNotFound                        (* ErrTaskNotFound *)
  | ErrAlreadyCompleted (id : Z)           (* "task %d is already completed" *)
  | ErrLoad (cause : storage.error)        (* "failed to load tasks: %w" *)
  | ErrSave (cause : storage.error).       (* "failed to save tasks: %w" *)

Definition ValidationError (e : error) : bool :=
  match e with
  | ErrEmptyTitle | ErrInvalidPriority _ => true
  | _ => false
  end.

Definition AlreadyCompleted (e : error) : bool :=
  match e with
  | ErrAlreadyCompleted _ => true
  | _ => false
  end.

(** What a call reads from outside the manager: the clock ([time_Now k] is
    the reading of the call's [k]-th [time.Now()]) and the outcome of
    [FileStorage.SaveTasks] on the document it is given. *)
Record Env : Type := {
  time_Now : nat -> Time;
  storage_SaveTasks : list storage.Task.t -> Z -> option storage.error
}.

Module FilterOptions.
Record t : Type := mk {
  ShowCompleted : bool;
  ShowPending : bool;
  Priority : todo.Priority;
  Search : string;
  SortBy : string
}.
End FilterOptions.

(** [Manager]: the tasks in storage order and the next id.  The [storage]
    field only holds the path of the file. *)
Record Manager : Type := {
  tasks : list Task.t;
  nextID : Z
}.

Definition NewManager : Manager := {| tasks := []; nextID := 1 |}.

Definition task_of_storage (st : storage.Task.t) : Task.t :=
  {| Task.ID := storage.Task.ID st;
     Task.Title := storage.Task.Title st;
     Task.Completed := storage.Task.Completed st;
     Task.DueDate := storage.Task.DueDate st;
     Task.Priority := storage.Task.Priority st;
     Task.CreatedAt := storage.Task.CreatedAt st;
     Task.UpdatedAt := storage.Task.UpdatedAt st |}.

Definition task_to_storage (t : Task.t) : storage.Task.t :=
  {| storage.Task.ID := Task.ID t;
     storage.Task.Title := Task.Title t;
     storage.Task.Completed := Task.Completed t;
     storage.Task.DueDate := Task.DueDate t;
     storage.Task.Priority := Task.Priority t;
     storage.Task.CreatedAt := Task.CreatedAt t;
     storage.Task.UpdatedAt := Task.UpdatedAt t |}.

(** [Manager.LoadTasks]: the error, if any, and the manager after the call. *)
Definition LoadTasks (d : storage.Disk) (m : Manager) : option error * Manager :=
  match storage.LoadTasks d with
  | inr err => (Some (ErrLoad err), m)
  | inl (storageTasks, nextID) =>
      (None, {| tasks := map task_of_storage storageTasks; nextID := nextID |})
  end.

(** [Manager.SaveTasks] *)
Definition SaveTasks (e : Env) (m : Manager) : option error :=
  match storage_SaveTasks e (map task_to_storage (tasks m)) (nextID m) with
  | Some err => Some (ErrSave err)
  | None => None
  end.

(** [Manager.AddTask]: the task or the error, and the manager after the
    call. *)
Definition AddTask (e : Env) (m : Manager) (title : string) (priority : Priority)
    (dueDate : option Time) : (Task.t + error) * Manager :=
  if String.eqb (GoStrings.TrimSpace title) "" then (inr ErrEmptyTitle, m)
  else
    let task := NewTask (time_Now e 0) (nextID m) (GoStrings.TrimSpace title) in
    let clock := 1%nat in
    let checked :=
      if negb (String.eqb priority "") then
        if negb (ValidatePriority priority) then inr (ErrInvalidPriority priority)
        else inl (SetPriority (time_Now e clock) priority task, S clock)
      else inl (task, clock) in
    match checked with
    | inr err => (inr err, m)
    | inl (task, clock) =>
        let task :=
          match dueDate with
          | Some d => SetDueDate (time_Now e clock) d task
          | None => task
          end in
        let m := {| tasks := tasks m ++ [task]; nextID := GoInt.succ (nextID m) |} in
        match SaveTasks e m with
        | Some err => (inr err, m)
        | None => (inl task, m)
        end
    end.

(** The [for _, task := range m.tasks { if task.ID == id { ... } }] search:
    the position of the first task with the id, and the task. *)
Definition find_ID (id : Z) (tasks : list Task.t) : option (nat * Task.t) :=
  list_find (fun task => Task.ID task = id) tasks.

(** [Manager.GetTask].  The [*Task] it returns points into [m.tasks]:
    [GetTask_at] gives the position it points to as well. *)
Definition GetTask_at (m : Manager) (id : Z) : (nat * Task.t) + error :=
  if (id <=? 0)%Z then inr ErrInvalidID
  else
    match find_ID id (tasks m) with
    | Some found => inl found
    | None => inr ErrTaskNotFound
    end.

Definition GetTask (m : Manager) (id : Z) : Task.t + error :=
  match GetTask_at m id with
  | inl (_, task) => inl task
  | inr err => inr err
  end.

(** [Manager.CompleteTask] *)
Definition CompleteTask (e : Env) (m : Manager) (id : Z) : (Task.t + error) * Manager :=
  match GetTask_at m id with
  | inr err => (inr err, m)
  | inl (i, task) =>
      if Task.Completed task then (inr (ErrAlreadyCompleted id), m)
      else
        let task := Complete (time_Now e 0) task in
        let m := {| tasks := <[i := task]> (tasks m); nextID := nextID m |} in
        match SaveTasks e m with
        | Some err => (inr err, m)
        | None => (inl task, m)
        end
  end.

(** [Manager.DeleteTask] *)
Definition DeleteTask (e : Env) (m : Manager) (id : Z) : (Task.t + error) * Manager :=
  if (id <=? 0)%Z then (inr ErrInvalidID, m)
  else
    match find_ID id (tasks m) with
    | Some (i, task) =>
        let deletedTask := task in
        let m := {| tasks := delete i (tasks m); nextID := nextID m |} in
        match SaveTasks e m with
        | Some err => (inr err, m)
        | None => (inl deletedTask, m)
        end
    | None => (inr ErrTaskNotFound, m)
    end.

(** The [priorityOrder] map of [sortTasks]; a key it does not hold reads as
    Go's zero value. *)
Definition priorityOrder : gmap string Z :=
  {[ PriorityHigh := 3%Z; PriorityMedium := 2%Z; PriorityLow := 1%Z ]}.

Definition priorityOrder_at (p : Priority) : Z := default 0%Z (priorityOrder !! p).

(** The [less] closures of [sortTasks], on the tasks at [i] and [j]. *)
Definition less_priority (ti tj : Task.t) : bool :=
  (priorityOrder_at (Task.Priority ti) >? priorityOrder_at (Task.Priority tj))%Z.

Definition less_due (ti tj : Task.t) : bool :=
  match Task.DueDate ti, Task.DueDate tj with
  | None, None => (Task.ID ti <? Task.ID tj)%Z
  | None, Some _ => false
  | Some _, None => true
  | Some di, Some dj => Time_Before di dj
  end.

Definition less_created (ti tj : Task.t) : bool :=
  Time_Before (Task.CreatedAt ti) (Task.CreatedAt tj).

Definition less_id (ti tj : Task.t) : bool := (Task.ID ti <? Task.ID tj)%Z.

Definition sort_less (sortBy : string) : Task.t -> Task.t -> bool :=
  if String.eqb sortBy "priority" then less_priority
  else if String.eqb sortBy "due" then less_due
  else if String.eqb sortBy "created" then less_created
  else less_id.

#[global] Instance Task_inhabited : Inhabited Task.t := populate (NewTask 0%Z 0%Z "").

(** [Manager.sortTasks]: the slice after the call. *)
Definition sortTasks (tasks : list Task.t) (sortBy : string) : list Task.t :=
  GoSort.Slice (sort_less sortBy) tasks.

Section WithToLower.

(** [strings.ToLower], Go's Unicode lower-casing, is taken as it is. *)
Variable strings_ToLower : string -> string.

(** The tests of the loop of [ListTasks]: a task is appended unless one of
    them says [continue]. *)
Definition completion_ok (filter : FilterOptions.t) (task : Task.t) : bool :=
  if FilterOptions.ShowCompleted filter && negb (FilterOptions.ShowPending filter)
  then Task.Completed task
  else if FilterOptions.ShowPending filter && negb (FilterOptions.ShowCompleted filter)
  then negb (Task.Completed task)
  else true.

Definition priority_ok (filter : FilterOptions.t) (task : Task.t) : bool :=
  if negb (String.eqb (FilterOptions.Priority filter) "")
  then String.eqb (Task.Priority task) (FilterOptions.Priority filter)
  else true.

Definition search_ok (filter : FilterOptions.t) (task : Task.t) : bool :=
  if negb (String.eqb (FilterOptions.Search filter) "")
  then
    let searchLower := strings_ToLower (FilterOptions.Search filter) in
    let titleLower := strings_ToLower (Task.Title task) in
    GoStrings.Contains titleLower searchLower
  else true.

Definition filteredTasks (m : Manager) (filter : FilterOptions.t) : list Task.t :=
  List.filter
    (fun task => completion_ok filter task && priority_ok filter task && search_ok filter task)
    (tasks m).

(** [Manager.ListTasks] *)
Definition ListTasks (m : Manager) (filter : FilterOptions.t) : list Task.t :=
  sortTasks (filteredTasks m filter) (FilterOptions.SortBy filter).

End WithToLower.

(** [stats[key]++] *)
Definition stats_incr (key : string) (stats : gmap string Z) : gmap string Z :=
  <[key := GoInt.succ (default 0%Z (stats !! key))]> stats.

(** The two statements of the loop body of [GetStats]: the [if] on
    [task.Completed] and the [switch] on [task.Priority].  [clock] counts the
    readings of [time.Now()], one for each [IsOverdue()]. *)
Definition count_status (now : nat -> Time) (clock : nat) (task : Task.t)
    (stats : gmap string Z) : gmap string Z * nat :=
  if Task.Completed task then (stats_incr "completed" stats, clock)
  else
    let stats := stats_incr "pending" stats in
    (if IsOverdue (now clock) task then stats_incr "overdue" stats else stats, S clock).

Definition count_priority (task : Task.t) (stats : gmap string Z) : gmap string Z :=
  if String.eqb (Task.Priority task) PriorityHigh then stats_incr "high" stats
  else if String.eqb (Task.Priority task) PriorityMedium then stats_incr "medium" stats
  else if String.eqb (Task.Priority task) PriorityLow then stats_incr "low" stats
  else stats.

(** [for _, task := range m.tasks { ... }] *)
Fixpoint GetStats_loop (now : nat -> Time) (clock : nat) (tasks : list Task.t)
    (stats : gmap string Z) : gmap string Z :=
  match tasks with
  | [] => stats
  | task :: rest =>
      let '(stats, clock) := count_status now clock task stats in
      let stats := count_priority task stats in
      GetStats_loop now clock rest stats
  end.

(** [Manager.GetStats] *)
Definition GetStats (now : nat -> Time) (m : Manager) : gmap string Z :=
  GetStats_loop now 0 (tasks m)
    {[ "total" := Z.of_nat (length (tasks m));
       "completed" := 0%Z;
       "pending" := 0%Z;
       "overdue" := 0%Z;
       "high" := 0%Z;
       "medium" := 0%Z;
       "low" := 0%Z ]}.

(** [Manager.BackupTasks] *)
Definition BackupTasks (os : storage.OS) (fs : storage.Files)
    : option storage.backup_error * storage.Files :=
  storage.BackupTasks os fs.

End todo.

(** ** Package [cmd]

    The commands of the command line and the add dialogue of the interactive
    UI.  A command is modelled by what it decides: the error it returns or
    the values it prints, and the manager after it; how it prints them is
    left out.  What a command reads (flags, arguments, input lines) is an
    argument of its model. *)

Module cmd.

Import todo.

(** The errors the commands return. *)
Inductive error : Type :=
  | ErrPriorityFlag (priority : string)  (* "invalid priority '%s'. Valid options: low, medium, high" *)
  | ErrDueDateFlag                       (* "invalid due date format. Use YYYY-MM-DD or YYYY-MM-DD HH:MM" *)
  | ErrAddTask (err : todo.error)        (* "failed to add task: %w" *)
  | ErrTaskIDArg (arg : string)          (* "invalid task ID '%s'. Please provide a valid number" *)
  | ErrFindTask (err : todo.error)       (* "failed to find task: %w" *)
  | ErrDeleteTask (err : todo.error).    (* "failed to delete task: %w" *)

(** What [listCmd] shows. *)
Inductive listCmd_output : Type :=
  | ShownStats (stats : gmap string Z)   (* showStats() *)
  | NoTasksFound                         (* "No tasks found matching your criteria." *)
  | ShownTasks (tasks : list Task.t).    (* displayTasks(tasks) *)

(** What [deleteCmd] reports when it returns no error. *)
Inductive deleteCmd_output : Type :=
  | DeletionCancelled                    (* "Deletion cancelled." *)
  | TaskDeleted (deletedTask : Task.t).  (* "Task deleted successfully!" *)



Section Commands.

(** [time.Parse], [strconv.Atoi] and [strings.ToLower] are taken as they
    are: [time_Parse layout value] and [strconv_Atoi s] are [None] when the
    function returns an error. *)
Variable time_Parse : string -> string -> option Time.
Variable strconv_Atoi : string -> option Z.
Variable strings_ToLower : string -> string.


(** [listCmd.RunE], with its six flags; [now] is the clock [showStats]
    reads through [GetStats]. *)
Definition listCmd_RunE (now : nat -> Time) (m : Manager) (listCompleted listPending : bool)
    (listPriority listSearch listSort : string) (listStats : bool)
    : listCmd_output + error :=
  if listStats then inl (ShownStats (GetStats now m))
  else
    let filter := FilterOptions.mk listCompleted listPending "" listSearch listSort in
    let checked : FilterOptions.t + error :=
      if negb (String.eqb listPriority "") then
        if negb (ValidatePriority listPriority) then inr (ErrPriorityFlag listPriority)
        else inl (FilterOptions.mk (FilterOptions.ShowCompleted filter)
                    (FilterOptions.ShowPending filter) listPriority
                    (FilterOptions.Search filter) (FilterOptions.SortBy filter))
      else inl filter in
    match checked with
    | inr err => inr err
    | inl filter =>
        let filter :=
          if negb listCompleted && negb listPending then
            FilterOptions.mk true true (FilterOptions.Priority filter)
              (FilterOptions.Search filter) (FilterOptions.SortBy filter)
          else filter in
        let tasks := ListTasks strings_ToLower m filter in
        if (length tasks =? 0)%nat then inl NoTasksFound else inl (ShownTasks tasks)
    end.

(** [deleteCmd.RunE], with the flag [--force]; [confirmation] is what
    [fmt.Scanln] reads when the command asks. *)
Definition deleteCmd_RunE (e : Env) (m : Manager) (arg : string) (deleteForce : bool)
    (confirmation : string) : (deleteCmd_output + error) * Manager :=
  match strconv_Atoi arg with
  | None => (inr (ErrTaskIDArg arg), m)
  | Some taskID =>
      match GetTask m taskID with
      | inr err => (inr (ErrFindTask err), m)
      | inl task =>
          if negb deleteForce
             && (negb (String.eqb confirmation "yes") && negb (String.eqb confirmation "y")
                 && negb (String.eqb confirmation "YES") && negb (String.eqb confirmation "Y"))
          then (inl DeletionCancelled, m)
          else
            match DeleteTask e m taskID with
            | (inr err, m) => (inr (ErrDeleteTask err), m)
            | (inl deletedTask, m) => (inl (TaskDeleted deletedTask), m)
            end
      end
  end.


End Commands.

End cmd.

(** * Notions the properties are stated with *)

Import todo.

(** A counter of the map [GetStats] returns. *)
Definition stat (stats : gmap string Z) (key : string) : Z := default 0 (stats !! key).

(** The tasks whose priority is one of low, medium and high. *)
Definition valid_priority_tasks (m : todo.Manager) : list todo.Task.t :=
  List.filter (fun task => todo.ValidatePriority (todo.Task.Priority task)) (todo.tasks m).

(** What one turn of the loop adds to the counter [key]. *)
Definition status_delta (now : Time) (task : Task.t) (key : string) : Z :=
  if Task.Completed task then (if decide (key = "completed") then 1 else 0)
  else (if decide (key = "pending") then 1 else 0)
       + (if IsOverdue now task then (if decide (key = "overdue") then 1 else 0) else 0).

Definition priority_delta (task : Task.t) (key : string) : Z :=
  if String.eqb (Task.Priority task) PriorityHigh
  then (if decide (key = "high") then 1 else 0)
  else if String.eqb (Task.Priority task) PriorityMedium
  then (if decide (key = "medium") then 1 else 0)
  else if String.eqb (Task.Priority task) PriorityLow
  then (if decide (key = "low") then 1 else 0)
  else 0.

(** No counter but ["total"] is negative or above [bound]. *)
Definition counters_below (stats : gmap string Z) (bound : Z) : Prop :=
  forall key, key <> "total" -> 0 <= stat stats key <= bound.

(** The counter [key] can be incremented without wrapping around. *)
Definition incrementable (stats : gmap string Z) (key : string) : Prop :=
  0 <= stat stats key < GoInt.max_int.

(** A storage file that holds the document [taskList]. *)
Definition disk_with (taskList : storage.TaskList) : storage.Disk :=
  {| storage.ensureDir_ok := true; storage.file := Some (storage.Document taskList) |}.

(** An environment whose clock reads [t0, t0 + 1, ...] and in which saving
    succeeds. *)
Definition env_at (t0 : Time) : todo.Env :=
  {| todo.time_Now := fun k => t0 + Z.of_nat k;
     todo.storage_SaveTasks := fun _ _ => None |}.

(** A document with one task whose priority is none of the three. *)
Definition urgent_document : storage.TaskList :=
  {| storage.Tasks :=
       [ {| storage.Task.ID := 1;
            storage.Task.Title := "pay rent";
            storage.Task.Completed := false;
            storage.Task.DueDate := None;
            storage.Task.Priority := "urgent";
            storage.Task.CreatedAt := 10;
            storage.Task.UpdatedAt := 10 |} ];
     storage.NextID := 2;
     storage.LastUpdate := "" |}.

(** The calls that change a manager, and the manager after a sequence of
    them. *)
Inductive call : Type :=
  | CallLoadTasks (d : storage.Disk)
  | CallAddTask (e : todo.Env) (title : string) (priority : todo.Priority)
      (dueDate : option Time)
  | CallCompleteTask (e : todo.Env) (id : Z)
  | CallDeleteTask (e : todo.Env) (id : Z).

Definition exec (m : todo.Manager) (c : call) : todo.Manager :=
  match c with
  | CallLoadTasks d => snd (todo.LoadTasks d m)
  | CallAddTask e title priority dueDate => snd (todo.AddTask e m title priority dueDate)
  | CallCompleteTask e id => snd (todo.CompleteTask e m id)
  | CallDeleteTask e id => snd (todo.DeleteTask e m id)
  end.

Definition run (m : todo.Manager) (cs : list call) : todo.Manager := fold_left exec cs m.

(** The watermark: the next id is above the id of every task. *)
Definition watermark (m : todo.Manager) : Prop :=
  Forall (fun task => todo.Task.ID task < todo.nextID m) (todo.tasks m).

(** The documents [LoadTasks] turns into a manager with the watermark: a
    stored next id of zero is recomputed (the ids being below the largest
    [int]); any other stored next id is taken as it is, so it has to be above
    the ids already. *)
Definition document_ok (taskList : storage.TaskList) : Prop :=
  if (storage.NextID taskList =? 0)%Z
  then Forall (fun st => storage.Task.ID st < GoInt.max_int) (storage.Tasks taskList)
  else Forall (fun st => storage.Task.ID st < storage.NextID taskList)
         (storage.Tasks taskList).

Definition disk_ok (d : storage.Disk) : Prop :=
  match storage.file d with
  | Some (storage.Document taskList) => document_ok taskList
  | _ => True
  end.

(** What a call needs for the watermark to survive it: a loaded document is
    [document_ok], and [AddTask] finds a next id it can increment. *)
Definition call_ok (m : todo.Manager) (c : call) : Prop :=
  match c with
  | CallLoadTasks d => disk_ok d
  | CallAddTask _ _ _ _ => GoInt.min_int <= todo.nextID m < GoInt.max_int
  | _ => True
  end.

Fixpoint calls_ok (m : todo.Manager) (cs : list call) : Prop :=
  match cs with
  | [] => True
  | c :: cs' => call_ok m c /\ calls_ok (exec m c) cs'
  end.

(** The ids [AddTask] hands out along a sequence of calls: the id of the
    task of every call that returns one. *)
Definition assigned (m : todo.Manager) (c : call) : list Z :=
  match c with
  | CallAddTask e title priority dueDate =>
      match fst (todo.AddTask e m title priority dueDate) with
      | inl task => [todo.Task.ID task]
      | inr _ => []
      end
  | _ => []
  end.

Fixpoint assigned_ids (m : todo.Manager) (cs : list call) : list Z :=
  match cs with
  | [] => []
  | c :: cs' => assigned m c ++ assigned_ids (exec m c) cs'
  end.

Definition is_load (c : call) : bool :=
  match c with
  | CallLoadTasks _ => true
  | _ => false
  end.

(** A storage task with the given id and priority. *)
Definition stored (id : Z) (priority : string) : storage.Task.t :=
  {| storage.Task.ID := id;
     storage.Task.Title := "task";
     storage.Task.Completed := false;
     storage.Task.DueDate := None;
     storage.Task.Priority := priority;
     storage.Task.CreatedAt := 10;
     storage.Task.UpdatedAt := 10 |}.

(** A hand-edited document: the stored next id is not zero and not above the
    id of its task. *)
Definition stale_document : storage.TaskList :=
  {| storage.Tasks := [stored 5 "low"]; storage.NextID := 2; storage.LastUpdate := "" |}.

(** A document that predates the next id: two tasks, no ["next_id"]. *)
Definition old_document : storage.TaskList :=
  {| storage.Tasks := [stored 1 "low"; stored 5 "high"];
     storage.NextID := 0;
     storage.LastUpdate := "" |}.

(** A document whose next id is the largest [int]. *)
Definition full_document : storage.TaskList :=
  {| storage.Tasks := []; storage.NextID := GoInt.max_int; storage.LastUpdate := "" |}.

(** The orders [ListTasks] arranges tasks in: [by_priority ti tj] and
    [by_due ti tj] say that [ti] may stand before [tj]. *)
Definition by_priority (ti tj : todo.Task.t) : Prop :=
  todo.priorityOrder_at (todo.Task.Priority tj) <= todo.priorityOrder_at (todo.Task.Priority ti).

Definition by_due (ti tj : todo.Task.t) : Prop :=
  match todo.Task.DueDate ti, todo.Task.DueDate tj with
  | Some di, Some dj => di <= dj
  | Some _, None => True
  | None, Some _ => False
  | None, None => todo.Task.ID ti <= todo.Task.ID tj
  end.

Definition has_priority (p : todo.Priority) (task : todo.Task.t) : bool :=
  String.eqb (todo.Task.Priority task) p.

(** A manager with thirteen tasks: twelve of priority medium, then one of
    priority high. *)
Definition thirteen_tasks : todo.Manager :=
  run todo.NewManager
    (replicate 12 (CallAddTask (env_at 100) "tidy up" "medium" None)
     ++ [CallAddTask (env_at 200) "call home" "high" None])%list.

(** The three tasks of the specification's scenario B. *)
Definition three_tasks : todo.Manager :=
  run todo.NewManager
    [CallAddTask (env_at 100) "a" "low" None;
     CallAddTask (env_at 200) "b" "high" None;
     CallAddTask (env_at 300) "c" "medium" None].

(** Scenario B's manager once task 1 has been completed, at time 500. *)
Definition one_completed : todo.Manager :=
  exec three_tasks (CallCompleteTask (env_at 500) 1).

(** ** Notions of the further properties *)

(** The number of [time.Now()] readings the setters of [AddTask] make: one
    for [SetPriority] when a priority is given, one for [SetDueDate] when a
    due date is given. *)
Definition setter_calls (priority : Priority) (dueDate : option Time) : nat :=
  ((if String.eqb priority "" then 0 else 1) + (if dueDate is Some _ then 1 else 0))%nat.

(** The ids increase along the collection. *)
Definition ids_increasing (m : Manager) : Prop :=
  StronglySorted Z.lt (map Task.ID (tasks m)).

(** A manager as [NewManager], [AddTask], [CompleteTask] and [DeleteTask]
    keep it: the next id is positive and above every id, and the ids are
    positive and increase along the collection. *)
Definition well_formed (m : Manager) : Prop :=
  watermark m /\ ids_increasing m /\ Forall (fun task => 0 < Task.ID task) (tasks m)
  /\ 0 < nextID m.

(** The orders of the id sort and of the creation-time sort. *)
Definition by_id (ti tj : Task.t) : Prop := Task.ID ti <= Task.ID tj.
Definition by_created (ti tj : Task.t) : Prop := Task.CreatedAt ti <= Task.CreatedAt tj.

(** The three tests of the loop of [ListTasks] together. *)
Definition passes (strings_ToLower : string -> string) (filter : FilterOptions.t)
    (task : Task.t) : bool :=
  completion_ok filter task && priority_ok filter task && search_ok strings_ToLower filter task.

(** The sort keys the [default] case of [sortTasks] takes: ["id"] and any
    value that is none of the other three. *)
Definition sorts_by_id (sortBy : string) : Prop :=
  sortBy <> "priority" /\ sortBy <> "due" /\ sortBy <> "created".

(** The number of tasks of [l] that satisfy [f]. *)
Definition count (f : Task.t -> bool) (l : list Task.t) : Z :=
  Z.of_nat (length (List.filter f l)).

Definition pending (task : Task.t) : bool := negb (Task.Completed task).

(** The maps [s] and [s'] have the same keys. *)
Definition same_keys (s s' : gmap string Z) : Prop :=
  forall key, is_Some (s' !! key) <-> is_Some (s !! key).

(** The counters the loop of [GetStats] increments are keys of the map. *)
Definition counters_present (stats : gmap string Z) : Prop :=
  forall key, In key ["completed"; "pending"; "overdue"; "high"; "medium"; "low"] ->
    is_Some (stats !! key).

(** The largest id of a document, 0 when no id is positive. *)
Definition largest_id (l : list storage.Task.t) : Z :=
  foldr (fun st acc => Z.max (storage.Task.ID st) acc) 0 l.

(** The document [Manager.SaveTasks] hands to the storage. *)
Definition document_of (os : storage.OS) (m : Manager) : storage.TaskList :=
  {| storage.Tasks := map task_to_storage (tasks m);
     storage.NextID := nextID m;
     storage.LastUpdate := storage.Getenv_USER os |}.

(** The environment of a call whose storage is the disk [d]. *)
Definition env_on (os : storage.OS) (d : storage.Disk) (now : nat -> Time) : Env :=
  {| time_Now := now;
     storage_SaveTasks := fun tasks nextID => fst (storage.SaveTasks os d tasks nextID) |}.

(** The disk after [Manager.SaveTasks] has been called on [m]. *)
Definition saved (os : storage.OS) (d : storage.Disk) (m : Manager) : storage.Disk :=
  snd (storage.SaveTasks os d (map task_to_storage (tasks m)) (nextID m)).

(** The JSON text of the document reads back as the document. *)
Definition json_faithful (os : storage.OS) (taskList : storage.TaskList) : Prop :=
  storage.json_MarshalIndent os taskList = Some taskList.

(** The backup file seen as the storage file of another manager. *)
Definition backup_disk (fs : storage.Files) : storage.Disk :=
  {| storage.ensureDir_ok := storage.ensureDir_ok (storage.tasks_file fs);
     storage.file := storage.backup_file fs |}.


(** An operating system on which nothing fails, and a disk without a
    storage file. *)
Definition os_ok : storage.OS :=
  {| storage.Getenv_USER := "ada";
     storage.json_MarshalIndent := Some;
     storage.WriteFile_fails := None |}.

Definition empty_disk : storage.Disk :=
  {| storage.ensureDir_ok := true; storage.file := None |}.

(** An environment in which saving fails. *)
Definition env_failing : todo.Env :=
  {| todo.time_Now := fun k => 100 + Z.of_nat k;
     todo.storage_SaveTasks := fun _ _ => Some storage.ErrWriteFile |}.

(** A document whose stored next id is negative. *)
Definition negative_document : storage.TaskList :=
  {| storage.Tasks := []; storage.NextID := -3; storage.LastUpdate := "" |}.


(** The tasks of [three_tasks]. *)
Definition task_a : todo.Task.t :=
  todo.SetPriority 101 "low" (todo.NewTask 100 1 "a").
Definition task_b : todo.Task.t :=
  todo.SetPriority 201 "high" (todo.NewTask 200 2 "b").
Definition task_c : todo.Task.t :=
  todo.SetPriority 301 "medium" (todo.NewTask 300 3 "c").

(** A manager with two tasks created at the same time and one created
    before them. *)
Definition same_time_tasks : todo.Manager :=
  run todo.NewManager
    [CallAddTask (env_at 100) "x" "" None;
     CallAddTask (env_at 100) "y" "" None;
     CallAddTask (env_at 50) "z" "" None].

(** ** The order of a [less] function and the states of the loops of [sort.Slice] *)

Module SortSpec.

Local Open Scope nat_scope.

Section Spec.

Context {A : Type} `{!Inhabited A}.
Variable less : A -> A -> bool.

(** [less] is a strict weak order: what [sort.Slice] asks of it. *)
Definition strict_weak_order : Prop :=
  (forall x, less x x = false)
  /\ (forall x y z, less x y = true -> less y z = true -> less x z = true)
  /\ (forall x y z, less x y = false -> less y z = false -> less x z = false).

(** The order [less] induces: [leq x y] when [y] is not less than [x]. *)
Definition leq (x y : A) : Prop := less y x = false.

(** [seg_perm a b l l']: [l'] comes from [l] by swaps within [a, b). *)
Inductive seg_perm (a b : nat) (l : list A) : list A -> Prop :=
  | seg_perm_refl : seg_perm a b l l
  | seg_perm_swap l' i j :
      seg_perm a b l l' -> a <= i < b -> a <= j < b ->
      seg_perm a b l (GoSort.data_Swap l' i j).

Definition sorted_seg (a b : nat) (l : list A) : Prop :=
  forall i j, a <= i -> i <= j -> j < b -> leq (l !!! i) (l !!! j).

(** Every element before [a] is at most every element of [a, b). *)
Definition below (a b : nat) (l : list A) : Prop :=
  forall p k, p < a -> a <= k < b -> leq (l !!! p) (l !!! k).

(** The state of the inner loop: [l] is sorted on [a, i] once the element at
    [j] is left out, and that element is at most those after it. *)
Definition ins_inv (a j i : nat) (l : list A) : Prop :=
  (forall p q, a <= p -> p <= q -> q <= i -> p <> j -> q <> j -> leq (l !!! p) (l !!! q))
  /\ (forall q, j < q -> q <= i -> leq (l !!! j) (l !!! q)).

(** Node [k] of the heap laid out from [first]: its children are at most it. *)
Definition heap_at (first hi : nat) (l : list A) (k : nat) : Prop :=
  forall c, c = 2 * k + 1 \/ c = 2 * k + 2 -> c < hi ->
    leq (l !!! (first + c)) (l !!! (first + k)).

(** The state of [siftDown_func] at [root]: the heap property holds at every
    node from [lo] on but [root], and the parent of [root] is above the
    children of [root]. *)
Definition sift_inv (first lo hi root : nat) (l : list A) : Prop :=
  (forall k, lo <= k -> k < hi -> k <> root -> heap_at first hi l k)
  /\ (forall p c, lo <= p -> root = 2 * p + 1 \/ root = 2 * p + 2 ->
        c = 2 * root + 1 \/ c = 2 * root + 2 -> c < hi ->
        leq (l !!! (first + c)) (l !!! (first + p))).

(** The state of the loops of [partition_func]: the pivot is at [a], the
    elements of [(a, i)] are less than it and those of [(j, b)] are not. *)
Definition part_inv (a b i j : nat) (pv : A) (l : list A) : Prop :=
  l !!! a = pv
  /\ (forall k, a < k < i -> less (l !!! k) pv = true)
  /\ (forall k, j < k < b -> leq pv (l !!! k)).

(** [partitionEqual_func]: the pivot is at [a], the elements of [(a, i)] are
    at most it and those of [(j, b)] are greater. *)
Definition parteq_inv (a b i j : nat) (pv : A) (l : list A) : Prop :=
  l !!! a = pv
  /\ (forall k, a < k < i -> leq (l !!! k) pv)
  /\ (forall k, j < k < b -> less pv (l !!! k) = true).

(** [l] is partitioned around the element at [mid]. *)
Definition pivot_at (a mid b : nat) (l : list A) : Prop :=
  (forall k, a <= k < mid -> leq (l !!! k) (l !!! mid))
  /\ (forall k, mid < k < b -> leq (l !!! mid) (l !!! k)).

End Spec.

End SortSpec.

(** * Properties *)

(** ** Go integers *)

Lemma succ_no_overflow (x : Z) :
  GoInt.min_int <= x + 1 <= GoInt.max_int -> GoInt.succ x = x + 1.
Proof.
  unfold GoInt.succ, GoInt.wrap, GoInt.min_int, GoInt.max_int. intros Hx.
  rewrite Z.mod_small; lia.
Qed.

Lemma succ_max_int : GoInt.succ GoInt.max_int = GoInt.min_int.
Proof. reflexivity. Qed.

(** ** The task entity *)

(** C9: [IsOverdue] is true exactly when the task has a due date, is not
    completed, and the due date is strictly before the current time; so a
    completed task is never overdue, whatever its due date. *)
Theorem IsOverdue_iff (now : Time) (t : Task.t) :
  (IsOverdue now t = true <->
   exists dueDate, Task.DueDate t = Some dueDate /\ Task.Completed t = false /\ dueDate < now)
  /\ (Task.Completed t = true -> IsOverdue now t = false).
Proof.
  unfold IsOverdue, Time_After. split.
  - destruct (Task.DueDate t) as [d|], (Task.Completed t); split.
    all: try (intros; discriminate).
    all: try (intros (d' & Hd & Hc & Hlt); discriminate).
    + intros Hlt. exists d. split; [reflexivity|]. split; [reflexivity|]. lia.
    + intros (d' & Hd & _ & Hlt). injection Hd as ->. lia.
  - intros ->. destruct (Task.DueDate t); reflexivity.
Qed.

(** ** Adding a task *)

(** C7: when the title is empty after trimming, [AddTask] fails with the
    empty-title validation error and returns the manager as it was: no task
    is created and the next id is unchanged. *)
Theorem AddTask_empty_title (e : Env) (m : Manager) (title : string)
    (priority : Priority) (dueDate : option Time) :
  GoStrings.TrimSpace title = "" ->
  AddTask e m title priority dueDate = (inr ErrEmptyTitle, m)
  /\ ValidationError ErrEmptyTitle = true.
Proof.
  intros Hempty. unfold AddTask. rewrite Hempty. split; reflexivity.
Qed.

(** C10: with a title that is not empty after trimming and the empty string
    as priority, [AddTask] runs no priority validation: the new task has
    priority medium and the next id of the manager as its id, it is appended
    and returned; the only error the call can return is the one of saving,
    which is no validation error. *)
Theorem AddTask_no_priority (e : Env) (m : Manager) (title : string)
    (dueDate : option Time) :
  GoStrings.TrimSpace title <> "" ->
  exists task : Task.t,
    Task.Priority task = PriorityMedium
    /\ Task.ID task = nextID m
    /\ let m' := {| tasks := tasks m ++ [task]; nextID := GoInt.succ (nextID m) |} in
       AddTask e m title "" dueDate =
         (match SaveTasks e m' with Some err => inr err | None => inl task end, m')
       /\ (forall err, SaveTasks e m' = Some err -> ValidationError err = false).
Proof.
  intros Hne. unfold AddTask.
  destruct (String.eqb_spec (GoStrings.TrimSpace title) "") as [Heq|_]; [contradiction|].
  cbn [String.eqb negb].
  set (task0 := NewTask (time_Now e 0) (nextID m) (GoStrings.TrimSpace title)).
  exists (match dueDate with Some d => SetDueDate (time_Now e 1) d task0 | None => task0 end).
  split; [destruct dueDate; reflexivity|].
  split; [destruct dueDate; reflexivity|].
  cbn zeta. split.
  - destruct (SaveTasks e _); reflexivity.
  - unfold SaveTasks. intros err.
    destruct (storage_SaveTasks e _ _); intros [= <-]. reflexivity.
Qed.

(** ** Completing a task *)

(** With positive, unique ids, [GetTask] resolves the id of every task of
    the collection to that task. *)
Lemma GetTask_member (m : Manager) (id : Z) (task : Task.t) :
  0 < id -> NoDup (map Task.ID (tasks m)) ->
  In task (tasks m) -> Task.ID task = id ->
  GetTask m id = inl task.
Proof.
  intros Hpos Hnodup Hin Hid. unfold GetTask, GetTask_at, find_ID.
  destruct (Z.leb_spec id 0) as [|_]; [lia|].
  apply list_elem_of_In, list_elem_of_lookup in Hin as [j Hj].
  destruct (list_find (fun t => Task.ID t = id) (tasks m)) as [[i found]|] eqn:Hfind.
  - apply list_find_Some in Hfind as (Hi & Hfound & _).
    assert (i = j) as ->.
    { eapply NoDup_lookup; [exact Hnodup| |].
      - rewrite list_lookup_fmap, Hi. cbn. rewrite Hfound. reflexivity.
      - rewrite list_lookup_fmap, Hj. cbn. rewrite Hid. reflexivity. }
    congruence.
  - apply list_find_None in Hfind. rewrite Forall_lookup in Hfind.
    destruct (Hfind j task Hj Hid).
Qed.

(** C8: when the id resolves to a task that is already completed,
    [CompleteTask] fails with the already-completed error and returns the
    manager as it was, so the task and its [UpdatedAt] are those of before. *)
Theorem CompleteTask_already_completed (e : Env) (m : Manager) (id : Z) (task : Task.t) :
  GetTask m id = inl task ->
  Task.Completed task = true ->
  CompleteTask e m id = (inr (ErrAlreadyCompleted id), m)
  /\ AlreadyCompleted (ErrAlreadyCompleted id) = true
  /\ GetTask (snd (CompleteTask e m id)) id = inl task.
Proof.
  intros Hget Hdone.
  assert (Hfail : CompleteTask e m id = (inr (ErrAlreadyCompleted id), m)).
  { unfold GetTask in Hget. unfold CompleteTask.
    destruct (GetTask_at m id) as [[i t]|err]; [|discriminate].
    injection Hget as ->. rewrite Hdone. reflexivity. }
  rewrite Hfail. repeat split; assumption.
Qed.

(** ** Statistics *)

Lemma stat_incr_eq (key : string) (stats : gmap string Z) :
  stat (stats_incr key stats) key = GoInt.succ (stat stats key).
Proof. unfold stat, stats_incr. rewrite lookup_insert_eq. reflexivity. Qed.

Lemma stat_incr_ne (key key' : string) (stats : gmap string Z) :
  key <> key' -> stat (stats_incr key stats) key' = stat stats key'.
Proof. intros Hne. unfold stat, stats_incr. rewrite lookup_insert_ne; done. Qed.

Lemma ValidatePriority_cases (p : string) :
  ValidatePriority p =
    (String.eqb p PriorityHigh || String.eqb p PriorityMedium || String.eqb p PriorityLow).
Proof.
  unfold ValidatePriority.
  destruct (String.eqb p PriorityHigh), (String.eqb p PriorityMedium),
    (String.eqb p PriorityLow); reflexivity.
Qed.

Lemma stat_incr (key key' : string) (stats : gmap string Z) :
  stat stats key < GoInt.max_int -> 0 <= stat stats key ->
  stat (stats_incr key stats) key' =
    stat stats key' + (if decide (key' = key) then 1 else 0).
Proof.
  intros Hlt Hge. case_decide as Hk.
  - subst key'. rewrite stat_incr_eq, succ_no_overflow; [reflexivity|].
    unfold GoInt.min_int. lia.
  - rewrite stat_incr_ne by done. lia.
Qed.

Lemma count_status_stat (now : nat -> Time) (clock : nat) (task : Task.t)
    (stats : gmap string Z) :
  incrementable stats "completed" -> incrementable stats "pending" ->
  incrementable stats "overdue" ->
  forall key,
    stat (fst (count_status now clock task stats)) key =
      stat stats key + status_delta (now clock) task key.
Proof.
  unfold incrementable. intros Hc Hp Ho key. unfold count_status, status_delta.
  destruct (Task.Completed task); [|destruct (IsOverdue (now clock) task)]; cbn [fst].
  - rewrite stat_incr by lia. reflexivity.
  - assert (Hov : stat (stats_incr "pending" stats) "overdue" = stat stats "overdue")
      by (apply stat_incr_ne; done).
    rewrite (stat_incr "overdue") by lia. rewrite stat_incr by lia. lia.
  - rewrite stat_incr by lia. lia.
Qed.

Lemma count_priority_stat (task : Task.t) (stats : gmap string Z) :
  incrementable stats "high" -> incrementable stats "medium" ->
  incrementable stats "low" ->
  forall key,
    stat (count_priority task stats) key = stat stats key + priority_delta task key.
Proof.
  unfold incrementable. intros Hh Hm Hl key. unfold count_priority, priority_delta.
  destruct (String.eqb (Task.Priority task) PriorityHigh);
    [rewrite stat_incr by lia; reflexivity|].
  destruct (String.eqb (Task.Priority task) PriorityMedium);
    [rewrite stat_incr by lia; reflexivity|].
  destruct (String.eqb (Task.Priority task) PriorityLow);
    [rewrite stat_incr by lia; reflexivity|lia].
Qed.

Lemma status_delta_other (now : Time) (task : Task.t) (key : string) :
  key <> "completed" -> key <> "pending" -> key <> "overdue" ->
  status_delta now task key = 0.
Proof. intros. unfold status_delta. repeat case_match; try done; lia. Qed.

Lemma priority_delta_other (task : Task.t) (key : string) :
  key <> "high" -> key <> "medium" -> key <> "low" -> priority_delta task key = 0.
Proof. intros. unfold priority_delta. repeat case_match; try done; lia. Qed.

Lemma status_delta_sum (now : Time) (task : Task.t) :
  status_delta now task "completed" + status_delta now task "pending" = 1
  /\ status_delta now task "overdue" <= status_delta now task "pending".
Proof.
  unfold status_delta. destruct (Task.Completed task), (IsOverdue now task); done.
Qed.

Lemma status_delta_range (now : Time) (task : Task.t) (key : string) :
  0 <= status_delta now task key <= 1.
Proof. unfold status_delta. repeat case_match; subst; try discriminate; lia. Qed.

Lemma priority_delta_range (task : Task.t) (key : string) :
  0 <= priority_delta task key <= 1.
Proof. unfold priority_delta. repeat case_match; lia. Qed.

Lemma delta_disjoint (now : Time) (task : Task.t) (key : string) :
  status_delta now task key + priority_delta task key <= 1.
Proof.
  unfold status_delta, priority_delta.
  repeat case_match; subst; try discriminate; lia.
Qed.

Lemma priority_delta_sum (task : Task.t) :
  priority_delta task "high" + priority_delta task "medium" + priority_delta task "low"
  = if ValidatePriority (Task.Priority task) then 1 else 0.
Proof.
  rewrite ValidatePriority_cases. unfold priority_delta.
  destruct (String.eqb (Task.Priority task) PriorityHigh),
    (String.eqb (Task.Priority task) PriorityMedium),
    (String.eqb (Task.Priority task) PriorityLow); reflexivity.
Qed.

(** The counters after the loop: each has grown by the number of tasks it
    counts, as long as no counter can pass the largest [int]. *)
Lemma GetStats_loop_counts (now : nat -> Time) (l : list Task.t) :
  forall (clock : nat) (stats : gmap string Z) (bound : Z),
    bound + Z.of_nat (length l) <= GoInt.max_int ->
    counters_below stats bound ->
    exists D : string -> Z,
      (forall key, stat (GetStats_loop now clock l stats) key = stat stats key + D key)
      /\ (forall key, 0 <= D key <= Z.of_nat (length l))
      /\ D "total" = 0
      /\ D "completed" + D "pending" = Z.of_nat (length l)
      /\ D "overdue" <= D "pending"
      /\ D "high" + D "medium" + D "low" =
           Z.of_nat (length (List.filter (fun t => ValidatePriority (Task.Priority t)) l)).
Proof.
  induction l as [|task rest IH]; intros clock stats bound Hbound Hb.
  - exists (fun _ => 0). cbn. repeat split; intros; lia.
  - cbn [GetStats_loop]. rewrite length_cons in Hbound |- *.
    destruct (count_status now clock task stats) as [st1 clock1] eqn:Hst1.
    assert (Hinc : forall key, key <> "total" -> incrementable stats key).
    { intros key Hk. specialize (Hb key Hk). unfold incrementable. lia. }
    assert (H1 : forall key, stat st1 key = stat stats key + status_delta (now clock) task key).
    { intros key. rewrite <- (count_status_stat now clock task stats) by (apply Hinc; done).
      rewrite Hst1. reflexivity. }
    assert (H2 : forall key, stat (count_priority task st1) key =
                             stat st1 key + priority_delta task key).
    { apply count_priority_stat; unfold incrementable; rewrite H1;
        rewrite status_delta_other by done; rewrite Z.add_0_r; apply Hinc; done. }
    destruct (IH clock1 (count_priority task st1) (bound + 1)) as (D & HD & Hr & Ht & Hcp & Hov & Hpr).
    { lia. }
    { intros key Hk. rewrite H2, H1. specialize (Hb key Hk).
      pose proof (status_delta_range (now clock) task key).
      pose proof (priority_delta_range task key).
      pose proof (delta_disjoint (now clock) task key). lia. }
    exists (fun key => status_delta (now clock) task key + priority_delta task key + D key).
    split; [intros key; rewrite HD, H2, H1; lia|].
    split.
    { intros key. specialize (Hr key).
      pose proof (status_delta_range (now clock) task key).
      pose proof (priority_delta_range task key).
      pose proof (delta_disjoint (now clock) task key). lia. }
    cbn [List.filter]. pose proof (priority_delta_sum task) as Hsum.
    assert (Hlen : Z.of_nat (length (if ValidatePriority (Task.Priority task)
        then task :: List.filter (fun t => ValidatePriority (Task.Priority t)) rest
        else List.filter (fun t => ValidatePriority (Task.Priority t)) rest))
      = (if ValidatePriority (Task.Priority task) then 1 else 0)
        + Z.of_nat (length (List.filter (fun t => ValidatePriority (Task.Priority t)) rest))).
    { destruct (ValidatePriority (Task.Priority task)); rewrite ?length_cons; lia. }
    rewrite Hlen. clear Hlen.
    pose proof (status_delta_other (now clock) task "total") as Hs0.
    pose proof (status_delta_other (now clock) task "high") as Hs1.
    pose proof (status_delta_other (now clock) task "medium") as Hs2.
    pose proof (status_delta_other (now clock) task "low") as Hs3.
    pose proof (priority_delta_other task "total") as Hp0.
    pose proof (priority_delta_other task "completed") as Hp1.
    pose proof (priority_delta_other task "pending") as Hp2.
    pose proof (priority_delta_other task "overdue") as Hp3.
    pose proof (status_delta_sum (now clock) task) as [Hs4 Hs5].
    rewrite Hs0, Hs1, Hs2, Hs3, Hp0, Hp1, Hp2, Hp3 by done. lia.
Qed.

Lemma initial_stats (total : Z) (key : string) :
  stat
    {[ "total" := total; "completed" := 0%Z; "pending" := 0%Z; "overdue" := 0%Z;
       "high" := 0%Z; "medium" := 0%Z; "low" := 0%Z ]} key
  = if decide (key = "total") then total else 0.
Proof.
  unfold stat.
  rewrite lookup_insert. destruct (decide ("total" = key)) as [<-|Hk].
  { rewrite decide_True by done. reflexivity. }
  rewrite decide_False by done.
  repeat (rewrite lookup_insert; case_decide; [reflexivity|]).
  rewrite lookup_singleton. case_decide; reflexivity.
Qed.

(** C3 fails as stated: a task read from the storage file keeps whatever
    priority string the document gives it, and [GetStats] counts such a task
    in none of high, medium and low. *)
Lemma GetStats_counterexample :
  let m := snd (LoadTasks (disk_with urgent_document) NewManager) in
  let stats := GetStats (fun _ => 0) m in
  ~ (stat stats "completed" + stat stats "pending" = stat stats "total"
     /\ stat stats "high" + stat stats "medium" + stat stats "low" = stat stats "total"
     /\ stat stats "overdue" <= stat stats "pending").
Proof. vm_compute. intros (_ & Hsum & _). discriminate Hsum. Qed.

(** C3, amended: over the whole collection, completed + pending = total and
    overdue <= pending; high + medium + low is the number of tasks whose
    priority is one of the three, so it is the total exactly when every task
    has such a priority. *)
Theorem GetStats_consistent (now : nat -> Time) (m : Manager) :
  Z.of_nat (length (tasks m)) <= GoInt.max_int ->
  let stats := GetStats now m in
  stat stats "total" = Z.of_nat (length (tasks m))
  /\ stat stats "completed" + stat stats "pending" = stat stats "total"
  /\ 0 <= stat stats "overdue" <= stat stats "pending"
  /\ stat stats "high" + stat stats "medium" + stat stats "low"
     = Z.of_nat (length (valid_priority_tasks m))
  /\ (stat stats "high" + stat stats "medium" + stat stats "low" = stat stats "total"
      <-> Forall (fun task => ValidatePriority (Task.Priority task) = true) (tasks m)).
Proof.
  intros Hlen. cbn zeta. unfold GetStats.
  destruct (GetStats_loop_counts now (tasks m) 0
              {[ "total" := Z.of_nat (length (tasks m)); "completed" := 0%Z;
                 "pending" := 0%Z; "overdue" := 0%Z; "high" := 0%Z; "medium" := 0%Z;
                 "low" := 0%Z ]} 0)
    as (D & HD & Hr & Ht & Hcp & Hov & Hpr).
  { lia. }
  { intros key Hk. rewrite initial_stats, decide_False by done. lia. }
  rewrite !HD, !initial_stats. cbn [decide_rel]. unfold valid_priority_tasks.
  pose proof (Hr "overdue") as Ho.
  assert (Hd : forall k : string, k <> "total" ->
                (if decide (k = "total") then Z.of_nat (length (tasks m)) else 0) = 0).
  { intros k Hk. rewrite decide_False by done. reflexivity. }
  rewrite (decide_True (P := "total" = "total")) by done.
  rewrite !Hd by done.
  split; [lia|]. split; [lia|]. split; [lia|]. split; [lia|].
  replace (0 + D "high" + (0 + D "medium") + (0 + D "low"))
    with (D "high" + D "medium" + D "low") by lia.
  rewrite Ht, Hpr, Z.add_0_r. rewrite Nat2Z.inj_iff.
  clear. induction (tasks m) as [|task rest IH]; cbn [List.filter length].
  - split; [constructor|reflexivity].
  - pose proof (filter_length_le (fun t => ValidatePriority (Task.Priority t)) rest) as Hle.
    destruct (ValidatePriority (Task.Priority task)) eqn:Hv; cbn [length].
    + split.
      * intros [= Heq]. constructor; [assumption|]. apply IH, Heq.
      * intros Hall. inversion Hall; subst. f_equal. apply IH. assumption.
    + split; [lia|]. intros Hall. inversion Hall; subst. congruence.
Qed.

(** ** The watermark *)

Lemma highest_next_above (l : list storage.Task.t) :
  forall n : Z,
    GoInt.min_int <= n ->
    Forall (fun st => storage.Task.ID st < GoInt.max_int) l ->
    n <= storage.highest_next l n
    /\ Forall (fun st => storage.Task.ID st < storage.highest_next l n) l.
Proof.
  induction l as [|st rest IH]; intros n Hn Hall; cbn [storage.highest_next].
  - split; [lia|constructor].
  - inversion Hall as [|? ? Hst Hrest]; subst.
    set (n' := if (storage.Task.ID st >=? n)%Z then GoInt.succ (storage.Task.ID st) else n).
    assert (Hn' : n <= n' /\ storage.Task.ID st < n').
    { subst n'. destruct (Z.geb_spec (storage.Task.ID st) n) as [Hge|Hlt].
      - rewrite succ_no_overflow by lia. lia.
      - lia. }
    destruct (IH n' ltac:(lia) Hrest) as [Hle Hfa].
    split; [lia|]. constructor; [lia|assumption].
Qed.

Lemma watermark_NewManager : watermark NewManager.
Proof. constructor. Qed.

Lemma watermark_LoadTasks (d : storage.Disk) (m : Manager) :
  watermark m -> disk_ok d -> watermark (snd (LoadTasks d m)).
Proof.
  intros Hm Hd. unfold LoadTasks, storage.LoadTasks, disk_ok, document_ok in *.
  destruct (storage.ensureDir_ok d); cbn [negb]; [|exact Hm].
  destruct (storage.file d) as [[| | |taskList]|]; cbn [snd]; try exact Hm; try constructor.
  unfold watermark. cbn [tasks nextID]. apply Forall_map.
  destruct (storage.NextID taskList =? 0)%Z.
  - apply (highest_next_above (storage.Tasks taskList) 1); [|assumption].
    unfold GoInt.min_int. lia.
  - exact Hd.
Qed.

Lemma AddTask_state (e : Env) (m : Manager) (title : string) (priority : Priority)
    (dueDate : option Time) :
  snd (AddTask e m title priority dueDate) = m
  /\ (exists err, fst (AddTask e m title priority dueDate) = inr err
                  /\ ValidationError err = true)
  \/ exists task,
       Task.ID task = nextID m
       /\ snd (AddTask e m title priority dueDate) =
            {| tasks := tasks m ++ [task]; nextID := GoInt.succ (nextID m) |}
       /\ (forall t, fst (AddTask e m title priority dueDate) = inl t -> t = task)
       /\ (forall err, fst (AddTask e m title priority dueDate) = inr err ->
                       ValidationError err = false).
Proof.
  unfold AddTask.
  destruct (String.eqb (GoStrings.TrimSpace title) ""); [left; split; eauto|].
  destruct (String.eqb priority ""); cbn [negb].
  2: destruct (ValidatePriority priority); cbn [negb]; [|left; split; eauto].
  all: right; eexists; split; [|split; [|split]].
  all: lazymatch goal with
       | |- Task.ID _ = _ => idtac
       | |- _ => unfold SaveTasks; destruct (storage_SaveTasks e _ _); cbn [fst snd]
       end.
  all: try reflexivity.
  all: try (intros ? [= <-]; reflexivity).
  all: try (intros ? [=]).
  all: destruct dueDate; reflexivity.
Qed.

Lemma watermark_AddTask (e : Env) (m : Manager) (title : string) (priority : Priority)
    (dueDate : option Time) :
  watermark m -> GoInt.min_int <= nextID m < GoInt.max_int ->
  watermark (snd (AddTask e m title priority dueDate)).
Proof.
  intros Hm Hn.
  destruct (AddTask_state e m title priority dueDate) as [[-> _]|(task & Hid & -> & _)];
    [assumption|].
  unfold watermark in *. cbn [tasks nextID].
  rewrite succ_no_overflow by lia. apply Forall_app. split.
  - eapply Forall_impl; [exact Hm|]. cbn. intros. lia.
  - constructor; [lia|constructor].
Qed.

Lemma CompleteTask_state (e : Env) (m : Manager) (id : Z) :
  snd (CompleteTask e m id) = m
  \/ exists i task,
       tasks m !! i = Some task /\ Task.ID task = id /\ Task.Completed task = false
       /\ snd (CompleteTask e m id) =
            {| tasks := <[i := Complete (time_Now e 0) task]> (tasks m); nextID := nextID m |}.
Proof.
  unfold CompleteTask, GetTask_at, find_ID.
  destruct (id <=? 0)%Z; [left; reflexivity|].
  destruct (list_find _ (tasks m)) as [[i task]|] eqn:Hfind; [|left; reflexivity].
  apply list_find_Some in Hfind as (Hi & Hid & _).
  destruct (Task.Completed task) eqn:Hc; [left; reflexivity|].
  right. exists i, task. repeat split; try assumption.
  destruct (SaveTasks e _); reflexivity.
Qed.

Lemma DeleteTask_state (e : Env) (m : Manager) (id : Z) :
  snd (DeleteTask e m id) = m
  \/ exists i task,
       tasks m !! i = Some task /\ Task.ID task = id
       /\ snd (DeleteTask e m id) = {| tasks := delete i (tasks m); nextID := nextID m |}.
Proof.
  unfold DeleteTask, find_ID.
  destruct (id <=? 0)%Z; [left; reflexivity|].
  destruct (list_find _ (tasks m)) as [[i task]|] eqn:Hfind; [|left; reflexivity].
  apply list_find_Some in Hfind as (Hi & Hid & _).
  right. exists i, task. repeat split; try assumption.
  destruct (SaveTasks e _); reflexivity.
Qed.

Lemma watermark_CompleteTask (e : Env) (m : Manager) (id : Z) :
  watermark m -> watermark (snd (CompleteTask e m id)).
Proof.
  intros Hm. destruct (CompleteTask_state e m id) as [->|(i & task & Hi & Hid & _ & ->)];
    [assumption|].
  unfold watermark in *. cbn [tasks nextID].
  apply Forall_insert; [assumption|]. cbn.
  eapply Forall_lookup_1 in Hm; [|exact Hi]. exact Hm.
Qed.

Lemma watermark_DeleteTask (e : Env) (m : Manager) (id : Z) :
  watermark m -> watermark (snd (DeleteTask e m id)).
Proof.
  intros Hm. destruct (DeleteTask_state e m id) as [->|(i & task & Hi & Hid & ->)];
    [assumption|].
  unfold watermark in *. cbn [tasks nextID]. apply Forall_delete. assumption.
Qed.

Lemma watermark_run (cs : list call) :
  forall m : Manager, watermark m -> calls_ok m cs -> watermark (run m cs).
Proof.
  induction cs as [|c cs IH]; intros m Hm Hok; [exact Hm|].
  destruct Hok as [Hc Hcs]. cbn [run fold_left]. apply IH; [|exact Hcs].
  destruct c; cbn [exec call_ok] in *.
  - apply watermark_LoadTasks; assumption.
  - apply watermark_AddTask; assumption.
  - apply watermark_CompleteTask; assumption.
  - apply watermark_DeleteTask; assumption.
Qed.

(** C2 fails as stated: [LoadTasks] recomputes the next id only when the
    stored one is zero.  A document whose stored next id is 2 and whose task
    has id 5 is loaded as it is, and the manager is then below the
    watermark. *)
Lemma watermark_counterexample :
  ~ watermark (run NewManager [CallLoadTasks (disk_with stale_document)]).
Proof.
  vm_compute. intros H. inversion H as [|? ? Hlt _]; subst. discriminate Hlt.
Qed.

(** C2, amended: the next id is above every task id in every state reached
    from a new manager by calls of which every [LoadTasks] reads no document
    or one that is [document_ok] (stored next id zero, or already above its
    ids) and every [AddTask] finds a next id below the largest [int];
    [AddTask], [CompleteTask] and [DeleteTask] keep the watermark, and
    [LoadTasks] establishes it for such documents. *)
Theorem watermark_reachable (cs : list call) :
  calls_ok NewManager cs -> watermark (run NewManager cs).
Proof. apply watermark_run, watermark_NewManager. Qed.

(** ** The ids [AddTask] assigns *)

Lemma exec_nextID (m : Manager) (c : call) :
  is_load c = false ->
  GoInt.min_int <= nextID m < GoInt.max_int ->
  (assigned m c = [] /\ nextID m <= nextID (exec m c) <= nextID m + 1)
  \/ (assigned m c = [nextID m] /\ nextID (exec m c) = nextID m + 1).
Proof.
  intros Hc Hn. destruct c as [d|e title priority dueDate|e id|e id];
    cbn [is_load exec assigned] in *; [discriminate| | |].
  - destruct (AddTask_state e m title priority dueDate)
      as [[-> (err & -> & _)]|(task & Hid & -> & Hok & _)].
    + left. split; [reflexivity|lia].
    + cbn [nextID]. rewrite succ_no_overflow by lia.
      destruct (fst (AddTask e m title priority dueDate)) as [t|err].
      * right. rewrite (Hok t eq_refl), Hid. split; reflexivity.
      * left. split; [reflexivity|lia].
  - left. split; [reflexivity|].
    destruct (CompleteTask_state e m id) as [->|(i & task & _ & _ & _ & ->)];
      cbn [nextID]; lia.
  - left. split; [reflexivity|].
    destruct (DeleteTask_state e m id) as [->|(i & task & _ & _ & ->)];
      cbn [nextID]; lia.
Qed.

Lemma run_app (m : Manager) (cs1 cs2 : list call) :
  run m (cs1 ++ cs2) = run (run m cs1) cs2.
Proof. apply fold_left_app. Qed.

Lemma run_nextID (cs : list call) :
  forall m : Manager,
    Forall (fun c => is_load c = false) cs ->
    GoInt.min_int <= nextID m ->
    nextID m + Z.of_nat (length cs) <= GoInt.max_int ->
    nextID m <= nextID (run m cs) <= nextID m + Z.of_nat (length cs)
    /\ StronglySorted Z.lt (assigned_ids m cs)
    /\ Forall (fun id => nextID m <= id < nextID (run m cs)) (assigned_ids m cs).
Proof.
  induction cs as [|c cs IH]; intros m Hcs Hmin Hmax.
  - cbn. split; [lia|]. split; constructor.
  - inversion Hcs as [|? ? Hc Hcs']; subst. rewrite length_cons in Hmax |- *.
    cbn [run fold_left assigned_ids]. fold (run (exec m c) cs).
    destruct (IH (exec m c) Hcs') as (Hrange & Hsorted & Hall).
    1,2: destruct (exec_nextID m c Hc ltac:(lia)) as [[_ ?]|[_ ?]]; lia.
    destruct (exec_nextID m c Hc ltac:(lia)) as [[-> Hstep]|[-> Hstep]]; cbn [app].
    + split; [lia|]. split; [exact Hsorted|].
      eapply Forall_impl; [exact Hall|]. cbn. intros. lia.
    + split; [lia|]. split.
      * constructor; [exact Hsorted|].
        eapply Forall_impl; [exact Hall|]. cbn. intros. lia.
      * constructor; [lia|]. eapply Forall_impl; [exact Hall|]. cbn. intros. lia.
Qed.

(** C6 fails as stated at the end of the [int] range: when the next id is
    the largest [int] (a document can store it), [AddTask] succeeds with that
    id and the next id wraps around to the smallest [int], so it has not
    advanced by 1 and the id of the following [AddTask] is smaller. *)
Lemma assigned_ids_counterexample :
  let m := snd (LoadTasks (disk_with full_document) NewManager) in
  let add := CallAddTask (env_at 100) "water plants" "" None in
  ~ (StronglySorted Z.lt (assigned_ids m [add; add])
     /\ nextID (exec m add) = nextID m + 1).
Proof. vm_compute. intros [_ H]. discriminate H. Qed.

(** C6, amended: along every sequence of [AddTask], [CompleteTask] and
    [DeleteTask] calls during which the next id stays within the [int] range,
    the ids of the tasks [AddTask] returns are strictly increasing (so none
    repeats) and lie between the next id before and after; an [AddTask] that
    returns a task gives it the next id and advances the next id by exactly
    1, and a [DeleteTask] leaves the next id as it is, so no id is handed out
    again. *)
Theorem assigned_ids_increasing (m : Manager) (cs : list call) :
  Forall (fun c => is_load c = false) cs ->
  GoInt.min_int <= nextID m ->
  nextID m + Z.of_nat (length cs) <= GoInt.max_int ->
  StronglySorted Z.lt (assigned_ids m cs)
  /\ Forall (fun id => nextID m <= id < nextID (run m cs)) (assigned_ids m cs)
  /\ forall (cs1 : list call) (c : call) (cs2 : list call), cs = (cs1 ++ c :: cs2)%list ->
       match c with
       | CallAddTask e title priority dueDate =>
           forall task,
             fst (AddTask e (run m cs1) title priority dueDate) = inl task ->
             Task.ID task = nextID (run m cs1)
             /\ nextID (run m (cs1 ++ [c])%list) = nextID (run m cs1) + 1
       | CallDeleteTask e id => nextID (run m (cs1 ++ [c])%list) = nextID (run m cs1)
       | _ => True
       end.
Proof.
  intros Hcs Hmin Hmax.
  destruct (run_nextID cs m Hcs Hmin Hmax) as (_ & Hsorted & Hall).
  split; [exact Hsorted|]. split; [exact Hall|].
  intros cs1 c cs2 ->. apply Forall_app in Hcs as [Hcs1 Hcs2].
  inversion Hcs2 as [|? ? Hc _]; subst.
  rewrite length_app, length_cons in Hmax.
  destruct (run_nextID cs1 m Hcs1 Hmin ltac:(lia)) as (Hrange & _ & _).
  rewrite run_app. cbn [run fold_left]. fold (run m cs1).
  set (m1 := run m cs1) in *.
  destruct c as [d|e title priority dueDate|e id|e id]; [exact I| |exact I|].
  - intros task Htask. cbn [exec].
    destruct (AddTask_state e m1 title priority dueDate)
      as [[_ (err & Herr & _)]|(task' & Hid & -> & Hok & _)]; [congruence|].
    rewrite (Hok task Htask). cbn [nextID]. rewrite succ_no_overflow by lia.
    split; [exact Hid|reflexivity].
  - cbn [exec].
    destruct (DeleteTask_state e m1 id) as [->|(i & task & _ & _ & ->)]; reflexivity.
Qed.

(** Scenario E: with tasks 1, 2 and 3, deleting task 2 and adding a task
    gives the new task id 4. *)
Example delete_then_add :
  let add p := CallAddTask (env_at 100) "task" p None in
  let m := run NewManager [add "low"; add "high"; add "medium";
                           CallDeleteTask (env_at 200) 2] in
  map Task.ID (tasks m) = [1; 3]
  /\ assigned m (add "") = [4]
  /\ map Task.ID (tasks (exec m (add ""))) = [1; 3; 4].
Proof. vm_compute. repeat split. Qed.

(** ** [sort.Slice] sorts

    Every function of the sort is followed through its loops: each changes
    the slice by swaps within its range only, and leaves the range in the
    state its caller relies on. *)

Import GoSort.

Section SortProofs.

Local Open Scope nat_scope.

Context {A : Type} `{!Inhabited A}.
Variable less : A -> A -> bool.

Local Abbreviation leq := (SortSpec.leq less).
Local Abbreviation seg_perm := (@SortSpec.seg_perm A _).
Local Abbreviation sorted_seg := (SortSpec.sorted_seg less).
Local Abbreviation below := (SortSpec.below less).
Local Abbreviation ins_inv := (SortSpec.ins_inv less).
Local Abbreviation heap_at := (SortSpec.heap_at less).
Local Abbreviation sift_inv := (SortSpec.sift_inv less).
Local Abbreviation part_inv := (SortSpec.part_inv less).
Local Abbreviation parteq_inv := (SortSpec.parteq_inv less).
Local Abbreviation pivot_at := (SortSpec.pivot_at less).

Hypothesis less_irrefl : forall x, less x x = false.
Hypothesis less_trans : forall x y z, less x y = true -> less y z = true -> less x z = true.
Hypothesis less_negtrans :
  forall x y z, less x y = false -> less y z = false -> less x z = false.

Lemma leq_refl x : leq x x.
Proof. apply less_irrefl. Qed.

Lemma leq_trans x y z : leq x y -> leq y z -> leq x z.
Proof. unfold SortSpec.leq. intros Hxy Hyz. exact (less_negtrans z y x Hyz Hxy). Qed.

Lemma less_leq x y : less x y = true -> leq x y.
Proof.
  unfold SortSpec.leq. intros Hxy. destruct (less y x) eqn:Hyx; [|reflexivity].
  rewrite <- (less_irrefl x). symmetry. exact (less_trans x y x Hxy Hyx).
Qed.

Lemma leq_total x y : leq x y \/ leq y x.
Proof.
  destruct (less x y) eqn:Hxy; [left; apply less_leq, Hxy|right; exact Hxy].
Qed.

Lemma less_leq_trans x y z : less x y = true -> leq y z -> less x z = true.
Proof.
  unfold SortSpec.leq. intros Hxy Hyz. destruct (less x z) eqn:Hxz; [reflexivity|].
  rewrite (less_negtrans x z y Hxz Hyz) in Hxy. discriminate.
Qed.

Lemma leq_less_trans x y z : leq x y -> less y z = true -> less x z = true.
Proof.
  unfold SortSpec.leq. intros Hxy Hyz. destruct (less x z) eqn:Hxz; [reflexivity|].
  rewrite (less_negtrans y x z Hxy Hxz) in Hyz. discriminate.
Qed.

(** ** Swaps *)

Lemma Swap_length (l : list A) i j : length (data_Swap l i j) = length l.
Proof. unfold data_Swap. rewrite !length_insert. reflexivity. Qed.

Lemma Swap_lookup (l : list A) i j k :
  i < length l -> j < length l ->
  data_Swap l i j !!! k =
    if decide (k = j) then l !!! i else if decide (k = i) then l !!! j else l !!! k.
Proof.
  intros Hi Hj. unfold data_Swap.
  destruct (decide (k = j)) as [->|Hkj].
  - rewrite list_lookup_total_insert_eq by (rewrite length_insert; lia). reflexivity.
  - rewrite list_lookup_total_insert_ne by done.
    destruct (decide (k = i)) as [->|Hki].
    + rewrite list_lookup_total_insert_eq by lia. reflexivity.
    + rewrite list_lookup_total_insert_ne by done. reflexivity.
Qed.

Lemma Swap_Permutation (l : list A) i j :
  i < length l -> j < length l -> data_Swap l i j ≡ₚ l.
Proof.
  intros Hi Hj. unfold data_Swap.
  apply Permutation_insert_swap; rewrite list_lookup_lookup_total_lt by lia; reflexivity.
Qed.

Lemma Swap_same (l : list A) i : data_Swap l i i = l.
Proof.
  unfold data_Swap. rewrite list_insert_insert_eq.
  destruct (decide (i < length l)).
  - apply list_insert_id. rewrite list_lookup_lookup_total_lt by lia. reflexivity.
  - apply list_insert_ge. lia.
Qed.

Lemma seg_perm_length a b l l' : seg_perm a b l l' -> length l' = length l.
Proof. induction 1; [reflexivity|]. rewrite Swap_length. assumption. Qed.

Lemma seg_perm_trans a b l1 l2 l3 :
  seg_perm a b l1 l2 -> seg_perm a b l2 l3 -> seg_perm a b l1 l3.
Proof. intros H12 H23. induction H23; [assumption|]. constructor; assumption. Qed.

Lemma seg_perm_mono a b a' b' l l' :
  a' <= a -> b <= b' -> seg_perm a b l l' -> seg_perm a' b' l l'.
Proof. intros Ha Hb H. induction H; constructor; try assumption; lia. Qed.

Lemma seg_perm_swap1 a b l i j :
  a <= i < b -> a <= j < b -> seg_perm a b l (data_Swap l i j).
Proof. intros. constructor; [constructor|assumption..]. Qed.

Lemma seg_perm_outside a b l l' k :
  seg_perm a b l l' -> b <= length l -> k < a \/ b <= k -> l' !!! k = l !!! k.
Proof.
  intros H Hb Hk. induction H as [|l' i j H IH Hi Hj]; [reflexivity|].
  pose proof (seg_perm_length _ _ _ _ H) as Hlen.
  rewrite Swap_lookup by lia. rewrite !decide_False by lia. exact IH.
Qed.

Lemma seg_perm_Permutation a b l l' : seg_perm a b l l' -> b <= length l -> l' ≡ₚ l.
Proof.
  intros H Hb. induction H as [|l' i j H IH Hi Hj]; [reflexivity|].
  pose proof (seg_perm_length _ _ _ _ H) as Hlen.
  rewrite Swap_Permutation by lia. exact IH.
Qed.

(** A property of all the elements of the segment survives. *)
Lemma seg_perm_all a b l l' (P : A -> Prop) :
  seg_perm a b l l' -> b <= length l ->
  (forall k, a <= k < b -> P (l !!! k)) -> forall k, a <= k < b -> P (l' !!! k).
Proof.
  intros H Hb HP. induction H as [|l' i j H IH Hi Hj]; [exact HP|].
  pose proof (seg_perm_length _ _ _ _ H) as Hlen.
  intros k Hk. rewrite Swap_lookup by lia. repeat case_decide; apply IH; lia.
Qed.

Lemma below_seg_perm a b l l' :
  seg_perm a b l l' -> b <= length l -> below a b l -> below a b l'.
Proof.
  intros H Hb Hbelow p k Hp Hk.
  rewrite (seg_perm_outside a b l l' p H Hb) by lia.
  revert k Hk. apply (seg_perm_all a b l l' (fun y => leq (l !!! p) y) H Hb).
  intros k Hk. apply Hbelow; lia.
Qed.


(** ** Insertion sort *)

Lemma insertion_inner_spec (a i : nat) :
  forall (j : nat) (l : list A),
    a <= j -> j <= i -> i < length l -> ins_inv a j i l ->
    seg_perm a (S i) l (insertion_inner less a j l)
    /\ sorted_seg a (S i) (insertion_inner less a j l).
Proof.
  induction j as [|j' IH]; intros l Haj Hji Hil [Hrest Hj]; cbn [insertion_inner].
  - split; [constructor|]. intros p q Hp Hpq Hq.
    destruct (decide (p = 0)) as [->|Hp0].
    + destruct (decide (q = 0)) as [->|Hq0]; [apply leq_refl|apply Hj; lia].
    + apply Hrest; lia.
  - destruct ((a <? S j') && data_Less less l (S j') j') eqn:Hcond.
    + apply andb_true_iff in Hcond as [Ha%Nat.ltb_lt Hless]. unfold data_Less in Hless.
      destruct (IH (data_Swap l (S j') j')) as [Hperm Hsorted].
      * lia.
      * lia.
      * rewrite Swap_length. lia.
      * split.
        -- intros p q Hp Hpq Hq Hpj Hqj. rewrite !Swap_lookup by lia.
           repeat case_decide; subst; try lia; try apply leq_refl; apply Hrest; lia.
        -- intros q Hjq Hq. rewrite !Swap_lookup by lia.
           repeat case_decide; subst; try lia.
           ++ apply less_leq, Hless.
           ++ apply Hj; lia.
      * split; [|exact Hsorted].
        eapply seg_perm_trans; [|exact Hperm]. apply seg_perm_swap1; lia.
    + split; [constructor|]. intros p q Hp Hpq Hq.
      destruct (decide (p = S j')) as [->|Hpj].
      { destruct (decide (q = S j')) as [->|Hqj]; [apply leq_refl|apply Hj; lia]. }
      destruct (decide (q = S j')) as [->|Hqj]; [|apply Hrest; lia].
      apply andb_false_iff in Hcond as [Ha%Nat.ltb_ge|Hless]; [lia|].
      apply leq_trans with (l !!! j'); [apply Hrest; lia|exact Hless].
Qed.

Lemma insertion_outer_spec (a : nat) :
  forall (n i : nat) (l : list A),
    a < i -> i + n <= length l -> sorted_seg a i l ->
    seg_perm a (i + n) l (insertion_outer less n a i l)
    /\ sorted_seg a (i + n) (insertion_outer less n a i l).
Proof.
  induction n as [|n IH]; intros i l Hai Hlen Hsorted; cbn [insertion_outer].
  - rewrite Nat.add_0_r. split; [constructor|exact Hsorted].
  - destruct (insertion_inner_spec a i i l) as [Hperm1 Hsorted1]; try lia.
    { split; [|intros; lia]. intros p q Hp Hpq Hq Hpi Hqi. apply Hsorted; lia. }
    destruct (IH (S i) (insertion_inner less a i l)) as [Hperm2 Hsorted2].
    + lia.
    + rewrite (seg_perm_length _ _ _ _ Hperm1). lia.
    + exact Hsorted1.
    + replace (i + S n) with (S i + n) by lia. split; [|exact Hsorted2].
      eapply seg_perm_trans; [|exact Hperm2].
      eapply seg_perm_mono; [| |exact Hperm1]; lia.
Qed.

Lemma insertionSort_spec (l : list A) (a b : nat) :
  a <= b -> b <= length l ->
  seg_perm a b l (insertionSort_func less l a b)
  /\ sorted_seg a b (insertionSort_func less l a b).
Proof.
  intros Hab Hb. unfold insertionSort_func.
  destruct (decide (b <= a + 1)) as [Hsmall|Hbig].
  - replace (b - (a + 1)) with 0 by lia. cbn [insertion_outer].
    split; [constructor|]. intros i j Hi Hij Hj.
    replace j with i by lia. apply leq_refl.
  - destruct (insertion_outer_spec a (b - (a + 1)) (a + 1) l) as [Hperm Hsorted].
    + lia.
    + lia.
    + intros i j Hi Hij Hj. replace j with i by lia. apply leq_refl.
    + replace (a + 1 + (b - (a + 1))) with b in * by lia. split; assumption.
Qed.


(** ** Heap sort *)

Lemma siftDown_loop_spec (first lo hi : nat) :
  forall (fuel root : nat) (l : list A),
    first + hi <= length l -> lo <= root -> hi - root <= fuel ->
    sift_inv first lo hi root l ->
    seg_perm (first + lo) (first + hi) l (siftDown_loop less fuel l root hi first)
    /\ (forall k, lo <= k -> k < hi ->
          heap_at first hi (siftDown_loop less fuel l root hi first) k).
Proof.
  induction fuel as [|fuel IH]; intros root l Hlen Hlo Hfuel [Hheap Hparent];
    cbn [siftDown_loop].
  - split; [constructor|]. intros k Hk1 Hk2. apply Hheap; lia.
  - destruct (Nat.leb_spec hi (2 * root + 1)) as [Hleaf|Hchild].
    { split; [constructor|]. intros k Hk1 Hk2.
      destruct (decide (k = root)) as [->|Hne]; [|apply Hheap; lia].
      intros c Hc Hchi. lia. }
    set (child := if (2 * root + 1 + 1 <? hi)
                       && data_Less less l (first + (2 * root + 1)) (first + (2 * root + 1) + 1)
                  then 2 * root + 1 + 1 else 2 * root + 1).
    assert (Hchild_is : child = 2 * root + 1 \/ child = 2 * root + 2).
    { subst child. destruct (_ && _); lia. }
    assert (Hchild_lt : child < hi).
    { subst child. destruct (Nat.ltb_spec (2 * root + 1 + 1) hi); cbn [andb];
        [destruct (data_Less _ _ _ _)|]; lia. }
    assert (Hmax : forall c, c = 2 * root + 1 \/ c = 2 * root + 2 -> c < hi ->
                     leq (l !!! (first + c)) (l !!! (first + child))).
    { intros c Hc Hchi. subst child.
      destruct (Nat.ltb_spec (2 * root + 1 + 1) hi) as [Hlt|Hge]; cbn [andb].
      - destruct (data_Less less l _ _) eqn:Hless; unfold data_Less in Hless.
        + destruct Hc as [->| ->].
          * apply less_leq. replace (first + (2 * root + 1 + 1))
              with (first + (2 * root + 1) + 1) by lia. exact Hless.
          * replace (2 * root + 2) with (2 * root + 1 + 1) by lia. apply leq_refl.
        + destruct Hc as [->| ->]; [apply leq_refl|].
          unfold SortSpec.leq. replace (first + (2 * root + 2))
            with (first + (2 * root + 1) + 1) by lia. exact Hless.
      - destruct Hc as [->| ->]; [apply leq_refl|lia]. }
    clearbody child.
    destruct (data_Less less l (first + root) (first + child)) eqn:Hless;
      unfold data_Less in Hless; cbn [negb].
    + destruct (IH child (data_Swap l (first + root) (first + child))) as [Hperm Hres].
      * rewrite Swap_length. lia.
      * lia.
      * lia.
      * split.
        -- intros k Hk1 Hk2 Hkc c Hc Hchi. rewrite !Swap_lookup by lia.
           destruct (decide (k = root)) as [->|Hkr].
           ++ rewrite (decide_False (P := first + root = first + child)) by lia.
              rewrite (decide_True (P := first + root = first + root)) by lia.
              destruct (decide (c = child)) as [->|Hcc].
              ** rewrite decide_True by lia. apply less_leq, Hless.
              ** rewrite !decide_False by lia. apply Hmax; assumption.
           ++ rewrite (decide_False (P := first + k = first + child)) by lia.
              rewrite (decide_False (P := first + k = first + root)) by lia.
              rewrite (decide_False (P := first + c = first + child)) by lia.
              destruct (decide (c = root)) as [->|Hcr].
              ** rewrite decide_True by lia. apply (Hparent k child); lia.
              ** rewrite decide_False by lia. apply Hheap; lia.
        -- intros p c Hp Hpc Hc Hchi. assert (p = root) as -> by lia.
           rewrite !Swap_lookup by lia.
           rewrite (decide_False (P := first + c = first + child)) by lia.
           rewrite (decide_False (P := first + c = first + root)) by lia.
           rewrite (decide_False (P := first + root = first + child)) by lia.
           rewrite decide_True by lia. apply Hheap; lia.
      * split; [|exact Hres].
        eapply seg_perm_trans; [|exact Hperm]. apply seg_perm_swap1; lia.
    + split; [constructor|]. intros k Hk1 Hk2.
      destruct (decide (k = root)) as [->|Hne]; [|apply Hheap; lia].
      intros c Hc Hchi. apply leq_trans with (l !!! (first + child)); [|exact Hless].
      apply Hmax; assumption.
Qed.

Lemma siftDown_spec (first lo hi : nat) (l : list A) :
  first + hi <= length l ->
  (forall k, lo < k -> k < hi -> heap_at first hi l k) ->
  seg_perm (first + lo) (first + hi) l (siftDown_func less l lo hi first)
  /\ (forall k, lo <= k -> k < hi -> heap_at first hi (siftDown_func less l lo hi first) k).
Proof.
  intros Hlen Hheap. unfold siftDown_func. apply siftDown_loop_spec; try lia.
  split; [intros; apply Hheap; lia|]. intros p c Hp Hroot. lia.
Qed.

Lemma heap_build_spec (first hi : nat) :
  forall (i : nat) (l : list A),
    first + hi <= length l ->
    (forall k, i < k -> k < hi -> heap_at first hi l k) ->
    seg_perm first (first + hi) l (heap_build less i l hi first)
    /\ (forall k, k < hi -> heap_at first hi (heap_build less i l hi first) k).
Proof.
  induction i as [|i IH]; intros l Hlen Hheap; cbn [heap_build];
    destruct (siftDown_spec first _ hi l Hlen Hheap) as [Hperm Hres].
  - split; [eapply seg_perm_mono; [| |exact Hperm]; lia|].
    intros k Hk. apply Hres; lia.
  - destruct (IH (siftDown_func less l (S i) hi first)) as [Hperm' Hres'].
    + rewrite (seg_perm_length _ _ _ _ Hperm). exact Hlen.
    + intros k Hk1 Hk2. apply Hres; lia.
    + split; [|exact Hres'].
      eapply seg_perm_trans; [|exact Hperm'].
      eapply seg_perm_mono; [| |exact Hperm]; lia.
Qed.

(** The root of a heap is its largest element. *)
Lemma heap_root_max (first hi : nat) (l : list A) :
  (forall k, k < hi -> heap_at first hi l k) ->
  forall k, k < hi -> leq (l !!! (first + k)) (l !!! (first + 0)).
Proof.
  intros Hheap k. induction k as [k IH] using lt_wf_ind. intros Hk.
  destruct (decide (k = 0)) as [->|Hk0]; [apply leq_refl|].
  apply leq_trans with (l !!! (first + (k - 1) / 2)).
  - apply (Hheap ((k - 1) / 2)); [| |exact Hk].
    + pose proof (Nat.div_mod_eq (k - 1) 2). lia.
    + pose proof (Nat.div_mod_eq (k - 1) 2).
      pose proof (Nat.mod_upper_bound (k - 1) 2). lia.
  - pose proof (Nat.div_mod_eq (k - 1) 2). apply IH; lia.
Qed.

Lemma heap_pop_spec (first hi : nat) :
  forall (n : nat) (l : list A),
    n <= hi -> first + hi <= length l ->
    (forall k, k < n -> heap_at first n l k) ->
    sorted_seg (first + n) (first + hi) l ->
    (forall k q, k < n -> n <= q -> q < hi -> leq (l !!! (first + k)) (l !!! (first + q))) ->
    seg_perm first (first + hi) l (heap_pop less n l first)
    /\ sorted_seg first (first + hi) (heap_pop less n l first).
Proof.
  induction n as [|i IH]; intros l Hn Hlen Hheap Hsorted Hcross; cbn [heap_pop].
  - rewrite Nat.add_0_r in Hsorted. split; [constructor|exact Hsorted].
  - pose proof (heap_root_max first (S i) l Hheap) as Hroot.
    set (l1 := data_Swap l first (first + i)).
    assert (Hlen1 : length l1 = length l) by apply Swap_length.
    assert (Hl1 : forall k, l1 !!! (first + k) =
                    if decide (k = i) then l !!! first
                    else if decide (k = 0) then l !!! (first + i)
                    else l !!! (first + k)).
    { intros k. subst l1. rewrite Swap_lookup by lia.
      destruct (decide (k = i)) as [->|Hki].
      - rewrite decide_True by lia. reflexivity.
      - rewrite (decide_False (P := first + k = first + i)) by lia.
        destruct (decide (k = 0)) as [->|Hk0].
        + rewrite decide_True by lia. reflexivity.
        + rewrite decide_False by lia. reflexivity. }
    destruct (siftDown_spec first 0 i l1) as [Hperm2 Hheap2].
    { lia. }
    { intros k Hk1 Hk2 c Hc Hci. rewrite !Hl1. rewrite !decide_False by lia.
      apply (Hheap k); lia. }
    rewrite Nat.add_0_r in Hperm2.
    set (l2 := siftDown_func less l1 0 i first) in *.
    assert (Hlen2 : length l2 = length l1) by exact (seg_perm_length _ _ _ _ Hperm2).
    assert (Hout : forall k, i <= k -> l2 !!! (first + k) = l1 !!! (first + k)).
    { intros k Hk. apply (seg_perm_outside first (first + i) l1 l2); [exact Hperm2|lia|lia]. }
    assert (Hbelow : forall y, (forall k, k < S i -> leq (l !!! (first + k)) y) ->
                       forall k, k < i -> leq (l2 !!! (first + k)) y).
    { intros y Hy k Hk.
      pose proof (seg_perm_all first (first + i) l1 l2 (fun x => leq x y) Hperm2
                    ltac:(lia)) as Hall.
      cbn beta in Hall. apply Hall; [|lia]. intros k' Hk'.
      replace k' with (first + (k' - first)) by lia. rewrite Hl1.
      repeat case_decide; try lia; apply Hy; lia. }
    destruct (IH l2) as [Hperm3 Hsorted3].
    + lia.
    + lia.
    + intros k Hk. apply Hheap2; lia.
    + intros p q Hp Hpq Hq.
      replace p with (first + (p - first)) by lia.
      replace q with (first + (q - first)) by lia.
      rewrite !Hout by lia. rewrite !Hl1.
      destruct (decide (p - first = i)) as [Hpi|Hpi].
      * destruct (decide (q - first = i)) as [Hqi|Hqi]; [apply leq_refl|].
        rewrite decide_False by lia. rewrite <- (Nat.add_0_r first) at 1.
        apply Hcross; lia.
      * rewrite !decide_False by lia.
        replace (first + (p - first)) with p by lia.
        replace (first + (q - first)) with q by lia.
        apply Hsorted; lia.
    + intros k q Hk Hq1 Hq2. rewrite (Hout q) by lia. rewrite Hl1.
      destruct (decide (q = i)) as [->|Hqi].
      * apply Hbelow; [|exact Hk]. intros k' Hk'.
        rewrite <- (Nat.add_0_r first) at 2. apply Hroot. exact Hk'.
      * rewrite decide_False by lia. apply Hbelow; [|exact Hk].
        intros k' Hk'. apply Hcross; lia.
    + split; [|exact Hsorted3].
      eapply seg_perm_trans; [|exact Hperm3].
      eapply seg_perm_trans.
      * apply (seg_perm_swap1 first (first + hi) l first (first + i)); lia.
      * eapply seg_perm_mono; [| |exact Hperm2]; lia.
Qed.

Lemma heapSort_spec (l : list A) (a b : nat) :
  a <= b -> b <= length l ->
  seg_perm a b l (heapSort_func less l a b)
  /\ sorted_seg a b (heapSort_func less l a b).
Proof.
  intros Hab Hb. unfold heapSort_func.
  destruct (heap_build_spec a (b - a) ((b - a - 1) / 2) l) as [Hperm1 Hheap1].
  { lia. }
  { intros k Hk1 Hk2 c Hc Hchi.
    pose proof (Nat.div_mod_eq (b - a - 1) 2).
    pose proof (Nat.mod_upper_bound (b - a - 1) 2). lia. }
  set (l1 := heap_build less ((b - a - 1) / 2) l (b - a) a) in *.
  destruct (heap_pop_spec a (b - a) (b - a) l1) as [Hperm2 Hsorted2].
  - lia.
  - rewrite (seg_perm_length _ _ _ _ Hperm1). lia.
  - exact Hheap1.
  - intros p q Hp Hpq Hq. lia.
  - intros k q Hk Hq1 Hq2. lia.
  - replace (a + (b - a)) with b in * by lia. split; [|exact Hsorted2].
    eapply seg_perm_trans; [exact Hperm1|exact Hperm2].
Qed.


(** ** Partitioning *)

Lemma scan_up_spec (p : nat -> bool) (j : nat) :
  forall (fuel i : nat),
    i <= S j -> S j - i <= fuel ->
    i <= scan_up fuel p i j <= S j
    /\ (forall k, i <= k < scan_up fuel p i j -> p k = true)
    /\ (scan_up fuel p i j <= j -> p (scan_up fuel p i j) = false).
Proof.
  induction fuel as [|fuel IH]; intros i Hi Hfuel; cbn [scan_up].
  - split; [lia|]. split; intros; lia.
  - destruct (Nat.leb_spec i j) as [Hij|Hij]; cbn [andb].
    + destruct (p i) eqn:Hp.
      * destruct (IH (S i)) as (Hr & Hall & Hstop); try lia.
        split; [lia|]. split; [|exact Hstop].
        intros k Hk. destruct (decide (k = i)) as [->|]; [exact Hp|apply Hall; lia].
      * split; [lia|]. split; [intros; lia|]. intros _. exact Hp.
    + split; [lia|]. split; intros; lia.
Qed.

Lemma scan_down_spec (p : nat -> bool) (i : nat) :
  forall (fuel j : nat),
    1 <= i -> i <= S j -> S j - i <= fuel ->
    scan_down fuel p i j <= j /\ i <= S (scan_down fuel p i j)
    /\ (forall k, scan_down fuel p i j < k <= j -> p k = true)
    /\ (i <= scan_down fuel p i j -> p (scan_down fuel p i j) = false).
Proof.
  induction fuel as [|fuel IH]; intros j Hi Hij Hfuel; cbn [scan_down].
  - split; [lia|]. split; [lia|]. split; intros; lia.
  - destruct (Nat.leb_spec i j) as [Hle|Hgt]; cbn [andb].
    + destruct (p j) eqn:Hp.
      * destruct (IH (j - 1)) as (Hr1 & Hr2 & Hall & Hstop); try lia.
        split; [lia|]. split; [lia|]. split; [|exact Hstop].
        intros k Hk. destruct (decide (k = j)) as [->|]; [exact Hp|apply Hall; lia].
      * split; [lia|]. split; [lia|]. split; [intros; lia|]. intros _. exact Hp.
    + split; [lia|]. split; [lia|]. split; intros; lia.
Qed.

(** One turn: the two scans, and the swap if they have not met. *)
Lemma partition_turn (a b i j : nat) (pv : A) (l : list A) :
  a < i -> i <= S j -> j < b -> b <= length l -> part_inv a b i j pv l ->
  let i1 := scan_up (S j - i) (fun i => data_Less less l i a) i j in
  let j1 := scan_down (S j - i1) (fun j => negb (data_Less less l j a)) i1 j in
  i <= i1 /\ j1 <= j /\ i1 <= S j1
  /\ part_inv a b i1 j1 pv l
  /\ (i1 <= j1 -> i1 < j1 /\ part_inv a b (i1 + 1) (j1 - 1) pv (data_Swap l i1 j1)).
Proof.
  intros Hai Hij Hjb Hb (Hpv & Hlo & Hhi). cbn zeta.
  destruct (scan_up_spec (fun i => data_Less less l i a) j (S j - i) i)
    as (Hi1 & Hall1 & Hstop1); try lia.
  set (i1 := scan_up (S j - i) (fun i => data_Less less l i a) i j) in *.
  destruct (scan_down_spec (fun j => negb (data_Less less l j a)) i1 (S j - i1) j)
    as (Hj1 & Hj1' & Hall2 & Hstop2); try lia.
  set (j1 := scan_down (S j - i1) (fun j => negb (data_Less less l j a)) i1 j) in *.
  unfold data_Less in *. rewrite Hpv in *.
  assert (Hinv1 : part_inv a b i1 j1 pv l).
  { split; [exact Hpv|]. split.
    - intros k Hk. destruct (decide (k < i)); [apply Hlo; lia|apply Hall1; lia].
    - intros k Hk. destruct (decide (j < k)); [apply Hhi; lia|].
      specialize (Hall2 k ltac:(lia)). apply negb_true_iff in Hall2. exact Hall2. }
  split; [lia|]. split; [lia|]. split; [lia|]. split; [exact Hinv1|].
  intros Hmeet. specialize (Hstop1 ltac:(lia)). specialize (Hstop2 Hmeet).
  apply negb_false_iff in Hstop2.
  assert (Hne : i1 <> j1) by (intros Heq; rewrite Heq in Hstop1; congruence).
  split; [lia|]. destruct Hinv1 as (_ & Hlo1 & Hhi1).
  split; [|split].
  - rewrite Swap_lookup by lia. rewrite !decide_False by lia. exact Hpv.
  - intros k Hk. rewrite Swap_lookup by lia.
    destruct (decide (k = j1)); [lia|].
    destruct (decide (k = i1)); [exact Hstop2|apply Hlo1; lia].
  - intros k Hk. rewrite Swap_lookup by lia.
    destruct (decide (k = j1)); [exact Hstop1|].
    destruct (decide (k = i1)); [lia|apply Hhi1; lia].
Qed.

Lemma partition_loop_spec (a b : nat) (pv : A) :
  forall (fuel : nat) (l : list A) (i j : nat),
    a < i -> i <= S j -> j < b -> b <= length l -> S j - i < fuel ->
    part_inv a b i j pv l ->
    let '(l', j') := partition_loop less fuel l a i j in
    seg_perm (a + 1) b l l' /\ a <= j' < b
    /\ part_inv a b (S j') j' pv l'.
Proof.
  induction fuel as [|fuel IH]; intros l i j Hai Hij Hjb Hb Hfuel Hinv; [lia|].
  cbn [partition_loop].
  destruct (partition_turn a b i j pv l Hai Hij Hjb Hb Hinv)
    as (Hi1 & Hj1 & Hij1 & Hinv1 & Hswap).
  set (i1 := scan_up (S j - i) (fun i => data_Less less l i a) i j) in *.
  set (j1 := scan_down (S j - i1) (fun j => negb (data_Less less l j a)) i1 j) in *.
  destruct (Nat.ltb_spec j1 i1) as [Hlt|Hge].
  - split; [constructor|]. split; [lia|].
    replace (S j1) with i1 by lia. exact Hinv1.
  - destruct (Hswap Hge) as [Hlt Hinv2].
    specialize (IH (data_Swap l i1 j1) (i1 + 1) (j1 - 1)).
    destruct (partition_loop less fuel (data_Swap l i1 j1) a (i1 + 1) (j1 - 1))
      as [l' j'].
    destruct IH as (Hperm & Hj' & Hinv'); try lia; try assumption.
    { rewrite Swap_length. lia. }
    split; [|split; assumption].
    eapply seg_perm_trans; [|exact Hperm]. apply seg_perm_swap1; lia.
Qed.

(** After the final [data.Swap(j, a)]. *)
Lemma partition_finish (a b j : nat) (pv : A) (l : list A) :
  a <= j < b -> b <= length l -> part_inv a b (S j) j pv l ->
  data_Swap l j a !!! j = pv
  /\ (forall k, a <= k < j -> less (data_Swap l j a !!! k) pv = true)
  /\ (forall k, j < k < b -> leq pv (data_Swap l j a !!! k)).
Proof.
  intros Hj Hb (Hpv & Hlo & Hhi). split; [|split].
  - rewrite Swap_lookup by lia. destruct (decide (j = a)) as [->|]; [exact Hpv|].
    rewrite decide_True by lia. exact Hpv.
  - intros k Hk. rewrite Swap_lookup by lia.
    destruct (decide (k = a)) as [->|]; [apply Hlo; lia|].
    rewrite decide_False by lia. apply Hlo; lia.
  - intros k Hk. rewrite Swap_lookup by lia. rewrite !decide_False by lia.
    apply Hhi; lia.
Qed.

Lemma partition_spec (l : list A) (a b pivot : nat) :
  a < b -> b <= length l -> a <= pivot < b ->
  let '(l', mid, _) := partition_func less l a b pivot in
  seg_perm a b l l' /\ a <= mid < b
  /\ (forall k, a <= k < mid -> less (l' !!! k) (l' !!! mid) = true)
  /\ (forall k, mid < k < b -> leq (l' !!! mid) (l' !!! k)).
Proof.
  intros Hab Hb Hpivot. unfold partition_func.
  set (l0 := data_Swap l a pivot).
  assert (Hlen0 : length l0 = length l) by apply Swap_length.
  assert (Hperm0 : seg_perm a b l l0) by (apply seg_perm_swap1; lia).
  assert (Hinv0 : part_inv a b (a + 1) (b - 1) (l0 !!! a) l0).
  { split; [reflexivity|]. split; intros; lia. }
  destruct (partition_turn a b (a + 1) (b - 1) (l0 !!! a) l0)
    as (Hi1 & Hj1 & Hij1 & Hinv1 & Hswap); try lia; try assumption.
  set (i1 := scan_up (S (b - 1) - (a + 1)) (fun i => data_Less less l0 i a) (a + 1) (b - 1)) in *.
  set (j1 := scan_down (S (b - 1) - i1) (fun j => negb (data_Less less l0 j a)) i1 (b - 1)) in *.
  destruct (Nat.ltb_spec j1 i1) as [Hlt|Hge].
  - replace i1 with (S j1) in Hinv1 by lia.
    destruct (partition_finish a b j1 (l0 !!! a) l0) as (Hmid & Hlo & Hhi);
      try lia; try assumption.
    split; [|split; [lia|]].
    + eapply seg_perm_trans; [exact Hperm0|]. apply seg_perm_swap1; lia.
    + rewrite Hmid. split; assumption.
  - destruct (Hswap Hge) as [Hlt Hinv2].
    pose proof (partition_loop_spec a b (l0 !!! a) (S j1 - i1) (data_Swap l0 i1 j1)
                  (i1 + 1) (j1 - 1)) as Hloop.
    destruct (partition_loop less (S j1 - i1) (data_Swap l0 i1 j1) a (i1 + 1) (j1 - 1))
      as [l' j'].
    destruct Hloop as (Hperm & Hj' & Hinv'); try lia; try assumption.
    { rewrite Swap_length. lia. }
    assert (Hlen' : length l' = length l).
    { rewrite (seg_perm_length _ _ _ _ Hperm), Swap_length. exact Hlen0. }
    destruct (partition_finish a b j' (l0 !!! a) l') as (Hmid & Hlo & Hhi);
      try lia; try assumption.
    split; [|split; [lia|]].
    + eapply seg_perm_trans; [exact Hperm0|].
      eapply seg_perm_trans; [apply (seg_perm_swap1 a b l0 i1 j1); lia|].
      eapply seg_perm_trans; [eapply seg_perm_mono; [| |exact Hperm]; lia|].
      apply seg_perm_swap1; lia.
    + rewrite Hmid. split; assumption.
Qed.

Lemma partitionEqual_loop_spec (a b : nat) (pv : A) :
  forall (fuel : nat) (l : list A) (i j : nat),
    a < i -> i <= S j -> j < b -> b <= length l -> S j - i < fuel ->
    parteq_inv a b i j pv l ->
    let '(l', i') := partitionEqual_loop less fuel l a i j in
    seg_perm (a + 1) b l l' /\ a < i' <= b
    /\ parteq_inv a b i' (i' - 1) pv l'.
Proof.
  induction fuel as [|fuel IH]; intros l i j Hai Hij Hjb Hb Hfuel (Hpv & Hlo & Hhi); [lia|].
  cbn [partitionEqual_loop].
  destruct (scan_up_spec (fun i => negb (data_Less less l a i)) j (S j - i) i)
    as (Hi1 & Hall1 & Hstop1); try lia.
  set (i1 := scan_up (S j - i) (fun i => negb (data_Less less l a i)) i j) in *.
  destruct (scan_down_spec (fun j => data_Less less l a j) i1 (S j - i1) j)
    as (Hj1 & Hj1' & Hall2 & Hstop2); try lia.
  set (j1 := scan_down (S j - i1) (fun j => data_Less less l a j) i1 j) in *.
  unfold data_Less in *. rewrite Hpv in *.
  assert (Hinv1 : parteq_inv a b i1 j1 pv l).
  { split; [exact Hpv|]. split.
    - intros k Hk. destruct (decide (k < i)); [apply Hlo; lia|].
      specialize (Hall1 k ltac:(lia)). apply negb_true_iff in Hall1. exact Hall1.
    - intros k Hk. destruct (decide (j < k)); [apply Hhi; lia|apply Hall2; lia]. }
  destruct (Nat.ltb_spec j1 i1) as [Hlt|Hge].
  - split; [constructor|]. split; [lia|].
    replace (i1 - 1) with j1 by lia. exact Hinv1.
  - specialize (Hstop1 ltac:(lia)). specialize (Hstop2 Hge).
    apply negb_false_iff in Hstop1.
    assert (Hne : i1 <> j1) by (intros Heq; rewrite Heq in Hstop1; congruence).
    destruct Hinv1 as (_ & Hlo1 & Hhi1).
    specialize (IH (data_Swap l i1 j1) (i1 + 1) (j1 - 1)).
    destruct (partitionEqual_loop less fuel (data_Swap l i1 j1) a (i1 + 1) (j1 - 1))
      as [l' i'].
    destruct IH as (Hperm & Hi' & Hinv'); try lia.
    { rewrite Swap_length. lia. }
    { split; [|split].
      - rewrite Swap_lookup by lia. rewrite !decide_False by lia. exact Hpv.
      - intros k Hk. rewrite Swap_lookup by lia.
        destruct (decide (k = j1)); [lia|].
        destruct (decide (k = i1)); [exact Hstop2|apply Hlo1; lia].
      - intros k Hk. rewrite Swap_lookup by lia.
        destruct (decide (k = j1)); [exact Hstop1|].
        destruct (decide (k = i1)); [lia|apply Hhi1; lia]. }
    split; [|split; assumption].
    eapply seg_perm_trans; [|exact Hperm]. apply seg_perm_swap1; lia.
Qed.

Lemma partitionEqual_spec (l : list A) (a b pivot : nat) :
  a < b -> b <= length l -> a <= pivot < b ->
  let '(l', mid) := partitionEqual_func less l a b pivot in
  seg_perm a b l l' /\ a < mid <= b
  /\ (forall k, a <= k < mid -> leq (l' !!! k) (l !!! pivot))
  /\ (forall k, mid <= k < b -> less (l !!! pivot) (l' !!! k) = true).
Proof.
  intros Hab Hb Hpivot. unfold partitionEqual_func.
  set (l0 := data_Swap l a pivot).
  assert (Hlen0 : length l0 = length l) by apply Swap_length.
  assert (Hpv : l0 !!! a = l !!! pivot).
  { subst l0. rewrite Swap_lookup by lia.
    destruct (decide (a = pivot)) as [->|]; [reflexivity|].
    rewrite decide_True by reflexivity. reflexivity. }
  pose proof (partitionEqual_loop_spec a b (l !!! pivot) (S (b - a)) l0 (a + 1) (b - 1))
    as Hloop.
  destruct (partitionEqual_loop less (S (b - a)) l0 a (a + 1) (b - 1)) as [l' i'].
  destruct Hloop as (Hperm & Hi' & Hpv' & Hlo & Hhi); try lia.
  { split; [exact Hpv|]. split; intros; lia. }
  split; [|split; [lia|split]].
  - eapply seg_perm_trans; [apply (seg_perm_swap1 a b l a pivot); lia|].
    eapply seg_perm_mono; [| |exact Hperm]; lia.
  - intros k Hk. destruct (decide (k = a)) as [->|].
    + rewrite Hpv'. apply leq_refl.
    + apply Hlo. lia.
  - intros k Hk. apply Hhi. lia.
Qed.


(** ** The heuristics: they only swap within the range *)

Lemma reverseRange_loop_perm (a b : nat) :
  forall (fuel : nat) (l : list A) (i j : nat),
    a <= i -> j < b -> seg_perm a b l (reverseRange_loop fuel l i j).
Proof.
  induction fuel as [|fuel IH]; intros l i j Hi Hj; cbn [reverseRange_loop];
    [constructor|].
  destruct (Nat.ltb_spec i j); [|constructor].
  eapply seg_perm_trans; [apply (seg_perm_swap1 a b l i j); lia|]. apply IH; lia.
Qed.

(** The fuel of [reverseRange_func] is enough: more of it changes nothing. *)
Lemma reverseRange_loop_fuel :
  forall (fuel fuel' : nat) (l : list A) (i j : nat),
    j - i <= fuel -> j - i <= fuel' ->
    reverseRange_loop fuel l i j = reverseRange_loop fuel' l i j.
Proof.
  induction fuel as [|fuel IH]; intros [|fuel'] l i j Hfuel Hfuel';
    cbn [reverseRange_loop]; try reflexivity.
  - destruct (Nat.ltb_spec i j); [lia|reflexivity].
  - destruct (Nat.ltb_spec i j); [lia|reflexivity].
  - destruct (Nat.ltb_spec i j); [|reflexivity]. apply IH; lia.
Qed.

Lemma reverseRange_perm (l : list A) (a b : nat) :
  a < b -> seg_perm a b l (reverseRange_func l a b).
Proof. intros. apply reverseRange_loop_perm; lia. Qed.

Lemma bits_Len_bound (n : nat) : 0 < n -> 2 ^ bits_Len n <= 2 * n.
Proof.
  intros Hn. destruct n as [|n]; [lia|]. cbn [bits_Len].
  rewrite Nat.pow_succ_r'. pose proof (Nat.log2_spec (S n) ltac:(lia)). lia.
Qed.

Lemma land_modulus_bound (r : N) (n : nat) :
  0 < n -> N.to_nat (N.land r (nextPowerOfTwo n - 1)) < 2 * n.
Proof.
  intros Hn. unfold nextPowerOfTwo.
  rewrite N.sub_1_r. change (N.pred (N.shiftl 1 ?k)) with (N.ones k).
  rewrite N.land_ones.
  assert (Hlt : (r mod 2 ^ N.of_nat (bits_Len n) < 2 ^ N.of_nat (bits_Len n))%N).
  { apply N.mod_lt. apply N.pow_nonzero. discriminate. }
  assert (Hlt' : N.to_nat (r mod 2 ^ N.of_nat (bits_Len n))
                 < N.to_nat (2 ^ N.of_nat (bits_Len n))) by lia.
  rewrite N2Nat.inj_pow, Nat2N.id in Hlt'.
  change (N.to_nat 2) with 2 in Hlt'. pose proof (bits_Len_bound n Hn). lia.
Qed.

Lemma breakPatterns_loop_perm (a b length idx : nat) (modulus : N) :
  0 < length -> a + length <= b ->
  (forall r, N.to_nat (N.land r (modulus - 1)) < 2 * length) ->
  forall (n : nat) (l : list A) (i : nat) (random : N),
    (forall i', i <= i' < i + n -> a <= idx - 1 + i' < b) ->
    seg_perm a b l (breakPatterns_loop n l a length idx i random modulus).
Proof.
  intros Hlen Hb Hland. induction n as [|n IH]; intros l i random Hidx;
    cbn [breakPatterns_loop]; [constructor|].
  eapply seg_perm_trans; [|apply IH; intros; apply Hidx; lia].
  apply seg_perm_swap1; [apply Hidx; lia|].
  specialize (Hland (xorshift_Next random)).
  destruct (Nat.leb_spec length (N.to_nat (N.land (xorshift_Next random) (modulus - 1))));
    lia.
Qed.

Lemma breakPatterns_perm (l : list A) (a b : nat) :
  a <= b -> seg_perm a b l (breakPatterns_func l a b).
Proof.
  intros Hab. unfold breakPatterns_func.
  destruct (Nat.leb_spec 8 (b - a)) as [Hlen|]; [|constructor].
  apply breakPatterns_loop_perm; try lia.
  - intros r. apply land_modulus_bound. lia.
  - intros i' Hi'. pose proof (Nat.div_mod_eq (b - a) 4).
    pose proof (Nat.mod_upper_bound (b - a) 4). lia.
Qed.

Lemma median_func_range (l : list A) (lo hi a b c swaps : nat) :
  lo <= a < hi -> lo <= b < hi -> lo <= c < hi ->
  lo <= fst (median_func less l a b c swaps) < hi.
Proof.
  intros Ha Hb Hc. unfold median_func, order2_func.
  repeat (destruct (data_Less _ _ _ _); cbn [fst]); lia.
Qed.

Lemma choosePivot_range (l : list A) (a b : nat) :
  8 <= b - a -> a <= fst (choosePivot_func less l a b) < b.
Proof.
  intros Hlen. unfold choosePivot_func.
  pose proof (Nat.div_mod_eq (b - a) 4) as Hdiv.
  pose proof (Nat.mod_upper_bound (b - a) 4 ltac:(lia)) as Hmod.
  set (q := (b - a) / 4) in *.
  destruct (Nat.leb_spec 8 (b - a)) as [_|]; [|lia].
  assert (Hjs : forall js : nat * nat, a <= fst js < b ->
            a <= fst (let '(j, swaps) := js in
                      if swaps =? 0 then (j, increasingHint)
                      else if swaps =? 4 * 3 then (j, decreasingHint)
                      else (j, unknownHint)) < b).
  { intros [j swaps] Hj. cbn [fst] in *.
    destruct (swaps =? 0); [exact Hj|]. destruct (swaps =? 4 * 3); exact Hj. }
  apply Hjs.
  destruct (Nat.leb_spec 50 (b - a)) as [Hbig|Hsmall].
  - unfold medianAdjacent_func.
    pose proof (median_func_range l a b (a + q * 1 - 1) (a + q * 1) (a + q * 1 + 1) 0
                  ltac:(lia) ltac:(lia) ltac:(lia)) as H1.
    destruct (median_func less l (a + q * 1 - 1) (a + q * 1) (a + q * 1 + 1) 0)
      as [i' s1]. cbn [fst] in H1.
    pose proof (median_func_range l a b (a + q * 2 - 1) (a + q * 2) (a + q * 2 + 1) s1
                  ltac:(lia) ltac:(lia) ltac:(lia)) as H2.
    destruct (median_func less l (a + q * 2 - 1) (a + q * 2) (a + q * 2 + 1) s1)
      as [j' s2]. cbn [fst] in H2.
    pose proof (median_func_range l a b (a + q * 3 - 1) (a + q * 3) (a + q * 3 + 1) s2
                  ltac:(lia) ltac:(lia) ltac:(lia)) as H3.
    destruct (median_func less l (a + q * 3 - 1) (a + q * 3) (a + q * 3 + 1) s2)
      as [k' s3]. cbn [fst] in H3.
    apply median_func_range; assumption.
  - apply median_func_range; lia.
Qed.

(** ** [partialInsertionSort_func] *)

Lemma sorted_seg_extend (a i i' : nat) (l : list A) :
  a < i -> i <= i' -> sorted_seg a i l ->
  (forall k, i <= k < i' -> leq (l !!! (k - 1)) (l !!! k)) ->
  sorted_seg a i' l.
Proof.
  intros Hai Hii Hsorted Hadj. induction i' as [|i' IH]; [intros p q; lia|].
  destruct (decide (i = S i')) as [<-|Hne]; [exact Hsorted|].
  specialize (IH ltac:(lia) ltac:(intros; apply Hadj; lia)).
  intros p q Hp Hpq Hq. destruct (decide (q = i')) as [->|Hqi]; [|apply IH; lia].
  destruct (decide (p = i')) as [->|Hpi]; [apply leq_refl|].
  apply leq_trans with (l !!! (i' - 1)); [apply IH; lia|apply Hadj; lia].
Qed.

Lemma shift_left_spec (a i : nat) :
  forall (j : nat) (l : list A),
    a <= j -> j <= i -> i < length l -> ins_inv a j i l ->
    (forall k, 1 <= a -> a <= k <= i -> leq (l !!! (a - 1)) (l !!! k)) ->
    seg_perm a (S i) l (shift_left less j l)
    /\ sorted_seg a (S i) (shift_left less j l).
Proof.
  induction j as [|j' IH]; intros l Haj Hji Hil [Hrest Hj] Hbelow; cbn [shift_left].
  - split; [constructor|]. intros p q Hp Hpq Hq.
    destruct (decide (p = 0)) as [->|Hp0].
    + destruct (decide (q = 0)) as [->|Hq0]; [apply leq_refl|apply Hj; lia].
    + apply Hrest; lia.
  - destruct (data_Less less l (S j') j') eqn:Hless; unfold data_Less in Hless;
      cbn [negb].
    + assert (Ha : a < S j').
      { destruct (decide (a = S j')) as [->|]; [|lia].
        specialize (Hbelow (S j') ltac:(lia) ltac:(lia)).
        replace (S j' - 1) with j' in Hbelow by lia.
        unfold SortSpec.leq in Hbelow. congruence. }
      destruct (IH (data_Swap l (S j') j')) as [Hperm Hsorted].
      * lia.
      * lia.
      * rewrite Swap_length. lia.
      * split.
        -- intros p q Hp Hpq Hq Hpj Hqj. rewrite !Swap_lookup by lia.
           repeat case_decide; subst; try lia; try apply leq_refl; apply Hrest; lia.
        -- intros q Hjq Hq. rewrite !Swap_lookup by lia.
           repeat case_decide; subst; try lia.
           ++ apply less_leq, Hless.
           ++ apply Hj; lia.
      * intros k Ha1 Hk. rewrite !Swap_lookup by lia.
        rewrite (decide_False (P := a - 1 = j')) by lia.
        rewrite (decide_False (P := a - 1 = S j')) by lia.
        repeat case_decide; apply Hbelow; lia.
      * split; [|exact Hsorted].
        eapply seg_perm_trans; [|exact Hperm]. apply seg_perm_swap1; lia.
    + split; [constructor|]. intros p q Hp Hpq Hq.
      destruct (decide (p = S j')) as [->|Hpj].
      { destruct (decide (q = S j')) as [->|Hqj]; [apply leq_refl|apply Hj; lia]. }
      destruct (decide (q = S j')) as [->|Hqj]; [|apply Hrest; lia].
      apply leq_trans with (l !!! j'); [apply Hrest; lia|exact Hless].
Qed.

Lemma shift_right_perm (i b : nat) :
  forall (fuel : nat) (l : list A) (j : nat),
    i < j -> seg_perm i b l (shift_right less fuel l j b).
Proof.
  induction fuel as [|fuel IH]; intros l j Hj; cbn [shift_right]; [constructor|].
  destruct (Nat.ltb_spec j b); [|constructor].
  destruct (data_Less less l j (j - 1)); cbn [negb]; [|constructor].
  eapply seg_perm_trans; [apply (seg_perm_swap1 i b l j (j - 1)); lia|].
  apply IH. lia.
Qed.

(** The fuel of the shift to the right is enough. *)
Lemma shift_right_fuel (b : nat) :
  forall (fuel fuel' : nat) (l : list A) (j : nat),
    b - j <= fuel -> b - j <= fuel' ->
    shift_right less fuel l j b = shift_right less fuel' l j b.
Proof.
  induction fuel as [|fuel IH]; intros [|fuel'] l j Hfuel Hfuel';
    cbn [shift_right]; try reflexivity.
  - destruct (Nat.ltb_spec j b); [lia|reflexivity].
  - destruct (Nat.ltb_spec j b); [lia|reflexivity].
  - destruct (Nat.ltb_spec j b); [|reflexivity].
    destruct (data_Less less l j (j - 1)); cbn [negb]; [|reflexivity]. apply IH; lia.
Qed.

Lemma partialInsertionSort_loop_spec (a b : nat) :
  forall (steps : nat) (l : list A) (i : nat),
    a < i -> i <= b -> b <= length l -> below a b l -> sorted_seg a i l ->
    let '(l', sorted) := partialInsertionSort_loop less steps l a b i in
    seg_perm a b l l' /\ (sorted = true -> sorted_seg a b l').
Proof.
  induction steps as [|steps IH]; intros l i Hai Hib Hb Hbelow Hsorted;
    cbn [partialInsertionSort_loop].
  { split; [constructor|discriminate]. }
  destruct (scan_up_spec (fun i => negb (data_Less less l i (i - 1))) (b - 1) (b - i) i)
    as (Hi1 & Hall & Hstop); try lia.
  set (i1 := scan_up (b - i) (fun i => negb (data_Less less l i (i - 1))) i (b - 1)) in *.
  assert (Hsorted1 : sorted_seg a i1 l).
  { apply (sorted_seg_extend a i i1); [lia|lia|exact Hsorted|].
    intros k Hk. specialize (Hall k Hk). apply negb_true_iff in Hall. exact Hall. }
  destruct (Nat.eqb_spec i1 b) as [Heq|Hne].
  { split; [constructor|]. intros _. rewrite <- Heq. exact Hsorted1. }
  destruct (Nat.ltb_spec (b - a) 50) as [Hshort|Hlong].
  { split; [constructor|discriminate]. }
  set (l1 := data_Swap l i1 (i1 - 1)).
  assert (Hperm1 : seg_perm a b l l1) by (apply seg_perm_swap1; lia).
  assert (Hlen1 : length l1 = length l) by apply Swap_length.
  pose proof (below_seg_perm a b l l1 Hperm1 Hb Hbelow) as Hbelow1.
  set (l2 := if 2 <=? i1 - a then shift_left less (i1 - 1) l1 else l1).
  assert (H2 : seg_perm a i1 l1 l2 /\ sorted_seg a i1 l2).
  { subst l2. destruct (Nat.leb_spec 2 (i1 - a)) as [Hge|Hlt].
    - destruct (shift_left_spec a (i1 - 1) (i1 - 1) l1) as [Hp Hs]; try lia.
      + split; [|intros; lia]. intros p q Hp Hpq Hq Hpj Hqj.
        subst l1. rewrite !Swap_lookup by lia. rewrite !decide_False by lia.
        apply Hsorted1; lia.
      + intros k Ha1 Hk. apply Hbelow1; lia.
      + replace (S (i1 - 1)) with i1 in * by lia. split; assumption.
    - split; [constructor|]. intros p q Hp Hpq Hq. replace q with p by lia.
      apply leq_refl. }
  destruct H2 as [Hperm2 Hsorted2].
  assert (Hlen2 : length l2 = length l1) by exact (seg_perm_length _ _ _ _ Hperm2).
  set (l3 := if 2 <=? b - i1 then shift_right less (b - (i1 + 1)) l2 (i1 + 1) b else l2).
  assert (Hperm3 : seg_perm i1 b l2 l3).
  { subst l3. destruct (2 <=? b - i1); [|constructor]. apply shift_right_perm. lia. }
  assert (Hperm : seg_perm a b l l3).
  { eapply seg_perm_trans; [exact Hperm1|].
    eapply seg_perm_trans; [eapply seg_perm_mono; [| |exact Hperm2]; lia|].
    eapply seg_perm_mono; [| |exact Hperm3]; lia. }
  specialize (IH l3 i1).
  destruct (partialInsertionSort_loop less steps l3 a b i1) as [l' sorted].
  destruct IH as [Hperm' Hsorted']; try lia.
  - rewrite (seg_perm_length _ _ _ _ Hperm). exact Hb.
  - apply (below_seg_perm a b l l3 Hperm Hb Hbelow).
  - intros p q Hp Hpq Hq.
    rewrite !(seg_perm_outside i1 b l2 l3 _ Hperm3) by lia. apply Hsorted2; lia.
  - split; [|exact Hsorted']. eapply seg_perm_trans; [exact Hperm|exact Hperm'].
Qed.

Lemma partialInsertionSort_spec (l : list A) (a b : nat) :
  a < b -> b <= length l -> below a b l ->
  let '(l', sorted) := partialInsertionSort_func less l a b in
  seg_perm a b l l' /\ (sorted = true -> sorted_seg a b l').
Proof.
  intros Hab Hb Hbelow. unfold partialInsertionSort_func.
  apply partialInsertionSort_loop_spec; try lia; [exact Hbelow|].
  intros p q Hp Hpq Hq. replace q with p by lia. apply leq_refl.
Qed.


(** ** The quicksort *)

Lemma pivot_at_left (a mid b : nat) (l l' : list A) :
  mid < b -> b <= length l ->
  seg_perm a mid l l' -> pivot_at a mid b l -> pivot_at a mid b l'.
Proof.
  intros Hmid Hb Hperm [Hlo Hhi].
  assert (Hout : forall k, mid <= k -> l' !!! k = l !!! k).
  { intros k Hk. apply (seg_perm_outside a mid l l' k Hperm); lia. }
  split.
  - rewrite (Hout mid) by lia.
    apply (seg_perm_all a mid l l' (fun x => leq x (l !!! mid)) Hperm); [lia|exact Hlo].
  - intros k Hk. rewrite !Hout by lia. apply Hhi. exact Hk.
Qed.

Lemma pivot_at_right (a mid b : nat) (l l' : list A) :
  b <= length l ->
  seg_perm (mid + 1) b l l' -> pivot_at a mid b l -> pivot_at a mid b l'.
Proof.
  intros Hb Hperm [Hlo Hhi].
  assert (Hout : forall k, k <= mid -> l' !!! k = l !!! k).
  { intros k Hk. apply (seg_perm_outside (mid + 1) b l l' k Hperm); lia. }
  split.
  - intros k Hk. rewrite !Hout by lia. apply Hlo. exact Hk.
  - rewrite (Hout mid) by lia. intros k Hk.
    apply (seg_perm_all (mid + 1) b l l' (fun x => leq (l !!! mid) x) Hperm); [lia| |lia].
    intros k' Hk'. apply Hhi. lia.
Qed.

Lemma sorted_seg_join (a mid b : nat) (l : list A) :
  sorted_seg a mid l -> sorted_seg (mid + 1) b l -> pivot_at a mid b l ->
  sorted_seg a b l.
Proof.
  intros Hleft Hright [Hlo Hhi] p q Hp Hpq Hq.
  destruct (decide (q < mid)); [apply Hleft; lia|].
  destruct (decide (mid < p)); [apply Hright; lia|].
  destruct (decide (p = mid)) as [->|].
  { destruct (decide (q = mid)) as [->|]; [apply leq_refl|apply Hhi; lia]. }
  apply leq_trans with (l !!! mid); [apply Hlo; lia|].
  destruct (decide (q = mid)) as [->|]; [apply leq_refl|apply Hhi; lia].
Qed.

Theorem pdqsort_loop_spec :
  forall (fuel : nat) (l : list A) (a b limit : nat) (wasBalanced wasPartitioned : bool),
    a <= b -> b <= length l -> b - a < fuel -> below a b l ->
    seg_perm a b l (pdqsort_loop less fuel l a b limit wasBalanced wasPartitioned)
    /\ sorted_seg a b (pdqsort_loop less fuel l a b limit wasBalanced wasPartitioned).
Proof.
  induction fuel as [|fuel IH]; intros l a b limit wB wP Hab Hb Hfuel Hbelow; [lia|].
  cbn [pdqsort_loop].
  destruct (Nat.leb_spec (b - a) 12) as [Hsmall|Hbig].
  { apply insertionSort_spec; assumption. }
  destruct (limit =? 0).
  { apply heapSort_spec; assumption. }
  (* breakPatterns *)
  set (st1 := if negb wB then (breakPatterns_func l a b, limit - 1) else (l, limit)).
  assert (Hperm1 : seg_perm a b l (fst st1)).
  { subst st1. destruct (negb wB); cbn [fst]; [apply breakPatterns_perm; lia|constructor]. }
  destruct st1 as [l1 limit1]. cbn [fst] in Hperm1.
  (* choosePivot *)
  pose proof (choosePivot_range l1 a b ltac:(lia)) as Hpivot.
  destruct (choosePivot_func less l1 a b) as [pivot hint]. cbn [fst] in Hpivot.
  (* reverseRange *)
  set (st2 := match hint with
              | decreasingHint =>
                  (reverseRange_func l1 a b, b - 1 - (pivot - a), increasingHint)
              | _ => (l1, pivot, hint)
              end).
  assert (H2 : seg_perm a b l1 (fst (fst st2)) /\ a <= snd (fst st2) < b).
  { subst st2. destruct hint; cbn [fst snd]; try (split; [constructor|lia]).
    split; [apply reverseRange_perm; lia|lia]. }
  destruct st2 as [[l2 pivot2] hint2]. cbn [fst snd] in H2. destruct H2 as [Hperm2 Hpivot2].
  assert (Hperm12 : seg_perm a b l l2) by (eapply seg_perm_trans; eassumption).
  pose proof (below_seg_perm a b l l2 Hperm12 Hb Hbelow) as Hbelow2.
  assert (Hlen2 : length l2 = length l) by exact (seg_perm_length _ _ _ _ Hperm12).
  (* partialInsertionSort *)
  set (st3 := match hint2 with
              | increasingHint =>
                  if wB && wP then partialInsertionSort_func less l2 a b else (l2, false)
              | _ => (l2, false)
              end).
  assert (H3 : seg_perm a b l2 (fst st3) /\ (snd st3 = true -> sorted_seg a b (fst st3))).
  { subst st3. destruct hint2; cbn [fst snd]; try (split; [constructor|discriminate]).
    destruct (wB && wP); cbn [fst snd]; [|split; [constructor|discriminate]].
    pose proof (partialInsertionSort_spec l2 a b ltac:(lia) ltac:(lia) Hbelow2) as Hpis.
    destruct (partialInsertionSort_func less l2 a b) as [l' sorted]. exact Hpis. }
  destruct st3 as [l3 sorted]. cbn [fst snd] in H3. destruct H3 as [Hperm3 Hsorted3].
  assert (Hperm13 : seg_perm a b l l3) by (eapply seg_perm_trans; eassumption).
  pose proof (below_seg_perm a b l l3 Hperm13 Hb Hbelow) as Hbelow3.
  assert (Hlen3 : length l3 = length l) by exact (seg_perm_length _ _ _ _ Hperm13).
  destruct sorted.
  { split; [exact Hperm13|apply Hsorted3; reflexivity]. }
  clear Hsorted3.
  destruct ((0 <? a) && negb (data_Less less l3 (a - 1) pivot2)) eqn:Hdup.
  - (* partitionEqual *)
    apply andb_true_iff in Hdup as [Ha%Nat.ltb_lt Hnl%negb_true_iff].
    unfold data_Less in Hnl.
    assert (Hmin : forall k, a <= k < b -> leq (l3 !!! pivot2) (l3 !!! k)).
    { intros k Hk. apply leq_trans with (l3 !!! (a - 1)); [exact Hnl|].
      apply Hbelow3; lia. }
    pose proof (partitionEqual_spec l3 a b pivot2 ltac:(lia) ltac:(lia) Hpivot2) as Hpe.
    destruct (partitionEqual_func less l3 a b pivot2) as [l4 mid].
    destruct Hpe as (Hperm4 & Hmid & Hlo & Hhi).
    assert (Hlen4 : length l4 = length l3) by exact (seg_perm_length _ _ _ _ Hperm4).
    pose proof (below_seg_perm a b l3 l4 Hperm4 ltac:(lia) Hbelow3) as Hbelow4.
    pose proof (seg_perm_all a b l3 l4 (fun x => leq (l3 !!! pivot2) x) Hperm4
                  ltac:(lia) Hmin) as Hmin4. cbn beta in Hmin4.
    destruct (IH l4 mid b limit1 wB wP) as [Hperm5 Hsorted5]; try lia.
    { intros p k Hp Hk. destruct (decide (p < a)); [apply Hbelow4; lia|].
      apply leq_trans with (l3 !!! pivot2); [apply Hlo; lia|].
      apply less_leq, Hhi. lia. }
    set (l5 := pdqsort_loop less fuel l4 mid b limit1 wB wP) in *.
    split.
    + eapply seg_perm_trans; [exact Hperm13|].
      eapply seg_perm_trans; [exact Hperm4|].
      eapply seg_perm_mono; [| |exact Hperm5]; lia.
    + assert (Hout : forall k, k < mid -> l5 !!! k = l4 !!! k).
      { intros k Hk. apply (seg_perm_outside mid b l4 l5 k Hperm5); lia. }
      pose proof (seg_perm_all mid b l4 l5 (fun x => leq (l3 !!! pivot2) x) Hperm5
                    ltac:(lia) ltac:(intros; apply Hmin4; lia)) as Hmin5.
      cbn beta in Hmin5.
      intros p q Hp Hpq Hq.
      destruct (decide (mid <= p)); [apply Hsorted5; lia|].
      apply leq_trans with (l3 !!! pivot2).
      * rewrite Hout by lia. apply Hlo. lia.
      * destruct (decide (q < mid)); [rewrite Hout by lia; apply Hmin4; lia|].
        apply Hmin5. lia.
  - (* partition *)
    clear Hdup.
    pose proof (partition_spec l3 a b pivot2 ltac:(lia) ltac:(lia) Hpivot2) as Hp.
    destruct (partition_func less l3 a b pivot2) as [[l4 mid] alreadyPartitioned].
    destruct Hp as (Hperm4 & Hmid & Hlo & Hhi).
    assert (Hlen4 : length l4 = length l3) by exact (seg_perm_length _ _ _ _ Hperm4).
    pose proof (below_seg_perm a b l3 l4 Hperm4 ltac:(lia) Hbelow3) as Hbelow4.
    assert (Hpiv4 : pivot_at a mid b l4).
    { split; [|exact Hhi]. intros k Hk. apply less_leq, Hlo. exact Hk. }
    assert (Hperm14 : seg_perm a b l l4) by (eapply seg_perm_trans; eassumption).
    destruct (mid - a <? b - mid).
    + (* the left part first *)
      destruct (IH l4 a mid limit1 true true) as [Hperm5 Hsorted5]; try lia.
      { intros p k Hp Hk. apply Hbelow4; lia. }
      set (l5 := pdqsort_loop less fuel l4 a mid limit1 true true) in *.
      assert (Hlen5 : length l5 = length l4) by exact (seg_perm_length _ _ _ _ Hperm5).
      pose proof (pivot_at_left a mid b l4 l5 ltac:(lia) ltac:(lia) Hperm5 Hpiv4) as Hpiv5.
      pose proof (below_seg_perm a b l4 l5
                    ltac:(eapply seg_perm_mono; [| |exact Hperm5]; lia) ltac:(lia) Hbelow4)
        as Hbelow5.
      destruct (IH l5 (mid + 1) b limit1 ((b - a) / 8 <=? mid - a) alreadyPartitioned)
        as [Hperm6 Hsorted6]; try lia.
      { intros p k Hp Hk. destruct (decide (p < a)); [apply Hbelow5; lia|].
        destruct Hpiv5 as [Hlo5 Hhi5].
        apply leq_trans with (l5 !!! mid); [|apply Hhi5; lia].
        destruct (decide (p = mid)) as [->|]; [apply leq_refl|apply Hlo5; lia]. }
      set (l6 := pdqsort_loop less fuel l5 (mid + 1) b limit1 _ _) in *.
      split.
      * eapply seg_perm_trans; [exact Hperm14|].
        eapply seg_perm_trans; [eapply seg_perm_mono; [| |exact Hperm5]; lia|].
        eapply seg_perm_mono; [| |exact Hperm6]; lia.
      * apply (sorted_seg_join a mid b).
        -- intros p q Hp Hpq Hq.
           rewrite !(seg_perm_outside (mid + 1) b l5 l6 _ Hperm6) by lia.
           apply Hsorted5; lia.
        -- exact Hsorted6.
        -- apply (pivot_at_right a mid b l5 l6); [lia|exact Hperm6|exact Hpiv5].
    + (* the right part first *)
      destruct (IH l4 (mid + 1) b limit1 true true) as [Hperm5 Hsorted5]; try lia.
      { intros p k Hp Hk. destruct (decide (p < a)); [apply Hbelow4; lia|].
        destruct Hpiv4 as [Hlo4 Hhi4].
        apply leq_trans with (l4 !!! mid); [|apply Hhi4; lia].
        destruct (decide (p = mid)) as [->|]; [apply leq_refl|apply Hlo4; lia]. }
      set (l5 := pdqsort_loop less fuel l4 (mid + 1) b limit1 true true) in *.
      assert (Hlen5 : length l5 = length l4) by exact (seg_perm_length _ _ _ _ Hperm5).
      pose proof (pivot_at_right a mid b l4 l5 ltac:(lia) Hperm5 Hpiv4) as Hpiv5.
      pose proof (below_seg_perm a b l4 l5
                    ltac:(eapply seg_perm_mono; [| |exact Hperm5]; lia) ltac:(lia) Hbelow4)
        as Hbelow5.
      destruct (IH l5 a mid limit1 ((b - a) / 8 <=? b - mid) alreadyPartitioned)
        as [Hperm6 Hsorted6]; try lia.
      { intros p k Hp Hk. apply Hbelow5; lia. }
      set (l6 := pdqsort_loop less fuel l5 a mid limit1 _ _) in *.
      split.
      * eapply seg_perm_trans; [exact Hperm14|].
        eapply seg_perm_trans; [eapply seg_perm_mono; [| |exact Hperm5]; lia|].
        eapply seg_perm_mono; [| |exact Hperm6]; lia.
      * apply (sorted_seg_join a mid b).
        -- exact Hsorted6.
        -- intros p q Hp Hpq Hq.
           rewrite !(seg_perm_outside a mid l5 l6 _ Hperm6) by lia.
           apply Hsorted5; lia.
        -- apply (pivot_at_left a mid b l5 l6); [lia|lia|exact Hperm6|exact Hpiv5].
Qed.

(** The fuel of the quicksort is enough: with any fuel above the length of
    the range the result is the same, so the recursion never stops for lack
    of it. *)
Theorem pdqsort_loop_fuel :
  forall (fuel fuel' : nat) (l : list A) (a b limit : nat)
         (wasBalanced wasPartitioned : bool),
    a <= b -> b <= length l -> b - a < fuel -> b - a < fuel' -> below a b l ->
    pdqsort_loop less fuel l a b limit wasBalanced wasPartitioned
    = pdqsort_loop less fuel' l a b limit wasBalanced wasPartitioned.
Proof.
  induction fuel as [|fuel IH]; intros [|fuel'] l a b limit wB wP Hab Hb Hfuel Hfuel' Hbelow;
    try lia.
  cbn [pdqsort_loop].
  destruct (Nat.leb_spec (b - a) 12) as [Hsmall|Hbig]; [reflexivity|].
  destruct (limit =? 0); [reflexivity|].
  set (st1 := if negb wB then (breakPatterns_func l a b, limit - 1) else (l, limit)).
  assert (Hperm1 : seg_perm a b l (fst st1)).
  { subst st1. destruct (negb wB); cbn [fst]; [apply breakPatterns_perm; lia|constructor]. }
  destruct st1 as [l1 limit1]. cbn [fst] in Hperm1.
  pose proof (choosePivot_range l1 a b ltac:(lia)) as Hpivot.
  destruct (choosePivot_func less l1 a b) as [pivot hint]. cbn [fst] in Hpivot.
  set (st2 := match hint with
              | decreasingHint =>
                  (reverseRange_func l1 a b, b - 1 - (pivot - a), increasingHint)
              | _ => (l1, pivot, hint)
              end).
  assert (H2 : seg_perm a b l1 (fst (fst st2)) /\ a <= snd (fst st2) < b).
  { subst st2. destruct hint; cbn [fst snd]; try (split; [constructor|lia]).
    split; [apply reverseRange_perm; lia|lia]. }
  destruct st2 as [[l2 pivot2] hint2]. cbn [fst snd] in H2. destruct H2 as [Hperm2 Hpivot2].
  assert (Hperm12 : seg_perm a b l l2) by (eapply seg_perm_trans; eassumption).
  pose proof (below_seg_perm a b l l2 Hperm12 Hb Hbelow) as Hbelow2.
  assert (Hlen2 : length l2 = length l) by exact (seg_perm_length _ _ _ _ Hperm12).
  set (st3 := match hint2 with
              | increasingHint =>
                  if wB && wP then partialInsertionSort_func less l2 a b else (l2, false)
              | _ => (l2, false)
              end).
  assert (Hperm3 : seg_perm a b l2 (fst st3)).
  { subst st3. destruct hint2; cbn [fst]; try constructor.
    destruct (wB && wP); cbn [fst]; [|constructor].
    pose proof (partialInsertionSort_spec l2 a b ltac:(lia) ltac:(lia) Hbelow2) as Hpis.
    destruct (partialInsertionSort_func less l2 a b) as [l' sorted]. apply Hpis. }
  destruct st3 as [l3 sorted]. cbn [fst] in Hperm3.
  assert (Hperm13 : seg_perm a b l l3) by (eapply seg_perm_trans; eassumption).
  pose proof (below_seg_perm a b l l3 Hperm13 Hb Hbelow) as Hbelow3.
  assert (Hlen3 : length l3 = length l) by exact (seg_perm_length _ _ _ _ Hperm13).
  destruct sorted; [reflexivity|].
  destruct ((0 <? a) && negb (data_Less less l3 (a - 1) pivot2)) eqn:Hdup.
  - apply andb_true_iff in Hdup as [Ha%Nat.ltb_lt Hnl%negb_true_iff].
    pose proof (partitionEqual_spec l3 a b pivot2 ltac:(lia) ltac:(lia) Hpivot2) as Hpe.
    destruct (partitionEqual_func less l3 a b pivot2) as [l4 mid].
    destruct Hpe as (Hperm4 & Hmid & Hlo & Hhi).
    assert (Hlen4 : length l4 = length l3) by exact (seg_perm_length _ _ _ _ Hperm4).
    pose proof (below_seg_perm a b l3 l4 Hperm4 ltac:(lia) Hbelow3) as Hbelow4.
    apply IH; try lia.
    intros p k Hp Hk. destruct (decide (p < a)); [apply Hbelow4; lia|].
    apply leq_trans with (l3 !!! pivot2); [apply Hlo; lia|].
    apply less_leq, Hhi. lia.
  - clear Hdup.
    pose proof (partition_spec l3 a b pivot2 ltac:(lia) ltac:(lia) Hpivot2) as Hp.
    destruct (partition_func less l3 a b pivot2) as [[l4 mid] alreadyPartitioned].
    destruct Hp as (Hperm4 & Hmid & Hlo & Hhi).
    assert (Hlen4 : length l4 = length l3) by exact (seg_perm_length _ _ _ _ Hperm4).
    pose proof (below_seg_perm a b l3 l4 Hperm4 ltac:(lia) Hbelow3) as Hbelow4.
    assert (Hpiv4 : pivot_at a mid b l4).
    { split; [|exact Hhi]. intros k Hk. apply less_leq, Hlo. exact Hk. }
    assert (Hright : forall l', pivot_at a mid b l' -> below a b l' ->
                       below (mid + 1) b l').
    { intros l' [Hlo' Hhi'] Hbelow' p k Hp Hk.
      destruct (decide (p < a)); [apply Hbelow'; lia|].
      apply leq_trans with (l' !!! mid); [|apply Hhi'; lia].
      destruct (decide (p = mid)) as [->|]; [apply leq_refl|apply Hlo'; lia]. }
    destruct (mid - a <? b - mid).
    + assert (Hbelow_l : below a mid l4) by (intros p k Hp Hk; apply Hbelow4; lia).
      rewrite (IH fuel' l4 a mid limit1 true true) by (assumption || lia).
      destruct (pdqsort_loop_spec fuel' l4 a mid limit1 true true) as [Hperm5 _];
        try assumption; try lia.
      set (l5 := pdqsort_loop less fuel' l4 a mid limit1 true true) in *.
      assert (Hlen5 : length l5 = length l4) by exact (seg_perm_length _ _ _ _ Hperm5).
      apply IH; try lia. apply Hright.
      * apply (pivot_at_left a mid b l4 l5); [lia|lia|exact Hperm5|exact Hpiv4].
      * apply (below_seg_perm a b l4 l5); [|lia|exact Hbelow4].
        eapply seg_perm_mono; [| |exact Hperm5]; lia.
    + rewrite (IH fuel' l4 (mid + 1) b limit1 true true)
        by (try apply Hright; assumption || lia).
      destruct (pdqsort_loop_spec fuel' l4 (mid + 1) b limit1 true true) as [Hperm5 _];
        try lia; [apply Hright; assumption|].
      set (l5 := pdqsort_loop less fuel' l4 (mid + 1) b limit1 true true) in *.
      assert (Hlen5 : length l5 = length l4) by exact (seg_perm_length _ _ _ _ Hperm5).
      apply IH; try lia.
      intros p k Hp Hk.
      apply (below_seg_perm a b l4 l5); [|lia|exact Hbelow4|lia|lia].
      eapply seg_perm_mono; [| |exact Hperm5]; lia.
Qed.

(** [sort.Slice] returns a permutation of the slice that is sorted by
    [less]. *)
Theorem Slice_spec (x : list A) :
  Slice less x ≡ₚ x
  /\ forall i j, i <= j -> j < length x -> leq (Slice less x !!! i) (Slice less x !!! j).
Proof.
  unfold Slice, pdqsort_func.
  destruct (pdqsort_loop_spec (S (length x - 0)) x 0 (length x) (bits_Len (length x))
              true true) as [Hperm Hsorted]; try lia.
  { intros p k Hp. lia. }
  split.
  - apply (seg_perm_Permutation 0 (length x)); [exact Hperm|lia].
  - intros i j Hij Hj. apply Hsorted; lia.
Qed.

End SortProofs.

(** ** Insertion sort is stable *)

Section Stable.

Local Open Scope nat_scope.

Context {A : Type} `{!Inhabited A}.
Variable less : A -> A -> bool.

(** A class of elements none of which is less than another. *)
Variable P : A -> bool.
Hypothesis P_class : forall x y, P x = true -> P y = true -> less x y = false.

Lemma Swap_cons (x : A) (l : list A) (i j : nat) :
  data_Swap (x :: l) (S i) (S j) = x :: data_Swap l i j.
Proof. reflexivity. Qed.

Lemma filter_Swap_adjacent :
  forall (j : nat) (l : list A),
    S j < length l -> less (l !!! S j) (l !!! j) = true ->
    List.filter P (data_Swap l (S j) j) = List.filter P l.
Proof.
  induction j as [|j IH]; intros l Hlen Hless.
  - destruct l as [|x [|y l]]; cbn [length] in Hlen; try lia.
    cbn in Hless |- *. pose proof (P_class y x) as Hc.
    destruct (P x), (P y); try reflexivity.
    rewrite Hc in Hless by reflexivity. discriminate.
  - destruct l as [|x l]; cbn [length] in Hlen; [lia|].
    rewrite Swap_cons. cbn [List.filter]. rewrite IH; [reflexivity|lia|exact Hless].
Qed.

Lemma insertion_inner_stable (a : nat) :
  forall (j : nat) (l : list A),
    j < length l -> List.filter P (insertion_inner less a j l) = List.filter P l.
Proof.
  induction j as [|j' IH]; intros l Hlen; cbn [insertion_inner]; [reflexivity|].
  destruct ((a <? S j') && data_Less less l (S j') j') eqn:Hcond; [|reflexivity].
  apply andb_true_iff in Hcond as [_ Hless].
  rewrite IH by (rewrite Swap_length; lia). apply filter_Swap_adjacent; assumption.
Qed.

Lemma insertion_inner_length (a : nat) :
  forall (j : nat) (l : list A), length (insertion_inner less a j l) = length l.
Proof.
  induction j as [|j' IH]; intros l; cbn [insertion_inner]; [reflexivity|].
  destruct ((a <? S j') && data_Less less l (S j') j'); [|reflexivity].
  rewrite IH, Swap_length. reflexivity.
Qed.

Lemma insertion_outer_stable (a : nat) :
  forall (n i : nat) (l : list A),
    i + n <= length l ->
    List.filter P (insertion_outer less n a i l) = List.filter P l.
Proof.
  induction n as [|n IH]; intros i l Hlen; cbn [insertion_outer]; [reflexivity|].
  rewrite IH by (rewrite insertion_inner_length; lia).
  apply insertion_inner_stable. lia.
Qed.

Lemma insertionSort_stable (l : list A) (a b : nat) :
  b <= length l ->
  List.filter P (insertionSort_func less l a b) = List.filter P l.
Proof.
  intros Hb. unfold insertionSort_func.
  destruct (decide (b <= a + 1)) as [Hsmall|Hbig].
  - replace (b - (a + 1)) with 0 by lia. reflexivity.
  - apply insertion_outer_stable. lia.
Qed.

End Stable.

(** ** [ListTasks] *)

Lemma Slice_sorted {A : Type} `{!Inhabited A} (less : A -> A -> bool) (x : list A) :
  SortSpec.strict_weak_order less ->
  Slice less x ≡ₚ x /\ StronglySorted (SortSpec.leq less) (Slice less x).
Proof.
  intros (Hirr & Htrans & Hneg).
  destruct (Slice_spec less Hirr Htrans Hneg x) as [Hperm Hsorted].
  split; [exact Hperm|]. apply Permutation_length in Hperm. rewrite <- Hperm in Hsorted.
  clear Hperm. revert Hsorted. generalize (Slice less x). clear x.
  induction l as [|y l IH]; intros Hsorted; constructor.
  - apply IH. intros i j Hij Hj. apply (Hsorted (S i) (S j)); cbn [length]; lia.
  - apply Forall_lookup. intros k z Hk.
    pose proof (lookup_lt_Some _ _ _ Hk) as Hlt.
    specialize (Hsorted 0%nat (S k) ltac:(lia) ltac:(cbn [length]; lia)).
    change ((y :: l) !!! 0%nat) with y in Hsorted.
    change ((y :: l) !!! S k) with (l !!! k) in Hsorted.
    rewrite (list_lookup_total_correct _ _ _ Hk) in Hsorted. exact Hsorted.
Qed.

Lemma StronglySorted_weaken {A : Type} (R R' : A -> A -> Prop) (l : list A) :
  (forall x y, R x y -> R' x y) -> StronglySorted R l -> StronglySorted R' l.
Proof.
  intros HR Hl. induction Hl as [|x l Hl IH Hx]; constructor; [exact IH|].
  eapply Forall_impl; [exact Hx|]. exact (HR x).
Qed.

Lemma less_priority_swo : SortSpec.strict_weak_order less_priority.
Proof.
  unfold less_priority. repeat split; intros *; rewrite !Z.gtb_ltb, ?Z.ltb_lt, ?Z.ltb_ge; lia.
Qed.

Lemma less_id_swo : SortSpec.strict_weak_order less_id.
Proof.
  unfold less_id. repeat split; intros *; rewrite ?Z.ltb_lt, ?Z.ltb_ge; lia.
Qed.

Lemma less_created_swo : SortSpec.strict_weak_order less_created.
Proof.
  unfold less_created, Time_Before.
  repeat split; intros *; rewrite ?Z.ltb_lt, ?Z.ltb_ge; lia.
Qed.

Lemma less_due_swo : SortSpec.strict_weak_order less_due.
Proof.
  unfold less_due, Time_Before. repeat split; intros *.
  - destruct (Task.DueDate x); apply Z.ltb_irrefl.
  - destruct (Task.DueDate x), (Task.DueDate y), (Task.DueDate z);
      rewrite ?Z.ltb_lt; try discriminate; try reflexivity; lia.
  - destruct (Task.DueDate x), (Task.DueDate y), (Task.DueDate z);
      rewrite ?Z.ltb_ge; try discriminate; try reflexivity; lia.
Qed.

Lemma sort_less_swo (sortBy : string) : SortSpec.strict_weak_order (sort_less sortBy).
Proof.
  unfold sort_less. destruct (String.eqb sortBy "priority"); [apply less_priority_swo|].
  destruct (String.eqb sortBy "due"); [apply less_due_swo|].
  destruct (String.eqb sortBy "created"); [apply less_created_swo|apply less_id_swo].
Qed.

Lemma sortTasks_spec (l : list Task.t) (sortBy : string) :
  sortTasks l sortBy ≡ₚ l
  /\ StronglySorted (SortSpec.leq (sort_less sortBy)) (sortTasks l sortBy).
Proof. apply Slice_sorted, sort_less_swo. Qed.

(** C4: [ListTasks] returns, in the order of the sort, exactly the tasks
    that pass the filter.  With [ShowCompleted] alone these are the completed
    tasks, and with [ShowPending] alone the pending ones, among those the
    priority and search filters keep; with both flags set or both unset the
    completion status is not looked at, so without a priority and a search
    filter the result holds every task of the collection. *)
Theorem ListTasks_filter (strings_ToLower : string -> string) (m : Manager)
    (priority search sortBy : string) :
  let others filter task :=
    priority_ok filter task && search_ok strings_ToLower filter task in
  (let filter := FilterOptions.mk true false priority search sortBy in
   ListTasks strings_ToLower m filter ≡ₚ
     List.filter (fun task => Task.Completed task && others filter task) (tasks m))
  /\ (let filter := FilterOptions.mk false true priority search sortBy in
      ListTasks strings_ToLower m filter ≡ₚ
        List.filter (fun task => negb (Task.Completed task) && others filter task) (tasks m))
  /\ (forall both : bool,
        let filter := FilterOptions.mk both both priority search sortBy in
        ListTasks strings_ToLower m filter ≡ₚ List.filter (others filter) (tasks m))
  /\ (forall both : bool,
        ListTasks strings_ToLower m (FilterOptions.mk both both "" "" sortBy) ≡ₚ tasks m).
Proof.
  cbn zeta. unfold ListTasks, filteredTasks.
  split; [|split; [|split]]; try intros both; rewrite (proj1 (sortTasks_spec _ _)).
  1-3: erewrite filter_ext; [reflexivity|]; intros task; unfold completion_ok;
    try destruct both;
    cbn [FilterOptions.ShowCompleted FilterOptions.ShowPending andb negb];
    rewrite ?andb_assoc; reflexivity.
  rewrite (filter_ext _ (fun _ => true)).
  - clear. induction (tasks m) as [|task rest IH]; [reflexivity|].
    cbn [List.filter]. rewrite IH at 1. reflexivity.
  - intros task. destruct both; reflexivity.
Qed.

(** C5: with [SortBy = "due"], [ListTasks] returns the tasks that pass the
    filter with those that have a due date first, in ascending order of due
    date, and those without a due date after them, in ascending order of
    id. *)
Theorem ListTasks_due_order (strings_ToLower : string -> string) (m : Manager)
    (showCompleted showPending : bool) (priority search : string) :
  let filter := FilterOptions.mk showCompleted showPending priority search "due" in
  ListTasks strings_ToLower m filter ≡ₚ filteredTasks strings_ToLower m filter
  /\ StronglySorted by_due (ListTasks strings_ToLower m filter).
Proof.
  cbn zeta. unfold ListTasks. cbn [FilterOptions.SortBy].
  destruct (sortTasks_spec
              (filteredTasks strings_ToLower m
                 (FilterOptions.mk showCompleted showPending priority search "due")) "due")
    as [Hperm Hsorted].
  split; [exact Hperm|].
  eapply StronglySorted_weaken; [|exact Hsorted].
  intros ti tj. unfold SortSpec.leq, by_due. change (sort_less "due") with less_due.
  unfold less_due, Time_Before.
  destruct (Task.DueDate ti), (Task.DueDate tj); rewrite ?Z.ltb_ge;
    try discriminate; auto.
Qed.

(** Up to twelve elements, [sort.Slice] is the insertion sort. *)
Lemma Slice_small {A : Type} `{!Inhabited A} (less : A -> A -> bool) (x : list A) :
  (length x <= 12)%nat -> Slice less x = insertionSort_func less x 0 (length x).
Proof.
  intros Hlen. unfold Slice, pdqsort_func. cbn [pdqsort_loop].
  destruct (Nat.leb_spec (length x - 0) 12) as [_|Hgt]; [reflexivity|lia].
Qed.

Lemma has_priority_class (p : Priority) (x y : Task.t) :
  has_priority p x = true -> has_priority p y = true -> less_priority x y = false.
Proof.
  unfold has_priority, less_priority. intros Hx%String.eqb_eq Hy%String.eqb_eq.
  rewrite Hx, Hy, Z.gtb_ltb. apply Z.ltb_irrefl.
Qed.

(** C1 fails as stated: [sort.Slice] is not a stable sort.  With twelve
    tasks of priority medium followed by one of priority high, the first
    partition of the quicksort moves the pivot (task 7) to the front and the
    medium tasks come out in the order 7, 3, 4, 5, 6, 1, 8, ..., 12, 2. *)
Lemma ListTasks_priority_counterexample :
  let filter := FilterOptions.mk true true "" "" "priority" in
  let listed := ListTasks (fun s => s) thirteen_tasks filter in
  ~ (StronglySorted by_priority listed
     /\ forall p, List.filter (has_priority p) listed
                  = List.filter (has_priority p) (tasks thirteen_tasks)).
Proof.
  intros filter listed [_ Hstable]. specialize (Hstable "medium").
  apply (f_equal (map Task.ID)) in Hstable. vm_compute in Hstable. discriminate Hstable.
Qed.

Example ListTasks_thirteen :
  map Task.ID
    (ListTasks (fun s => s) thirteen_tasks (FilterOptions.mk true true "" "" "priority"))
  = [13; 7; 3; 4; 5; 6; 1; 8; 9; 10; 11; 12; 2].
Proof. vm_compute. reflexivity. Qed.

(** C1, amended: with [SortBy = "priority"], [ListTasks] returns the tasks
    that pass the filter in descending order of priority, high before medium
    before low (before any other priority string); tasks of equal priority
    keep the order of the collection when at most twelve tasks pass the
    filter, which [sort.Slice] sorts by insertion.  Beyond twelve tasks the
    order among equal priorities is the one the quicksort leaves. *)
Theorem ListTasks_priority_order (strings_ToLower : string -> string) (m : Manager)
    (showCompleted showPending : bool) (priority search : string) :
  let filter := FilterOptions.mk showCompleted showPending priority search "priority" in
  let listed := ListTasks strings_ToLower m filter in
  listed ≡ₚ filteredTasks strings_ToLower m filter
  /\ StronglySorted by_priority listed
  /\ (priorityOrder_at PriorityHigh = 3 /\ priorityOrder_at PriorityMedium = 2
      /\ priorityOrder_at PriorityLow = 1)
  /\ ((length (filteredTasks strings_ToLower m filter) <= 12)%nat ->
      forall p, List.filter (has_priority p) listed
                = List.filter (has_priority p) (filteredTasks strings_ToLower m filter)).
Proof.
  cbn zeta. unfold ListTasks. cbn [FilterOptions.SortBy].
  set (passed := filteredTasks strings_ToLower m _).
  destruct (sortTasks_spec passed "priority") as [Hperm Hsorted].
  split; [exact Hperm|]. split; [|split; [repeat split|]].
  - eapply StronglySorted_weaken; [|exact Hsorted].
    intros ti tj. unfold SortSpec.leq, by_priority.
    change (sort_less "priority") with less_priority. unfold less_priority.
    rewrite Z.gtb_ltb, Z.ltb_ge. auto.
  - intros Hlen p. unfold sortTasks. rewrite Slice_small by exact Hlen.
    change (sort_less "priority") with less_priority.
    apply (insertionSort_stable less_priority (has_priority p)); [|lia].
    apply has_priority_class.
Qed.

(** Scenario B: three tasks of priorities low, high and medium are listed
    as 2, 3, 1. *)
Lemma ListTasks_priority_order_witness :
  let filter := FilterOptions.mk false false "" "" "priority" in
  let listed := ListTasks (fun s => s) three_tasks filter in
  map Task.ID listed = [2; 3; 1]
  /\ StronglySorted by_priority listed
  /\ forall p, List.filter (has_priority p) listed
               = List.filter (has_priority p) (filteredTasks (fun s => s) three_tasks filter).
Proof.
  split; [vm_compute; reflexivity|].
  destruct (ListTasks_priority_order (fun s => s) three_tasks false false "" "")
    as (_ & Hsorted & _ & Hstable).
  split; [exact Hsorted|]. apply Hstable. vm_compute. lia.
Defined.

(** * Further properties of the code *)

(** ** Looking a task up *)

Lemma find_ID_split (id : Z) (l : list Task.t) (i : nat) (task : Task.t) :
  find_ID id l = Some (i, task) <->
  exists before after,
    l = (before ++ task :: after)%list /\ length before = i /\ Task.ID task = id
    /\ Forall (fun t => Task.ID t <> id) before.
Proof.
  unfold find_ID. rewrite list_find_Some. split.
  - intros (Hi & Hid & Hfirst). exists (take i l), (drop (S i) l).
    split; [symmetry; apply take_drop_middle, Hi|].
    pose proof (lookup_lt_Some _ _ _ Hi) as Hlt.
    split; [rewrite length_take; lia|]. split; [exact Hid|].
    apply Forall_lookup. intros j t Hj.
    apply lookup_take_Some in Hj as [Hj Hji]. exact (Hfirst j t Hj Hji).
  - intros (before & after & -> & <- & Hid & Hbefore).
    split; [rewrite lookup_app_r, Nat.sub_diag by lia; reflexivity|].
    split; [exact Hid|]. intros j t Hj Hlt.
    rewrite lookup_app_l in Hj by exact Hlt.
    exact (Forall_lookup_1 _ _ _ _ Hbefore Hj).
Qed.

Lemma find_ID_None (id : Z) (l : list Task.t) :
  find_ID id l = None <-> Forall (fun t => Task.ID t <> id) l.
Proof. unfold find_ID. apply list_find_None. Qed.

Lemma GetTask_at_inl (m : Manager) (id : Z) (i : nat) (task : Task.t) :
  GetTask_at m id = inl (i, task) <-> 0 < id /\ find_ID id (tasks m) = Some (i, task).
Proof.
  unfold GetTask_at. destruct (Z.leb_spec id 0) as [Hle|Hlt].
  - split; [discriminate|]. intros [? _]. lia.
  - destruct (find_ID id (tasks m)) as [found|]; split.
    + intros [= ->]. split; [exact Hlt|reflexivity].
    + intros [_ [= ->]]. reflexivity.
    + discriminate.
    + intros [_ [=]].
Qed.

Lemma GetTask_inl (m : Manager) (id : Z) (task : Task.t) :
  GetTask m id = inl task <-> exists i, GetTask_at m id = inl (i, task).
Proof.
  unfold GetTask. destruct (GetTask_at m id) as [[i t]|err]; split.
  - intros [= ->]. exists i. reflexivity.
  - intros (j & [= _ ->]). reflexivity.
  - discriminate.
  - intros (j & [=]).
Qed.

(** [GetTask] returns a task exactly when the id is positive and the task
    is the first of the collection with the id. *)
Lemma GetTask_found (m : Manager) (id : Z) (task : Task.t) :
  GetTask m id = inl task <->
  0 < id /\ exists before after : list Task.t,
              tasks m = (before ++ task :: after)%list /\ Task.ID task = id
              /\ Forall (fun t => Task.ID t <> id) before.
Proof.
  rewrite GetTask_inl. split.
  - intros (i & Hat). apply GetTask_at_inl in Hat as [Hpos Hfind].
    apply find_ID_split in Hfind as (before & after & Hl & _ & Hid & Hbefore).
    split; [exact Hpos|]. exists before, after. auto.
  - intros (Hpos & before & after & Hl & Hid & Hbefore).
    exists (length before). apply GetTask_at_inl. split; [exact Hpos|].
    apply find_ID_split. exists before, after. auto.
Qed.

Lemma GetTask_at_found (m : Manager) (id : Z) (task : Task.t) (before after : list Task.t) :
  0 < id -> tasks m = (before ++ task :: after)%list -> Task.ID task = id ->
  Forall (fun t => Task.ID t <> id) before ->
  GetTask_at m id = inl (length before, task).
Proof.
  intros Hpos Hl Hid Hbefore. apply GetTask_at_inl. split; [exact Hpos|].
  apply find_ID_split. exists before, after. auto.
Qed.

Lemma nonpositive_id (e : Env) (m : Manager) (id : Z) :
  id <= 0 ->
  GetTask m id = inr ErrInvalidID
  /\ CompleteTask e m id = (inr ErrInvalidID, m)
  /\ DeleteTask e m id = (inr ErrInvalidID, m).
Proof.
  intros Hle. unfold GetTask, CompleteTask, DeleteTask, GetTask_at.
  destruct (Z.leb_spec id 0) as [_|Hlt]; [|lia]. repeat split.
Qed.

(** X1: [GetTask] fails with [ErrInvalidID] exactly on an id that is not
    positive, and with [ErrTaskNotFound] exactly on a positive id that no
    task has; otherwise it returns the first task of the collection with the
    id.  It returns no other error. *)
Theorem GetTask_outcomes (m : Manager) (id : Z) :
  (GetTask m id = inr ErrInvalidID <-> id <= 0)
  /\ (GetTask m id = inr ErrTaskNotFound <->
      0 < id /\ Forall (fun task => Task.ID task <> id) (tasks m))
  /\ (forall task : Task.t,
        GetTask m id = inl task <->
        0 < id /\ exists before after : list Task.t,
                    tasks m = (before ++ task :: after)%list /\ Task.ID task = id
                    /\ Forall (fun t => Task.ID t <> id) before)
  /\ (forall err, GetTask m id = inr err -> err = ErrInvalidID \/ err = ErrTaskNotFound).
Proof.
  split; [|split; [|split]].
  - unfold GetTask, GetTask_at. destruct (Z.leb_spec id 0) as [Hle|Hlt].
    + split; [intros _; exact Hle|reflexivity].
    + destruct (find_ID id (tasks m)) as [[i t]|]; split; try discriminate; lia.
  - unfold GetTask, GetTask_at. destruct (Z.leb_spec id 0) as [Hle|Hlt].
    + split; [discriminate|]. intros [? _]. lia.
    + destruct (find_ID id (tasks m)) as [[i t]|] eqn:Hfind; split.
      * discriminate.
      * intros [_ Hnone]. apply find_ID_None in Hnone. congruence.
      * intros _. split; [exact Hlt|]. apply find_ID_None, Hfind.
      * reflexivity.
  - intros task. apply GetTask_found.
  - intros err. unfold GetTask, GetTask_at. destruct (id <=? 0)%Z.
    + intros [= <-]. left. reflexivity.
    + destruct (find_ID id (tasks m)) as [[i t]|]; [discriminate|].
      intros [= <-]. right. reflexivity.
Qed.

(** X2: when [GetTask] fails on an id, [CompleteTask] and [DeleteTask] fail
    on it with the same error and leave the manager as it was ([DeleteTask]
    searches the collection itself, with the same outcome). *)
Theorem lookup_errors_agree (e : Env) (m : Manager) (id : Z) (err : error) :
  GetTask m id = inr err ->
  CompleteTask e m id = (inr err, m) /\ DeleteTask e m id = (inr err, m).
Proof.
  unfold GetTask, CompleteTask, DeleteTask, GetTask_at.
  destruct (id <=? 0)%Z.
  - intros [= <-]. split; reflexivity.
  - destruct (find_ID id (tasks m)) as [[i t]|]; [discriminate|].
    intros [= <-]. split; reflexivity.
Qed.

(** ** What [AddTask] does *)

Lemma AddTask_inl (e : Env) (m : Manager) (title : string) (priority : Priority)
    (dueDate : option Time) (task : Task.t) (m' : Manager) :
  AddTask e m title priority dueDate = (inl task, m') ->
  GoStrings.TrimSpace title <> ""
  /\ (priority = "" \/ ValidatePriority priority = true)
  /\ m' = {| tasks := tasks m ++ [task]; nextID := GoInt.succ (nextID m) |}
  /\ SaveTasks e m' = None
  /\ task = {| Task.ID := nextID m;
               Task.Title := GoStrings.TrimSpace title;
               Task.Completed := false;
               Task.DueDate := dueDate;
               Task.Priority := if String.eqb priority "" then PriorityMedium else priority;
               Task.CreatedAt := time_Now e 0;
               Task.UpdatedAt := time_Now e (setter_calls priority dueDate) |}.
Proof.
  unfold AddTask, setter_calls.
  destruct (String.eqb_spec (GoStrings.TrimSpace title) "") as [Ht|Ht]; [discriminate|].
  destruct (String.eqb_spec priority "") as [Hp|Hp]; cbn [negb].
  - destruct dueDate as [d|];
      match goal with |- context [SaveTasks e ?m0] => destruct (SaveTasks e m0) eqn:Hsave end;
      intros [= <- <-]; split_and!; auto.
  - destruct (ValidatePriority priority) eqn:Hv; cbn [negb]; [|discriminate].
    destruct dueDate as [d|];
      match goal with |- context [SaveTasks e ?m0] => destruct (SaveTasks e m0) eqn:Hsave end;
      intros [= <- <-]; split_and!; auto.
Qed.


Lemma find_ID_app_ne (id : Z) (l : list Task.t) (task : Task.t) :
  Task.ID task <> id -> find_ID id (l ++ [task]) = find_ID id l.
Proof.
  intros Hne. unfold find_ID.
  destruct (list_find (fun t => Task.ID t = id) l) as [[i t]|] eqn:Hfind.
  - apply list_find_app_l. exact Hfind.
  - rewrite list_find_app_r by exact Hfind. cbn. rewrite decide_False by exact Hne. reflexivity.
Qed.

(** X3: [AddTask] fails with a validation error exactly when the title is
    empty after trimming or the priority is a non-empty string that is not
    one of low, medium and high; the manager is then as it was.  With a
    title that is not empty, such a priority gives the invalid-priority
    error. *)
Theorem AddTask_validation (e : Env) (m : Manager) (title : string) (priority : Priority)
    (dueDate : option Time) :
  ((exists err, fst (AddTask e m title priority dueDate) = inr err
                /\ ValidationError err = true)
   <-> GoStrings.TrimSpace title = ""
       \/ (priority <> "" /\ ValidatePriority priority = false))
  /\ (GoStrings.TrimSpace title <> "" -> priority <> "" ->
      ValidatePriority priority = false ->
      AddTask e m title priority dueDate = (inr (ErrInvalidPriority priority), m))
  /\ (forall err, fst (AddTask e m title priority dueDate) = inr err ->
      ValidationError err = true -> snd (AddTask e m title priority dueDate) = m).
Proof.
  unfold AddTask.
  destruct (String.eqb_spec (GoStrings.TrimSpace title) "") as [Ht|Ht].
  { split; [|split].
    - split; [intros _; left; exact Ht|]. intros _. exists ErrEmptyTitle. split; reflexivity.
    - intros Hne. contradiction.
    - reflexivity. }
  destruct (String.eqb_spec priority "") as [Hp|Hp]; cbn [negb].
  { split; [|split].
    - split.
      + intros (err & Herr & Hval). revert Herr Hval. unfold SaveTasks.
        destruct (storage_SaveTasks e _ _); cbn [fst]; intros [= <-]; discriminate.
      + intros [Hempty|[Hne _]]; contradiction.
    - intros _ Hne. contradiction.
    - intros err. unfold SaveTasks.
      destruct (storage_SaveTasks e _ _); cbn [fst]; intros [= <-]; discriminate. }
  destruct (ValidatePriority priority) eqn:Hv; cbn [negb].
  { split; [|split].
    - split.
      + intros (err & Herr & Hval). revert Herr Hval. unfold SaveTasks.
        destruct (storage_SaveTasks e _ _); cbn [fst]; intros [= <-]; discriminate.
      + intros [Hempty|[_ Hinv]]; [contradiction|discriminate].
    - intros _ _ Hinv. discriminate.
    - intros err. unfold SaveTasks.
      destruct (storage_SaveTasks e _ _); cbn [fst]; intros [= <-]; discriminate. }
  split; [|split].
  - split; [|intros _; exists (ErrInvalidPriority priority); split; reflexivity].
    intros _. right. split; [exact Hp|reflexivity].
  - reflexivity.
  - reflexivity.
Qed.


(** X5: in a manager whose next id is positive and above every id, the task
    [AddTask] returns is the one [GetTask] finds under its id, and every
    other id resolves as before. *)
Theorem AddTask_then_GetTask (e : Env) (m : Manager) (title : string) (priority : Priority)
    (dueDate : option Time) (task : Task.t) (m' : Manager) :
  watermark m -> 0 < nextID m ->
  AddTask e m title priority dueDate = (inl task, m') ->
  GetTask m' (Task.ID task) = inl task
  /\ forall id, id <> Task.ID task -> GetTask m' id = GetTask m id.
Proof.
  intros Hw Hpos Hadd. apply AddTask_inl in Hadd as (_ & _ & -> & _ & ->).
  cbn [Task.ID]. split.
  - apply GetTask_found. split; [exact Hpos|].
    exists (tasks m), []. split; [reflexivity|]. split; [reflexivity|].
    eapply Forall_impl; [exact Hw|]. cbn. intros t Ht. lia.
  - intros id Hne. unfold GetTask, GetTask_at. cbn [tasks].
    rewrite find_ID_app_ne by (cbn; congruence). reflexivity.
Qed.

(** X6: [AddTask] does not look at the sign of the next id.  When the next
    id is not positive (a document can store such a next id), the task is
    added with that id, and [GetTask], [CompleteTask] and [DeleteTask] then
    reject the id as invalid: the task cannot be reached by its id. *)
Theorem AddTask_nonpositive_id (e e' : Env) (m : Manager) (title : string)
    (priority : Priority) (dueDate : option Time) (task : Task.t) (m' : Manager) :
  nextID m <= 0 ->
  AddTask e m title priority dueDate = (inl task, m') ->
  In task (tasks m')
  /\ GetTask m' (Task.ID task) = inr ErrInvalidID
  /\ CompleteTask e' m' (Task.ID task) = (inr ErrInvalidID, m')
  /\ DeleteTask e' m' (Task.ID task) = (inr ErrInvalidID, m').
Proof.
  intros Hle Hadd. apply AddTask_inl in Hadd as (_ & _ & -> & _ & ->). cbn [Task.ID tasks].
  split; [apply in_or_app; right; left; reflexivity|].
  apply nonpositive_id, Hle.
Qed.

(** *** [strings.TrimSpace] is idempotent *)









(** ** Completing and deleting *)

Lemma insert_at_middle {A : Type} (before after : list A) (x y : A) :
  <[length before := y]> ((before ++ x :: after)%list) = (before ++ y :: after)%list.
Proof. rewrite insert_app_r_alt, Nat.sub_diag by lia. reflexivity. Qed.

Lemma CompleteTask_found (e : Env) (m : Manager) (id : Z) (task : Task.t)
    (before after : list Task.t) :
  0 < id -> tasks m = (before ++ task :: after)%list -> Task.ID task = id ->
  Forall (fun t => Task.ID t <> id) before ->
  CompleteTask e m id =
    if Task.Completed task then (inr (ErrAlreadyCompleted id), m)
    else
      let done := Complete (time_Now e 0) task in
      let m' := {| tasks := (before ++ done :: after)%list; nextID := nextID m |} in
      (match SaveTasks e m' with Some err => inr err | None => inl done end, m').
Proof.
  intros Hpos Hl Hid Hb. unfold CompleteTask.
  rewrite (GetTask_at_found m id task before after Hpos Hl Hid Hb).
  destruct (Task.Completed task); [reflexivity|].
  rewrite Hl, insert_at_middle. cbn zeta. destruct (SaveTasks e _); reflexivity.
Qed.

Lemma DeleteTask_found (e : Env) (m : Manager) (id : Z) (task : Task.t)
    (before after : list Task.t) :
  0 < id -> tasks m = (before ++ task :: after)%list -> Task.ID task = id ->
  Forall (fun t => Task.ID t <> id) before ->
  DeleteTask e m id =
    let m' := {| tasks := (before ++ after)%list; nextID := nextID m |} in
    (match SaveTasks e m' with Some err => inr err | None => inl task end, m').
Proof.
  intros Hpos Hl Hid Hb. unfold DeleteTask. destruct (Z.leb_spec id 0) as [|_]; [lia|].
  assert (Hfind : find_ID id (tasks m) = Some (length before, task)).
  { apply find_ID_split. exists before, after. auto. }
  rewrite Hfind, Hl, delete_middle. cbn zeta. destruct (SaveTasks e _); reflexivity.
Qed.

Lemma SaveTasks_error (e : Env) (m : Manager) (err : error) :
  SaveTasks e m = Some err -> exists cause, err = ErrSave cause.
Proof.
  unfold SaveTasks. destruct (storage_SaveTasks e _ _) as [cause|]; intros [= <-].
  exists cause. reflexivity.
Qed.

Lemma find_ID_remove (id id' : Z) (before after : list Task.t) (task : Task.t) :
  Task.ID task <> id' ->
  fmap snd (find_ID id' (before ++ after)%list) = fmap snd (find_ID id' (before ++ task :: after)%list).
Proof.
  intros Hne. unfold find_ID.
  destruct (list_find (fun t => Task.ID t = id') before) as [[i t]|] eqn:Hfind.
  - rewrite !(list_find_app_l _ _ _ _ _ Hfind). reflexivity.
  - rewrite !list_find_app_r by exact Hfind. cbn [list_find].
    rewrite decide_False by exact Hne.
    destruct (list_find (fun t => Task.ID t = id') after) as [[i t]|]; reflexivity.
Qed.

(** X8: on a pending task, [CompleteTask] replaces the first task with the
    id, in place, by the task completed: [Completed] is set and [UpdatedAt]
    is the time of the call, the other fields and the other tasks are as
    before.  The call returns that task unless saving fails, and [GetTask]
    then finds it. *)
Theorem CompleteTask_completes (e : Env) (m : Manager) (id : Z) (task : Task.t) :
  GetTask m id = inl task -> Task.Completed task = false ->
  exists before after : list Task.t,
    tasks m = (before ++ task :: after)%list
    /\ Forall (fun t => Task.ID t <> id) before
    /\ let done := Complete (time_Now e 0) task in
       let m' := {| tasks := (before ++ done :: after)%list; nextID := nextID m |} in
       CompleteTask e m id =
         (match SaveTasks e m' with Some err => inr err | None => inl done end, m')
       /\ GetTask m' id = inl done
       /\ Task.Completed done = true
       /\ Task.UpdatedAt done = time_Now e 0
       /\ (Task.ID done, Task.Title done, Task.DueDate done, Task.Priority done,
           Task.CreatedAt done)
          = (Task.ID task, Task.Title task, Task.DueDate task, Task.Priority task,
             Task.CreatedAt task).
Proof.
  intros Hget Hpending. apply GetTask_found in Hget as (Hpos & before & after & Hl & Hid & Hb).
  exists before, after. split; [exact Hl|]. split; [exact Hb|]. cbn zeta.
  split; [|split; [|split; [|split]]]; try reflexivity.
  - rewrite (CompleteTask_found e m id task before after Hpos Hl Hid Hb), Hpending.
    reflexivity.
  - apply GetTask_found. split; [exact Hpos|]. exists before, after.
    split; [reflexivity|]. split; [exact Hid|exact Hb].
Qed.

(** X9: once [CompleteTask] has been called on an id that resolves to a
    task, whether the task was pending or not and whether saving succeeded
    or not, every further [CompleteTask] on the id fails with the
    already-completed error and changes nothing. *)
Theorem CompleteTask_twice (e e' : Env) (m : Manager) (id : Z) (task : Task.t) :
  GetTask m id = inl task ->
  CompleteTask e' (snd (CompleteTask e m id)) id
  = (inr (ErrAlreadyCompleted id), snd (CompleteTask e m id)).
Proof.
  intros Hget. apply GetTask_found in Hget as (Hpos & before & after & Hl & Hid & Hb).
  rewrite (CompleteTask_found e m id task before after Hpos Hl Hid Hb).
  destruct (Task.Completed task) eqn:Hc.
  - cbn [snd]. rewrite (CompleteTask_found e' m id task before after Hpos Hl Hid Hb), Hc.
    reflexivity.
  - cbn zeta. cbn [snd].
    set (m' := {| tasks := (before ++ Complete (time_Now e 0) task :: after)%list;
                  nextID := nextID m |}).
    rewrite (CompleteTask_found e' m' id (Complete (time_Now e 0) task) before after Hpos
               eq_refl Hid Hb).
    reflexivity.
Qed.

(** X10: [DeleteTask] removes the first task with the id and nothing else;
    the tasks before and after it keep their order, and the next id is as
    before.  The call returns the removed task unless saving fails. *)
Theorem DeleteTask_removes (e : Env) (m : Manager) (id : Z) (task : Task.t) :
  GetTask m id = inl task ->
  exists before after : list Task.t,
    tasks m = (before ++ task :: after)%list
    /\ Forall (fun t => Task.ID t <> id) before
    /\ let m' := {| tasks := (before ++ after)%list; nextID := nextID m |} in
       DeleteTask e m id =
         (match SaveTasks e m' with Some err => inr err | None => inl task end, m').
Proof.
  intros Hget. apply GetTask_found in Hget as (Hpos & before & after & Hl & Hid & Hb).
  exists before, after. split; [exact Hl|]. split; [exact Hb|].
  apply (DeleteTask_found e m id task before after Hpos Hl Hid Hb).
Qed.

(** X11: after a successful [DeleteTask], every other id resolves as before,
    the collection is one task shorter and the next id is unchanged; when
    the ids of the collection are unique, the deleted id is no longer found
    and the ids stay unique. *)
Theorem DeleteTask_then_GetTask (e : Env) (m : Manager) (id : Z) (task : Task.t)
    (m' : Manager) :
  DeleteTask e m id = (inl task, m') ->
  (forall id', id' <> id -> GetTask m' id' = GetTask m id')
  /\ (NoDup (map Task.ID (tasks m)) ->
      GetTask m' id = inr ErrTaskNotFound /\ NoDup (map Task.ID (tasks m')))
  /\ (length (tasks m') + 1 = length (tasks m))%nat
  /\ nextID m' = nextID m.
Proof.
  intros Hdel. unfold DeleteTask in Hdel.
  destruct (Z.leb_spec id 0) as [|Hpos]; [discriminate|].
  destruct (find_ID id (tasks m)) as [[i t]|] eqn:Hfind; [|discriminate].
  apply find_ID_split in Hfind as (before & after & Hl & <- & Hid & Hb).
  rewrite Hl, delete_middle in Hdel.
  destruct (SaveTasks e _); [discriminate|]. injection Hdel as -> <-.
  cbn [tasks nextID]. split; [|split; [|split]].
  - intros id' Hne. unfold GetTask, GetTask_at. cbn [tasks]. rewrite Hl.
    destruct (id' <=? 0)%Z; [reflexivity|].
    pose proof (find_ID_remove id id' before after task ltac:(congruence)) as Heq.
    destruct (find_ID id' (before ++ after)%list) as [[j u]|],
             (find_ID id' (before ++ task :: after)%list) as [[j' u']|];
      cbn in Heq; congruence.
  - intros Hnodup. rewrite Hl, map_app, map_cons in Hnodup.
    apply NoDup_app in Hnodup as (Hnb & Hdisj & Hna).
    apply NoDup_cons in Hna as [Hnotin Hna]. split.
    + unfold GetTask, GetTask_at. cbn [tasks].
      destruct (Z.leb_spec id 0) as [|_]; [lia|].
      assert (Hnone : find_ID id (before ++ after)%list = None).
      { apply find_ID_None, Forall_app. split; [exact Hb|].
        apply Forall_forall. intros u Hu Heq. apply Hnotin.
        rewrite Hid, <- Heq. apply list_elem_of_fmap_2. exact Hu. }
      rewrite Hnone. reflexivity.
    + rewrite map_app. apply NoDup_app. split; [exact Hnb|]. split; [|exact Hna].
      intros x Hx Hx'. apply (Hdisj x Hx). right. exact Hx'.
  - rewrite Hl, !length_app, length_cons. lia.
  - reflexivity.
Qed.

(** X12: when saving fails, [AddTask], [CompleteTask] and [DeleteTask]
    return the error of saving, but the change they made to the manager
    stays: the task has been added and the next id used, the task is
    completed, the task is gone. *)
Theorem save_failure_keeps_change (e : Env) (m : Manager) (cause : storage.error) :
  (forall tasks nextID, storage_SaveTasks e tasks nextID = Some cause) ->
  (forall title priority dueDate,
     GoStrings.TrimSpace title <> "" ->
     priority = "" \/ ValidatePriority priority = true ->
     exists task,
       AddTask e m title priority dueDate
       = (inr (ErrSave cause),
          {| tasks := (tasks m ++ [task])%list; nextID := GoInt.succ (nextID m) |})
       /\ Task.ID task = nextID m)
  /\ (forall id task,
        GetTask m id = inl task -> Task.Completed task = false ->
        exists m', CompleteTask e m id = (inr (ErrSave cause), m')
                   /\ GetTask m' id = inl (Complete (time_Now e 0) task))
  /\ (forall id task,
        GetTask m id = inl task ->
        exists m', DeleteTask e m id = (inr (ErrSave cause), m')
                   /\ (length (tasks m') + 1 = length (tasks m))%nat).
Proof.
  intros Hfail.
  assert (Hsave : forall m0, SaveTasks e m0 = Some (ErrSave cause)).
  { intros m0. unfold SaveTasks. rewrite Hfail. reflexivity. }
  split; [|split].
  - intros title priority dueDate Ht Hp. unfold AddTask.
    destruct (String.eqb_spec (GoStrings.TrimSpace title) "") as [|_]; [contradiction|].
    destruct (String.eqb_spec priority "") as [Hempty|Hne]; cbn [negb].
    + rewrite Hsave. eexists. split; [reflexivity|]. destruct dueDate; reflexivity.
    + destruct Hp as [->|Hv]; [contradiction|]. rewrite Hv. cbn [negb]. rewrite Hsave.
      eexists. split; [reflexivity|]. destruct dueDate; reflexivity.
  - intros id task Hget Hpending.
    apply GetTask_found in Hget as (Hpos & before & after & Hl & Hid & Hb).
    rewrite (CompleteTask_found e m id task before after Hpos Hl Hid Hb), Hpending.
    cbn zeta. rewrite Hsave. eexists. split; [reflexivity|].
    apply GetTask_found. split; [exact Hpos|]. exists before, after.
    split; [reflexivity|]. split; [exact Hid|exact Hb].
  - intros id task Hget.
    apply GetTask_found in Hget as (Hpos & before & after & Hl & Hid & Hb).
    rewrite (DeleteTask_found e m id task before after Hpos Hl Hid Hb).
    cbn zeta. rewrite Hsave. eexists. split; [reflexivity|].
    cbn [tasks]. rewrite Hl, !length_app, length_cons. lia.
Qed.

(** ** The ids of the collection *)

Lemma StronglySorted_delete {A : Type} (R : A -> A -> Prop) (l : list A) :
  StronglySorted R l -> forall i, StronglySorted R (delete i l).
Proof.
  induction 1 as [|x l Hl IH Hx]; intros i; [constructor|].
  destruct i as [|i]; [exact Hl|].
  change (delete (S i) (x :: l)) with (x :: delete i l).
  constructor; [apply IH|apply Forall_delete, Hx].
Qed.

Lemma StronglySorted_lt_NoDup (l : list Z) : StronglySorted Z.lt l -> NoDup l.
Proof.
  induction 1 as [|x l Hl IH Hx]; constructor; [|exact IH].
  intros Hin. rewrite Forall_forall in Hx. specialize (Hx x Hin). lia.
Qed.

Lemma well_formed_NewManager : well_formed NewManager.
Proof. repeat split; try constructor. Qed.

Lemma well_formed_exec (m : Manager) (c : call) :
  is_load c = false -> nextID m < GoInt.max_int ->
  well_formed m -> well_formed (exec m c).
Proof.
  intros Hc Hmax (Hw & Hinc & Hpos & Hnext). unfold well_formed, ids_increasing in *.
  destruct c as [d|e title priority dueDate|e id|e id]; cbn [is_load exec] in *;
    [discriminate| | |].
  - split; [apply watermark_AddTask; [exact Hw|unfold GoInt.min_int; lia]|].
    destruct (AddTask_state e m title priority dueDate) as [[-> _]|(task & Hid & -> & _)];
      [auto|].
    cbn [tasks nextID]. rewrite succ_no_overflow by (unfold GoInt.min_int; lia).
    split; [|split; [|lia]].
    + rewrite map_app. apply StronglySorted_app. split; [|split; [exact Hinc|repeat constructor]].
      intros x1 x2 Hx1 Hx2. apply list_elem_of_fmap in Hx1 as (t & -> & Ht).
      apply list_elem_of_singleton in Hx2 as ->.
      unfold watermark in Hw. rewrite Forall_forall in Hw. rewrite Hid. apply Hw, Ht.
    + apply Forall_app. split; [exact Hpos|]. constructor; [lia|constructor].
  - split; [apply watermark_CompleteTask, Hw|].
    destruct (CompleteTask_state e m id) as [->|(i & task & Hi & Hid & _ & ->)]; [auto|].
    cbn [tasks nextID]. split; [|split; [|exact Hnext]].
    + change (map Task.ID) with (fmap (M := list) Task.ID).
      rewrite list_fmap_insert. cbn [Complete Task.ID].
      rewrite list_insert_id; [exact Hinc|]. rewrite list_lookup_fmap, Hi. reflexivity.
    + apply Forall_insert; [exact Hpos|]. cbn. exact (Forall_lookup_1 _ _ _ _ Hpos Hi).
  - split; [apply watermark_DeleteTask, Hw|].
    destruct (DeleteTask_state e m id) as [->|(i & task & Hi & Hid & ->)]; [auto|].
    cbn [tasks nextID]. split; [|split; [|exact Hnext]].
    + change (map Task.ID) with (fmap (M := list) Task.ID).
      rewrite list_fmap_delete. apply StronglySorted_delete, Hinc.
    + apply Forall_delete, Hpos.
Qed.

Lemma well_formed_run (cs : list call) :
  forall m : Manager,
    Forall (fun c => is_load c = false) cs ->
    nextID m + Z.of_nat (length cs) <= GoInt.max_int ->
    well_formed m -> well_formed (run m cs).
Proof.
  induction cs as [|c cs IH]; intros m Hcs Hmax Hm; [exact Hm|].
  inversion Hcs as [|? ? Hc Hcs']; subst. rewrite length_cons in Hmax.
  cbn [run fold_left]. fold (run (exec m c) cs).
  assert (Hpos : 0 < nextID m) by apply Hm.
  apply IH; [exact Hcs'| |apply well_formed_exec; [exact Hc|lia|exact Hm]].
  destruct (exec_nextID m c Hc) as [[_ ?]|[_ ?]]; [unfold GoInt.min_int; lia|lia|lia].
Qed.

Lemma well_formed_GetTask (m : Manager) (task : Task.t) :
  well_formed m -> In task (tasks m) -> GetTask m (Task.ID task) = inl task.
Proof.
  intros (_ & Hinc & Hpos & _) Hin. apply GetTask_member; [| |exact Hin|reflexivity].
  - rewrite Forall_forall in Hpos. apply Hpos, list_elem_of_In, Hin.
  - apply StronglySorted_lt_NoDup, Hinc.
Qed.

(** X13: along [AddTask], [CompleteTask] and [DeleteTask] calls that keep
    the next id within the [int] range, a well formed manager stays well
    formed: the ids are positive, below the next id, and increase along the
    collection.  So no two tasks share an id, and [GetTask] finds every task
    of the collection under its id. *)
Theorem ids_stay_increasing (m : Manager) (cs : list call) :
  Forall (fun c => is_load c = false) cs ->
  nextID m + Z.of_nat (length cs) <= GoInt.max_int ->
  well_formed m ->
  well_formed (run m cs)
  /\ NoDup (map Task.ID (tasks (run m cs)))
  /\ forall task, In task (tasks (run m cs)) ->
       GetTask (run m cs) (Task.ID task) = inl task.
Proof.
  intros Hcs Hmax Hm. pose proof (well_formed_run cs m Hcs Hmax Hm) as Hrun.
  split; [exact Hrun|]. split.
  - apply StronglySorted_lt_NoDup, Hrun.
  - intros task. apply well_formed_GetTask, Hrun.
Qed.

(** ** More on [ListTasks] *)

Lemma sort_less_default (sortBy : string) : sorts_by_id sortBy -> sort_less sortBy = less_id.
Proof.
  intros (Hp & Hd & Hc). unfold sort_less.
  destruct (String.eqb_spec sortBy "priority"); [contradiction|].
  destruct (String.eqb_spec sortBy "due"); [contradiction|].
  destruct (String.eqb_spec sortBy "created"); [contradiction|reflexivity].
Qed.

Lemma StronglySorted_filter {A : Type} (R : A -> A -> Prop) (f : A -> bool) (l : list A) :
  StronglySorted R l -> StronglySorted R (List.filter f l).
Proof.
  induction 1 as [|x l Hl IH Hx]; cbn [List.filter]; [constructor|].
  destruct (f x); [|exact IH]. constructor; [exact IH|].
  rewrite Forall_forall in Hx |- *. intros y Hy.
  apply list_elem_of_In, filter_In in Hy as [Hy _]. apply Hx, list_elem_of_In, Hy.
Qed.

Lemma StronglySorted_map_inv {A B : Type} (R : B -> B -> Prop) (f : A -> B) (l : list A) :
  StronglySorted R (map f l) -> StronglySorted (fun x y => R (f x) (f y)) l.
Proof.
  induction l as [|x l IH]; cbn [map]; intros Hs; [constructor|].
  apply StronglySorted_cons in Hs as [Hx Hl]. constructor; [apply IH, Hl|].
  rewrite Forall_forall in Hx. apply Forall_forall. intros y Hy. apply Hx.
  apply list_elem_of_In, in_map, list_elem_of_In, Hy.
Qed.

(** X14: whatever the sort key, [ListTasks] returns the tasks that pass the
    completion, priority and search tests, each as often as the collection
    has it, and no other: with a priority filter every task listed has that
    priority, and with a search string the lower-cased title of every task
    listed contains the lower-cased string. *)
Theorem ListTasks_members (strings_ToLower : string -> string) (m : Manager)
    (filter : FilterOptions.t) :
  ListTasks strings_ToLower m filter
    ≡ₚ List.filter (passes strings_ToLower filter) (tasks m)
  /\ (forall task : Task.t,
        In task (ListTasks strings_ToLower m filter) <->
        In task (tasks m) /\ passes strings_ToLower filter task = true)
  /\ (length (ListTasks strings_ToLower m filter) <= length (tasks m))%nat
  /\ (FilterOptions.Priority filter <> "" ->
      Forall (fun task => Task.Priority task = FilterOptions.Priority filter)
        (ListTasks strings_ToLower m filter))
  /\ (FilterOptions.Search filter <> "" ->
      Forall (fun task =>
                GoStrings.Contains (strings_ToLower (Task.Title task))
                  (strings_ToLower (FilterOptions.Search filter)) = true)
        (ListTasks strings_ToLower m filter)).
Proof.
  assert (Hperm : ListTasks strings_ToLower m filter
                    ≡ₚ List.filter (passes strings_ToLower filter) (tasks m)).
  { unfold ListTasks. rewrite (proj1 (sortTasks_spec _ _)). reflexivity. }
  assert (Hin : forall task : Task.t,
            In task (ListTasks strings_ToLower m filter) <->
            In task (tasks m) /\ passes strings_ToLower filter task = true).
  { intros task. rewrite <- filter_In, <- !list_elem_of_In. rewrite Hperm. reflexivity. }
  split; [exact Hperm|]. split; [exact Hin|]. split; [|split].
  - rewrite Hperm. apply filter_length_le.
  - intros Hne. apply Forall_forall. intros task Htask%list_elem_of_In%Hin.
    destruct Htask as [_ Hpass]. unfold passes, priority_ok in Hpass.
    destruct (String.eqb_spec (FilterOptions.Priority filter) "") as [|_]; [contradiction|].
    cbn [negb] in Hpass. apply andb_true_iff in Hpass as [Hpass _].
    apply andb_true_iff in Hpass as [_ Hp]. apply String.eqb_eq, Hp.
  - intros Hne. apply Forall_forall. intros task Htask%list_elem_of_In%Hin.
    destruct Htask as [_ Hpass]. unfold passes, search_ok in Hpass.
    destruct (String.eqb_spec (FilterOptions.Search filter) "") as [|_]; [contradiction|].
    cbn [negb] in Hpass. apply andb_true_iff in Hpass as [_ Hs]. exact Hs.
Qed.

(** X15: with the sort key ["id"], and with any key that is none of
    ["priority"], ["due"] and ["created"] (the export passes the empty key),
    [ListTasks] returns the tasks in ascending order of id. *)
Theorem ListTasks_id_order (strings_ToLower : string -> string) (m : Manager)
    (filter : FilterOptions.t) :
  sorts_by_id (FilterOptions.SortBy filter) ->
  StronglySorted by_id (ListTasks strings_ToLower m filter).
Proof.
  intros Hsort. unfold ListTasks.
  destruct (sortTasks_spec (filteredTasks strings_ToLower m filter)
              (FilterOptions.SortBy filter)) as [_ Hsorted].
  eapply StronglySorted_weaken; [|exact Hsorted].
  intros ti tj. rewrite (sort_less_default _ Hsort). unfold SortSpec.leq, less_id, by_id.
  rewrite Z.ltb_ge. auto.
Qed.

(** X16: with the sort key ["created"], [ListTasks] returns the tasks in
    ascending order of creation time. *)
Theorem ListTasks_created_order (strings_ToLower : string -> string) (m : Manager)
    (showCompleted showPending : bool) (priority search : string) :
  StronglySorted by_created
    (ListTasks strings_ToLower m
       (FilterOptions.mk showCompleted showPending priority search "created")).
Proof.
  unfold ListTasks. cbn [FilterOptions.SortBy].
  destruct (sortTasks_spec
              (filteredTasks strings_ToLower m
                 (FilterOptions.mk showCompleted showPending priority search "created"))
              "created") as [_ Hsorted].
  eapply StronglySorted_weaken; [|exact Hsorted].
  intros ti tj. unfold SortSpec.leq, by_created.
  change (sort_less "created") with less_created. unfold less_created, Time_Before.
  rewrite Z.ltb_ge. auto.
Qed.

(** X17: when the ids increase along the collection, as they do in a well
    formed manager, the id sort changes nothing: [ListTasks] returns the
    tasks that pass the filter in the order of the collection. *)
Theorem ListTasks_storage_order (strings_ToLower : string -> string) (m : Manager)
    (filter : FilterOptions.t) :
  ids_increasing m ->
  sorts_by_id (FilterOptions.SortBy filter) ->
  ListTasks strings_ToLower m filter = filteredTasks strings_ToLower m filter.
Proof.
  intros Hinc Hsort.
  assert (Hstrict : StronglySorted (fun ti tj => Task.ID ti < Task.ID tj)
                      (filteredTasks strings_ToLower m filter)).
  { unfold filteredTasks. apply StronglySorted_filter, StronglySorted_map_inv, Hinc. }
  unfold ListTasks in *.
  destruct (sortTasks_spec (filteredTasks strings_ToLower m filter)
              (FilterOptions.SortBy filter)) as [Hperm Hsorted].
  rewrite (sort_less_default _ Hsort) in Hsorted.
  apply (StronglySorted_unique_strong (SortSpec.leq less_id)); [|exact Hsorted| |exact Hperm].
  - intros x1 x2 Hx1' Hx2. unfold SortSpec.leq, less_id. rewrite !Z.ltb_ge. intros H1 H2.
    assert (Heq : Task.ID x1 = Task.ID x2) by lia.
    assert (Hx1 : x1 ∈ filteredTasks strings_ToLower m filter) by (rewrite <- Hperm; exact Hx1').
    clear - Hstrict Hx1 Hx2 Heq.
    induction Hstrict as [|y l Hl IH Hy]; [inversion Hx1|].
    rewrite Forall_forall in Hy.
    apply elem_of_cons in Hx1 as [->|Hx1], Hx2 as [->|Hx2].
    + reflexivity.
    + specialize (Hy _ Hx2). lia.
    + specialize (Hy _ Hx1). lia.
    + apply IH; assumption.
  - eapply StronglySorted_weaken; [|exact Hstrict].
    intros ti tj. unfold SortSpec.leq, less_id. rewrite Z.ltb_ge. lia.
Qed.

(** X18: when at most twelve tasks pass the filter, [ListTasks] keeps the
    order of the collection among tasks that the sort key does not tell
    apart, whatever the key: tasks of one priority, tasks with the same due
    date, tasks created at the same time. *)
Theorem ListTasks_small_stable (strings_ToLower : string -> string) (m : Manager)
    (filter : FilterOptions.t) (P : Task.t -> bool) :
  (forall x y, P x = true -> P y = true ->
     sort_less (FilterOptions.SortBy filter) x y = false) ->
  (length (filteredTasks strings_ToLower m filter) <= 12)%nat ->
  List.filter P (ListTasks strings_ToLower m filter)
  = List.filter P (filteredTasks strings_ToLower m filter).
Proof.
  intros Hclass Hlen. unfold ListTasks, sortTasks. rewrite Slice_small by exact Hlen.
  apply (insertionSort_stable (sort_less (FilterOptions.SortBy filter)) P Hclass). lia.
Qed.

(** ** More on [GetStats] *)

Lemma count_cons (f : Task.t -> bool) (task : Task.t) (l : list Task.t) :
  count f (task :: l) = (if f task then 1 else 0) + count f l.
Proof.
  unfold count. cbn [List.filter]. destruct (f task); [rewrite length_cons|]; lia.
Qed.

Lemma IsOverdue_later (now now' : Time) (task : Task.t) :
  now <= now' -> IsOverdue now task = true -> IsOverdue now' task = true.
Proof.
  unfold IsOverdue, Time_After. intros Hle.
  destruct (Task.DueDate task) as [d|]; [|discriminate].
  destruct (Task.Completed task); [discriminate|]. rewrite !Z.ltb_lt. lia.
Qed.

Lemma status_delta_completed (now : Time) (task : Task.t) :
  status_delta now task "completed" = if Task.Completed task then 1 else 0.
Proof. unfold status_delta. destruct (Task.Completed task), (IsOverdue now task); reflexivity. Qed.

Lemma status_delta_pending (now : Time) (task : Task.t) :
  status_delta now task "pending" = if pending task then 1 else 0.
Proof.
  unfold status_delta, pending.
  destruct (Task.Completed task), (IsOverdue now task); reflexivity.
Qed.

Lemma status_delta_overdue (now : Time) (task : Task.t) :
  status_delta now task "overdue" = if IsOverdue now task then 1 else 0.
Proof.
  unfold status_delta. destruct (Task.Completed task) eqn:Hc.
  - assert (IsOverdue now task = false) as ->; [|reflexivity].
    unfold IsOverdue. rewrite Hc. destruct (Task.DueDate task); reflexivity.
  - destruct (IsOverdue now task); reflexivity.
Qed.

Lemma priority_delta_has (task : Task.t) (p : Priority) :
  ValidatePriority p = true ->
  priority_delta task p = if has_priority p task then 1 else 0.
Proof.
  unfold ValidatePriority, has_priority, priority_delta. intros Hp.
  assert (Hcases : p = PriorityHigh \/ p = PriorityMedium \/ p = PriorityLow).
  { destruct (String.eqb_spec p PriorityLow); [auto|].
    destruct (String.eqb_spec p PriorityMedium); [auto|].
    destruct (String.eqb_spec p PriorityHigh); [auto|discriminate]. }
  clear Hp. destruct Hcases as [Heq|[Heq|Heq]]; subst p.
  all: destruct (String.eqb_spec (Task.Priority task) PriorityHigh) as [Hh|Hh];
    [rewrite ?Hh; reflexivity|].
  all: destruct (String.eqb_spec (Task.Priority task) PriorityMedium) as [Hm|Hm];
    [rewrite ?Hm; reflexivity|].
  all: destruct (String.eqb_spec (Task.Priority task) PriorityLow) as [Hl|Hl];
    [rewrite ?Hl; reflexivity|reflexivity].
Qed.

Lemma GetStats_loop_exact (now : nat -> Time) (t0 t1 : Time) (l : list Task.t) :
  (forall k, t0 <= now k <= t1) ->
  forall (clock : nat) (stats : gmap string Z) (bound : Z),
    bound + Z.of_nat (length l) <= GoInt.max_int ->
    counters_below stats bound ->
    exists D : string -> Z,
      (forall key, stat (GetStats_loop now clock l stats) key = stat stats key + D key)
      /\ D "total" = 0
      /\ D "completed" = count Task.Completed l
      /\ D "pending" = count pending l
      /\ count (IsOverdue t0) l <= D "overdue" <= count (IsOverdue t1) l
      /\ forall p, ValidatePriority p = true -> D p = count (has_priority p) l.
Proof.
  intros Hnow. induction l as [|task rest IH]; intros clock stats bound Hbound Hb.
  - exists (fun _ => 0). cbn. split_and!; intros; unfold count; cbn; lia.
  - cbn [GetStats_loop]. rewrite length_cons in Hbound.
    destruct (count_status now clock task stats) as [st1 clock1] eqn:Hst1.
    assert (Hinc : forall key, key <> "total" -> incrementable stats key).
    { intros key Hk. specialize (Hb key Hk). unfold incrementable. lia. }
    assert (H1 : forall key, stat st1 key = stat stats key + status_delta (now clock) task key).
    { intros key. rewrite <- (count_status_stat now clock task stats) by (apply Hinc; done).
      rewrite Hst1. reflexivity. }
    assert (H2 : forall key, stat (count_priority task st1) key =
                             stat st1 key + priority_delta task key).
    { apply count_priority_stat; unfold incrementable; rewrite H1;
        rewrite status_delta_other by done; rewrite Z.add_0_r; apply Hinc; done. }
    destruct (IH clock1 (count_priority task st1) (bound + 1))
      as (D & HD & Ht & Hc & Hp & Ho & Hpr).
    { lia. }
    { intros key Hk. rewrite H2, H1. specialize (Hb key Hk).
      pose proof (status_delta_range (now clock) task key).
      pose proof (priority_delta_range task key).
      pose proof (delta_disjoint (now clock) task key). lia. }
    exists (fun key => status_delta (now clock) task key + priority_delta task key + D key).
    split; [intros key; rewrite HD, H2, H1; lia|].
    rewrite !count_cons.
    rewrite status_delta_completed, status_delta_pending, status_delta_overdue.
    rewrite (status_delta_other _ _ "total"), !(priority_delta_other _ "total") by done.
    rewrite (priority_delta_other _ "completed"), (priority_delta_other _ "pending"),
      (priority_delta_other _ "overdue") by done.
    split; [lia|]. split; [lia|]. split; [lia|]. split.
    + pose proof (IsOverdue_later t0 (now clock) task (proj1 (Hnow clock))) as Hlo.
      pose proof (IsOverdue_later (now clock) t1 task (proj2 (Hnow clock))) as Hhi.
      destruct (IsOverdue t0 task), (IsOverdue (now clock) task), (IsOverdue t1 task);
        try (specialize (Hlo eq_refl)); try (specialize (Hhi eq_refl));
        try discriminate; lia.
    + intros p Hv. rewrite count_cons, (Hpr p Hv), (priority_delta_has task p Hv).
      rewrite status_delta_other; [lia| | |]; intros ->; discriminate Hv.
Qed.

Lemma stats_incr_keys (key : string) (stats : gmap string Z) :
  is_Some (stats !! key) -> same_keys stats (stats_incr key stats).
Proof.
  intros Hkey k. unfold stats_incr. rewrite lookup_insert_is_Some'.
  split; [|auto]. intros [<-|Hk]; assumption.
Qed.

Lemma same_keys_trans (s1 s2 s3 : gmap string Z) :
  same_keys s1 s2 -> same_keys s2 s3 -> same_keys s1 s3.
Proof. intros H12 H23 k. rewrite (H23 k). apply H12. Qed.

Lemma count_status_keys (now : nat -> Time) (clock : nat) (task : Task.t)
    (stats : gmap string Z) :
  counters_present stats -> same_keys stats (fst (count_status now clock task stats)).
Proof.
  intros Hp. unfold count_status.
  destruct (Task.Completed task); cbn [fst].
  - apply stats_incr_keys, Hp. cbn. tauto.
  - assert (H1 : same_keys stats (stats_incr "pending" stats))
      by (apply stats_incr_keys, Hp; cbn; tauto).
    destruct (IsOverdue (now clock) task); [|exact H1].
    eapply same_keys_trans; [exact H1|]. apply stats_incr_keys, H1, Hp. cbn. tauto.
Qed.

Lemma count_priority_keys (task : Task.t) (stats : gmap string Z) :
  counters_present stats -> same_keys stats (count_priority task stats).
Proof.
  intros Hp. unfold count_priority.
  destruct (String.eqb (Task.Priority task) PriorityHigh);
    [apply stats_incr_keys, Hp; cbn; tauto|].
  destruct (String.eqb (Task.Priority task) PriorityMedium);
    [apply stats_incr_keys, Hp; cbn; tauto|].
  destruct (String.eqb (Task.Priority task) PriorityLow);
    [apply stats_incr_keys, Hp; cbn; tauto|].
  intros k. reflexivity.
Qed.

Lemma GetStats_loop_keys (now : nat -> Time) (l : list Task.t) :
  forall (clock : nat) (stats : gmap string Z),
    counters_present stats -> same_keys stats (GetStats_loop now clock l stats).
Proof.
  induction l as [|task rest IH]; intros clock stats Hp; [intros k; reflexivity|].
  cbn [GetStats_loop].
  pose proof (count_status_keys now clock task stats Hp) as H1.
  destruct (count_status now clock task stats) as [st1 clock1]. cbn [fst] in H1.
  assert (Hp1 : counters_present st1) by (intros key Hkey; apply H1, Hp, Hkey).
  pose proof (count_priority_keys task st1 Hp1) as H2.
  eapply same_keys_trans; [exact H1|]. eapply same_keys_trans; [exact H2|].
  apply IH. intros key Hkey. apply H2, Hp1, Hkey.
Qed.

(** X19: for a collection of at most the largest [int] tasks, the counters
    of [GetStats] are the numbers of completed tasks, of pending tasks and of
    tasks of each of the three priorities; the overdue counter lies between
    the numbers of tasks overdue at the earliest and at the latest reading
    of the clock during the call.  The map has the seven keys and no
    other. *)
Theorem GetStats_counts (now : nat -> Time) (t0 t1 : Time) (m : Manager) :
  Z.of_nat (length (tasks m)) <= GoInt.max_int ->
  (forall k, t0 <= now k <= t1) ->
  let stats := GetStats now m in
  stat stats "completed" = count Task.Completed (tasks m)
  /\ stat stats "pending" = count pending (tasks m)
  /\ count (IsOverdue t0) (tasks m) <= stat stats "overdue" <= count (IsOverdue t1) (tasks m)
  /\ stat stats "high" = count (has_priority PriorityHigh) (tasks m)
  /\ stat stats "medium" = count (has_priority PriorityMedium) (tasks m)
  /\ stat stats "low" = count (has_priority PriorityLow) (tasks m)
  /\ forall key, is_Some (stats !! key) <->
       In key ["total"; "completed"; "pending"; "overdue"; "high"; "medium"; "low"].
Proof.
  intros Hlen Hnow. cbn zeta. unfold GetStats.
  set (init := ({[ "total" := Z.of_nat (length (tasks m)); "completed" := 0%Z;
                 "pending" := 0%Z; "overdue" := 0%Z; "high" := 0%Z; "medium" := 0%Z;
                 "low" := 0%Z ]} : gmap string Z)).
  destruct (GetStats_loop_exact now t0 t1 (tasks m) Hnow 0 init 0)
    as (D & HD & Ht & Hc & Hp & Ho & Hpr).
  { lia. }
  { intros key Hk. unfold init. rewrite initial_stats, decide_False by done. lia. }
  rewrite !HD. unfold init at 1 2 3 4 5 6 7 8. rewrite !initial_stats.
  rewrite !decide_False by done.
  pose proof (Hpr "high" eq_refl) as Hhigh. pose proof (Hpr "medium" eq_refl) as Hmedium.
  pose proof (Hpr "low" eq_refl) as Hlow. unfold PriorityHigh, PriorityMedium, PriorityLow.
  split_and!; try lia.
  assert (Hinit : forall key, is_Some (init !! key) <->
            In key ["total"; "completed"; "pending"; "overdue"; "high"; "medium"; "low"]).
  { intros key. unfold init. rewrite !lookup_insert_is_Some', lookup_singleton_is_Some.
    cbn [In]. tauto. }
  intros key. rewrite <- Hinit. apply GetStats_loop_keys.
  intros k Hk. apply Hinit. cbn [In] in Hk |- *. tauto.
Qed.

(** ** Loading, saving and the backup *)

Lemma task_of_to_storage (t : Task.t) : task_of_storage (task_to_storage t) = t.
Proof. destruct t. reflexivity. Qed.

Lemma tasks_of_to_storage (l : list Task.t) :
  map task_of_storage (map task_to_storage l) = l.
Proof.
  induction l as [|t l IH]; [reflexivity|]. cbn [map]. rewrite task_of_to_storage, IH.
  reflexivity.
Qed.

Lemma highest_next_max (l : list storage.Task.t) :
  forall n : Z,
    GoInt.min_int <= n ->
    Forall (fun st => storage.Task.ID st < GoInt.max_int) l ->
    storage.highest_next l n
    = foldr (fun st acc => Z.max (storage.Task.ID st + 1) acc) n l.
Proof.
  induction l as [|st rest IH]; intros n Hn Hall; [reflexivity|].
  inversion Hall as [|? ? Hst Hrest]; subst. cbn [storage.highest_next foldr].
  assert (Hstep : (if (storage.Task.ID st >=? n)%Z then GoInt.succ (storage.Task.ID st) else n)
                  = Z.max n (storage.Task.ID st + 1)).
  { destruct (Z.geb_spec (storage.Task.ID st) n).
    - rewrite succ_no_overflow by lia. lia.
    - lia. }
  rewrite Hstep, IH by (lia || exact Hrest).
  clear. induction rest as [|st' rest IH]; cbn [foldr]; lia.
Qed.

Lemma largest_id_spec (l : list storage.Task.t) :
  0 <= largest_id l
  /\ Forall (fun st => storage.Task.ID st <= largest_id l) l
  /\ (largest_id l = 0 \/ exists st, In st l /\ storage.Task.ID st = largest_id l).
Proof.
  induction l as [|st rest (Hnn & Hall & Hmax)]; cbn [largest_id foldr].
  - split; [lia|]. split; [constructor|]. left. reflexivity.
  - fold (largest_id rest). split; [lia|]. split.
    + constructor; [lia|]. eapply Forall_impl; [exact Hall|]. cbn. intros. lia.
    + destruct (Z.max_spec (storage.Task.ID st) (largest_id rest)) as [[_ ->]|[_ ->]].
      * destruct Hmax as [H0|(st' & Hin & Hid)]; [left; exact H0|].
        right. exists st'. split; [right; exact Hin|exact Hid].
      * right. exists st. split; [left; reflexivity|reflexivity].
Qed.

Lemma SaveTasks_None (os : storage.OS) (d : storage.Disk) (now : nat -> Time) (m : Manager) :
  SaveTasks (env_on os d now) m = None ->
  json_faithful os (document_of os m) ->
  saved os d m = disk_with (document_of os m).
Proof.
  unfold SaveTasks, env_on, saved, json_faithful, storage.SaveTasks. cbn [storage_SaveTasks].
  fold (document_of os m). intros Hsave Hjson. rewrite Hjson in Hsave |- *.
  destruct (storage.ensureDir_ok d); cbn [negb fst snd] in *; [|discriminate].
  destruct (storage.WriteFile_fails os); cbn [fst snd] in *; [discriminate|reflexivity].
Qed.

Lemma LoadTasks_saved (os : storage.OS) (m m0 : Manager) :
  LoadTasks (disk_with (document_of os m)) m0
  = (None, {| tasks := tasks m;
              nextID := if (nextID m =? 0)%Z
                        then storage.highest_next (map task_to_storage (tasks m)) 1
                        else nextID m |}).
Proof.
  unfold LoadTasks, storage.LoadTasks, disk_with, document_of.
  cbn [storage.ensureDir_ok storage.file storage.Tasks storage.NextID negb].
  rewrite tasks_of_to_storage. reflexivity.
Qed.

(** X20: when [LoadTasks] fails, the manager keeps its tasks and its next
    id, and the error is one of creating the directory, reading the file and
    parsing it.  When it succeeds, what the manager held before is replaced:
    a missing or empty file gives the state of a new manager, and a document
    with a non-zero next id gives its tasks and that next id. *)
Theorem LoadTasks_outcomes (d : storage.Disk) (m : Manager) :
  (forall err, fst (LoadTasks d m) = Some err ->
     snd (LoadTasks d m) = m
     /\ (err = ErrLoad storage.ErrCreateDirectory \/ err = ErrLoad storage.ErrReadFile
         \/ err = ErrLoad storage.ErrParseJSON))
  /\ (fst (LoadTasks d m) = None -> forall m0, LoadTasks d m0 = LoadTasks d m)
  /\ (storage.ensureDir_ok d = true ->
      storage.file d = None \/ storage.file d = Some storage.EmptyFile ->
      LoadTasks d m = (None, NewManager))
  /\ (forall taskList,
        storage.ensureDir_ok d = true ->
        storage.file d = Some (storage.Document taskList) ->
        storage.NextID taskList <> 0 ->
        LoadTasks d m = (None, {| tasks := map task_of_storage (storage.Tasks taskList);
                                  nextID := storage.NextID taskList |})).
Proof.
  unfold LoadTasks, storage.LoadTasks.
  destruct (storage.ensureDir_ok d); cbn [negb].
  2: { split_and!; try discriminate. intros err [= <-]. auto. }
  destruct (storage.file d) as [[| | |taskList]|]; cbn [fst snd].
  all: split_and!; try discriminate; try reflexivity.
  all: try (intros err [= <-]; auto).
  all: try (intros _ [|]; discriminate).
  intros taskList' _ [= <-] Hne.
  destruct (Z.eqb_spec (storage.NextID taskList) 0); [contradiction|reflexivity].
Qed.

(** X21: a document without a next id (or with next id 0) whose ids are
    below the largest [int] is loaded with the next id one above the largest
    id of the document, and with next id 1 when no id is positive. *)
Theorem LoadTasks_recomputes (d : storage.Disk) (m : Manager) (taskList : storage.TaskList) :
  storage.ensureDir_ok d = true ->
  storage.file d = Some (storage.Document taskList) ->
  storage.NextID taskList = 0 ->
  Forall (fun st => storage.Task.ID st < GoInt.max_int) (storage.Tasks taskList) ->
  LoadTasks d m
  = (None, {| tasks := map task_of_storage (storage.Tasks taskList);
              nextID := largest_id (storage.Tasks taskList) + 1 |})
  /\ 0 <= largest_id (storage.Tasks taskList)
  /\ Forall (fun st => storage.Task.ID st <= largest_id (storage.Tasks taskList))
       (storage.Tasks taskList)
  /\ (largest_id (storage.Tasks taskList) = 0
      \/ exists st, In st (storage.Tasks taskList)
                    /\ storage.Task.ID st = largest_id (storage.Tasks taskList)).
Proof.
  intros Hdir Hfile Hzero Hall. split; [|apply largest_id_spec].
  unfold LoadTasks, storage.LoadTasks. rewrite Hdir, Hfile, Hzero. cbn [negb Z.eqb].
  rewrite highest_next_max by (unfold GoInt.min_int; lia || exact Hall).
  do 3 f_equal. clear. unfold largest_id.
  induction (storage.Tasks taskList) as [|st rest IH]; cbn [foldr]; lia.
Qed.

(** X22: when saving succeeds and the JSON text reads back as the document,
    loading the file again gives the tasks of the manager, with every field,
    in the same order; it gives the same next id unless that is 0, in which
    case the next id is recomputed from the ids. *)
Theorem SaveTasks_then_LoadTasks (os : storage.OS) (d : storage.Disk) (now : nat -> Time)
    (m m0 : Manager) :
  json_faithful os (document_of os m) ->
  SaveTasks (env_on os d now) m = None ->
  fst (LoadTasks (saved os d m) m0) = None
  /\ tasks (snd (LoadTasks (saved os d m) m0)) = tasks m
  /\ (nextID m <> 0 -> LoadTasks (saved os d m) m0 = (None, m))
  /\ (nextID m = 0 ->
      nextID (snd (LoadTasks (saved os d m) m0))
      = storage.highest_next (map task_to_storage (tasks m)) 1).
Proof.
  intros Hjson Hsave. rewrite (SaveTasks_None os d now m Hsave Hjson), LoadTasks_saved.
  cbn [fst snd tasks nextID]. split_and!; try reflexivity.
  - intros Hne. destruct (Z.eqb_spec (nextID m) 0); [contradiction|]. destruct m; reflexivity.
  - intros ->. reflexivity.
Qed.

(** X23: after an [AddTask], a [CompleteTask] or a [DeleteTask] that
    returned no error, a new manager that loads the file (as every run of the
    command line does) is in the state the call left, provided the JSON text
    reads back as the document and the next id is not 0. *)
Theorem change_is_saved (os : storage.OS) (d : storage.Disk) (now : nat -> Time)
    (m m' : Manager) :
  json_faithful os (document_of os m') ->
  nextID m' <> 0 ->
  (exists title priority dueDate task,
     AddTask (env_on os d now) m title priority dueDate = (inl task, m'))
  \/ (exists id task, CompleteTask (env_on os d now) m id = (inl task, m'))
  \/ (exists id task, DeleteTask (env_on os d now) m id = (inl task, m')) ->
  LoadTasks (saved os d m') NewManager = (None, m').
Proof.
  intros Hjson Hne Hop.
  assert (Hsave : SaveTasks (env_on os d now) m' = None).
  { destruct Hop as [(title & priority & dueDate & task & Hadd)
                    |[(id & task & Hc)|(id & task & Hd)]].
    - apply AddTask_inl in Hadd. tauto.
    - unfold CompleteTask in Hc. destruct (GetTask_at m id) as [[i t]|]; [|discriminate].
      destruct (Task.Completed t); [discriminate|].
      match type of Hc with context [SaveTasks ?e ?m1] =>
        destruct (SaveTasks e m1) eqn:Hs; [discriminate|] end.
      injection Hc as _ <-. exact Hs.
    - unfold DeleteTask in Hd. destruct (id <=? 0)%Z; [discriminate|].
      destruct (find_ID id (tasks m)) as [[i t]|]; [|discriminate].
      match type of Hd with context [SaveTasks ?e ?m1] =>
        destruct (SaveTasks e m1) eqn:Hs; [discriminate|] end.
      injection Hd as _ <-. exact Hs. }
  rewrite (SaveTasks_None os d now m' Hsave Hjson), LoadTasks_saved.
  destruct (Z.eqb_spec (nextID m') 0); [contradiction|]. destruct m'; reflexivity.
Qed.

(** X24: [BackupTasks] fails with the no-file error exactly when there is no
    storage file, and an error before the write leaves both files as they
    were.  When it succeeds, the storage file is unchanged and the backup
    file holds what the storage file holds, whatever that is: loading from
    the backup gives what loading from the storage file gives. *)
Theorem BackupTasks_copy (os : storage.OS) (fs : storage.Files) :
  (fst (storage.BackupTasks os fs) = Some storage.ErrNoTasksFile
   <-> storage.file (storage.tasks_file fs) = None)
  /\ (forall err, fst (storage.BackupTasks os fs) = Some err ->
        err <> storage.ErrCreateBackup -> snd (storage.BackupTasks os fs) = fs)
  /\ (fst (storage.BackupTasks os fs) = None ->
      let fs' := snd (storage.BackupTasks os fs) in
      storage.tasks_file fs' = storage.tasks_file fs
      /\ storage.backup_file fs' = storage.file (storage.tasks_file fs)
      /\ forall m, LoadTasks (backup_disk fs') m = LoadTasks (storage.tasks_file fs) m).
Proof.
  unfold storage.BackupTasks, storage.FileExists, backup_disk.
  destruct fs as [[dir [content|]] backup]; cbn [storage.tasks_file storage.file negb].
  2: { cbn [fst snd]. split; [split; reflexivity|]. split; [reflexivity|discriminate]. }
  destruct content, (storage.WriteFile_fails os); cbn [fst snd].
  all: (split; [split; discriminate|]).
  all: (split; [try reflexivity; try discriminate; try (intros err [= <-] Hne; congruence)|]).
  all: try discriminate.
  all: intros _; cbn zeta; cbn [storage.tasks_file storage.backup_file storage.ensureDir_ok];
    split_and!; reflexivity.
Qed.

(** ** The commands *)







Lemma length_eqb_0 {A : Type} (l : list A) : (length l =? 0)%nat = true <-> l = [].
Proof. destruct l; cbn; split; congruence. Qed.


(** X26: without [--stats], the list command fails exactly on a priority
    flag that is not empty and not valid; otherwise it shows [ListTasks] of
    the flags as given (neither or both of [--completed] and [--pending]
    list both kinds of task), and reports that no task was found exactly
    when that list is empty. *)
Theorem listCmd_lists (strings_ToLower : string -> string) (now : nat -> Time) (m : Manager)
    (listCompleted listPending : bool) (listPriority listSearch listSort : string) :
  let run :=
    cmd.listCmd_RunE strings_ToLower now m listCompleted listPending listPriority
      listSearch listSort false in
  let listed :=
    ListTasks strings_ToLower m
      (FilterOptions.mk listCompleted listPending listPriority listSearch listSort) in
  (forall err, run = inr err <->
     err = cmd.ErrPriorityFlag listPriority /\ listPriority <> ""
     /\ ValidatePriority listPriority = false)
  /\ (forall shown, run = inl (cmd.ShownTasks shown) <->
        (listPriority = "" \/ ValidatePriority listPriority = true)
        /\ shown = listed /\ shown <> [])
  /\ (run = inl cmd.NoTasksFound <->
        (listPriority = "" \/ ValidatePriority listPriority = true) /\ listed = [])
  /\ (forall stats, run <> inl (cmd.ShownStats stats)).
Proof.
  cbn zeta. unfold cmd.listCmd_RunE.
  cbn [FilterOptions.ShowCompleted FilterOptions.ShowPending FilterOptions.Priority
       FilterOptions.Search FilterOptions.SortBy].
  assert (Hshow : forall priority,
    ListTasks strings_ToLower m
      (if negb listCompleted && negb listPending
       then FilterOptions.mk true true
              (FilterOptions.Priority
                 (FilterOptions.mk listCompleted listPending priority listSearch listSort))
              (FilterOptions.Search
                 (FilterOptions.mk listCompleted listPending priority listSearch listSort))
              (FilterOptions.SortBy
                 (FilterOptions.mk listCompleted listPending priority listSearch listSort))
       else FilterOptions.mk listCompleted listPending priority listSearch listSort)
    = ListTasks strings_ToLower m
        (FilterOptions.mk listCompleted listPending priority listSearch listSort)).
  { intros priority. destruct listCompleted, listPending; reflexivity. }
  destruct (String.eqb_spec listPriority "") as [Hp|Hp]; cbn [negb].
  2: destruct (ValidatePriority listPriority) eqn:Hv; cbn [negb].
  3: { split_and!.
       - intros err. split; [intros [= <-]; auto|]. intros (-> & _). reflexivity.
       - intros shown. split; [discriminate|]. intros ([|] & _); congruence.
       - split; [discriminate|]. intros ([|] & _); congruence.
       - discriminate. }
  all: rewrite Hshow; try rewrite Hp.
  all: match goal with |- context [ListTasks ?f ?m0 ?filter] =>
         set (listed := ListTasks f m0 filter) end.
  all: destruct (length listed =? 0)%nat eqn:Hlen;
    [apply length_eqb_0 in Hlen
    |assert (Hne : listed <> []) by (intros Hnil; apply length_eqb_0 in Hnil; congruence)].
  all: split_and!; try discriminate.
  all: try (intros err; split; [discriminate|intros (_ & ? & ?); congruence]).
  all: try (intros shown; split; [discriminate|intros (_ & -> & ?); congruence]).
  all: try (split; [intros _; auto|reflexivity]).
  all: try (intros shown; split; [intros [= <-]; auto|intros (_ & -> & _); reflexivity]).
  all: try (split; [discriminate|intros [_ ?]; congruence]).
Qed.

(** X27: with the default values of its flags, the list command shows every
    task of the collection, in ascending order of id. *)
Theorem listCmd_default (strings_ToLower : string -> string) (now : nat -> Time)
    (m : Manager) :
  exists shown : list Task.t,
    shown ≡ₚ tasks m
    /\ StronglySorted by_id shown
    /\ cmd.listCmd_RunE strings_ToLower now m false false "" "" "id" false
       = inl (match shown with [] => cmd.NoTasksFound | _ => cmd.ShownTasks shown end).
Proof.
  exists (ListTasks strings_ToLower m (FilterOptions.mk true true "" "" "id")).
  split; [|split].
  - unfold ListTasks, filteredTasks. rewrite (proj1 (sortTasks_spec _ _)).
    rewrite (filter_ext _ (fun _ => true)) by reflexivity.
    clear. induction (tasks m) as [|task rest IH]; [reflexivity|].
    cbn [List.filter]. rewrite IH at 1. reflexivity.
  - unfold ListTasks. cbn [FilterOptions.SortBy].
    destruct (sortTasks_spec
                (filteredTasks strings_ToLower m (FilterOptions.mk true true "" "" "id")) "id")
      as [_ Hsorted].
    eapply StronglySorted_weaken; [|exact Hsorted].
    intros ti tj. change (sort_less "id") with less_id. unfold SortSpec.leq, less_id, by_id.
    rewrite Z.ltb_ge. auto.
  - unfold cmd.listCmd_RunE. cbn [negb andb String.eqb FilterOptions.Priority
      FilterOptions.Search FilterOptions.SortBy].
    destruct (ListTasks strings_ToLower m (FilterOptions.mk true true "" "" "id"));
      reflexivity.
Qed.

(** X28: the delete command deletes only with [--force] or after one of the
    answers yes, y, YES and Y; the task it deletes is the one [GetTask]
    returned for the confirmation; [DeleteTask] then fails only if saving
    fails; and unless saving failed, the manager is as it was after an error
    or a cancelled deletion. *)
Theorem deleteCmd_deletes_shown (strconv_Atoi : string -> option Z) (e : Env) (m : Manager)
    (arg : string) (deleteForce : bool) (confirmation : string) :
  let run := cmd.deleteCmd_RunE strconv_Atoi e m arg deleteForce confirmation in
  (forall deleted, fst run = inl (cmd.TaskDeleted deleted) ->
     exists id, strconv_Atoi arg = Some id
                /\ GetTask m id = inl deleted
                /\ (deleteForce = true \/ In confirmation ["yes"; "y"; "YES"; "Y"])
                /\ (length (tasks (snd run)) + 1 = length (tasks m))%nat)
  /\ (fst run = inl cmd.DeletionCancelled ->
      deleteForce = false /\ ~ In confirmation ["yes"; "y"; "YES"; "Y"] /\ snd run = m)
  /\ (forall err, fst run = inr (cmd.ErrDeleteTask err) -> exists cause, err = ErrSave cause)
  /\ (forall err, fst run = inr err ->
        (forall cause, err <> cmd.ErrDeleteTask (ErrSave cause)) -> snd run = m).
Proof.
  cbn zeta. unfold cmd.deleteCmd_RunE.
  destruct (strconv_Atoi arg) as [id|]; cbn [fst snd].
  2: { split_and!; try discriminate; reflexivity. }
  destruct (GetTask m id) as [task|err0] eqn:Hget; cbn [fst snd].
  2: { split_and!; try discriminate; reflexivity. }
  assert (Hconfirm : (negb (confirmation =? "yes") && negb (confirmation =? "y")
                      && negb (confirmation =? "YES") && negb (confirmation =? "Y")) = true
                     <-> ~ In confirmation ["yes"; "y"; "YES"; "Y"]).
  { rewrite !andb_true_iff, !negb_true_iff, !String.eqb_neq. cbn [In].
    intuition congruence. }
  pose proof Hget as Hfound.
  apply GetTask_found in Hfound as (Hpos & before & after & Hl & Hid & Hb).
  pose proof (DeleteTask_found e m id task before after Hpos Hl Hid Hb) as Hdel.
  cbn zeta in Hdel.
  destruct (negb deleteForce && _) eqn:Hcancel; cbn [fst snd].
  - apply andb_true_iff in Hcancel as [Hforce Hc]. apply negb_true_iff in Hforce.
    apply Hconfirm in Hc. split_and!; try discriminate; auto.
  - assert (Hgo : deleteForce = true \/ In confirmation ["yes"; "y"; "YES"; "Y"]).
    { apply andb_false_iff in Hcancel as [Hforce|Hc].
      - left. apply negb_false_iff, Hforce.
      - right. destruct (decide (In confirmation ["yes"; "y"; "YES"; "Y"])) as [|Hnot];
          [assumption|]. apply Hconfirm in Hnot. congruence. }
    rewrite Hdel. destruct (SaveTasks e _) as [err|] eqn:Hsave; cbn [fst snd].
    + destruct (SaveTasks_error _ _ _ Hsave) as [cause ->].
      split_and!; try discriminate.
      * intros err' [= <-]. exists cause. reflexivity.
      * intros err' [= <-] Hnot. destruct (Hnot cause eq_refl).
    + split_and!; try discriminate.
      intros deleted [= <-]. exists id. split; [reflexivity|]. split; [exact Hget|].
      split; [exact Hgo|]. cbn [tasks]. rewrite Hl, !length_app, length_cons. lia.
Qed.


(** ** The properties at concrete inputs *)

Lemma GetStats_consistent_witness :
  let stats := GetStats (fun k => 1000 + Z.of_nat k) one_completed in
  stat stats "total" = 3
  /\ stat stats "completed" + stat stats "pending" = stat stats "total"
  /\ 0 <= stat stats "overdue" <= stat stats "pending"
  /\ stat stats "high" + stat stats "medium" + stat stats "low"
     = Z.of_nat (length (valid_priority_tasks one_completed))
  /\ (stat stats "high" + stat stats "medium" + stat stats "low" = stat stats "total"
      <-> Forall (fun task => ValidatePriority (Task.Priority task) = true)
            (tasks one_completed)).
Proof.
  apply (GetStats_consistent (fun k => 1000 + Z.of_nat k) one_completed).
  vm_compute. discriminate.
Defined.

Lemma watermark_reachable_witness :
  let cs := [CallLoadTasks (disk_with old_document);
             CallAddTask (env_at 100) "water plants" "" None;
             CallDeleteTask (env_at 200) 5;
             CallAddTask (env_at 300) "call home" "high" (Some 900)] in
  watermark (run NewManager cs) /\ nextID (run NewManager cs) = 8
  /\ map Task.ID (tasks (run NewManager cs)) = [1; 6; 7].
Proof.
  split; [|split; vm_compute; reflexivity].
  apply watermark_reachable. cbn [calls_ok call_ok].
  split; [unfold disk_ok, document_ok; cbn; repeat constructor|].
  split; [vm_compute; split; [discriminate|reflexivity]|].
  split; [exact I|].
  split; [vm_compute; split; [discriminate|reflexivity]|exact I].
Defined.

Lemma assigned_ids_increasing_witness :
  let cs := [CallDeleteTask (env_at 200) 2;
             CallAddTask (env_at 300) "water plants" "" None;
             CallAddTask (env_at 400) "call home" "high" None] in
  assigned_ids three_tasks cs = [4; 5]
  /\ StronglySorted Z.lt (assigned_ids three_tasks cs)
  /\ Forall (fun id => nextID three_tasks <= id < nextID (run three_tasks cs))
       (assigned_ids three_tasks cs).
Proof.
  split; [vm_compute; reflexivity|].
  destruct (assigned_ids_increasing three_tasks
              [CallDeleteTask (env_at 200) 2;
               CallAddTask (env_at 300) "water plants" "" None;
               CallAddTask (env_at 400) "call home" "high" None])
    as (Hsorted & Hrange & _).
  - repeat constructor.
  - vm_compute. discriminate.
  - vm_compute. discriminate.
  - split; assumption.
Defined.

Lemma AddTask_empty_title_witness :
  GoStrings.TrimSpace "   " = ""
  /\ AddTask (env_at 100) three_tasks "   " "high" None = (inr ErrEmptyTitle, three_tasks)
  /\ ValidationError ErrEmptyTitle = true.
Proof.
  split; [reflexivity|]. apply AddTask_empty_title. reflexivity.
Defined.

Lemma AddTask_no_priority_witness :
  exists task : Task.t,
    Task.Priority task = PriorityMedium
    /\ Task.ID task = 1
    /\ AddTask (env_at 100) NewManager "Buy milk" "" None
       = (inl task, {| tasks := [task]; nextID := 2 |}).
Proof.
  destruct (AddTask_no_priority (env_at 100) NewManager "Buy milk" None)
    as (task & Hpriority & Hid & Hadd & _).
  - vm_compute. discriminate.
  - exists task. split; [exact Hpriority|]. split; [exact Hid|]. exact Hadd.
Defined.

Lemma CompleteTask_already_completed_witness :
  exists task : Task.t,
    GetTask one_completed 1 = inl task
    /\ Task.Completed task = true
    /\ Task.UpdatedAt task = 500
    /\ CompleteTask (env_at 900) one_completed 1 = (inr (ErrAlreadyCompleted 1), one_completed)
    /\ GetTask (snd (CompleteTask (env_at 900) one_completed 1)) 1 = inl task.
Proof.
  eexists. split; [vm_compute; reflexivity|]. split; [reflexivity|].
  split; [reflexivity|].
  destruct (CompleteTask_already_completed (env_at 900) one_completed 1
              (Complete 500 (SetPriority 101 "low" (NewTask 100 1 "a"))))
    as (Hfail & _ & Hget).
  - vm_compute. reflexivity.
  - reflexivity.
  - split; [exact Hfail|exact Hget].
Defined.

(** ** The further properties at concrete inputs *)

Lemma lookup_errors_agree_witness :
  GetTask three_tasks 7 = inr ErrTaskNotFound
  /\ CompleteTask (env_at 900) three_tasks 7 = (inr ErrTaskNotFound, three_tasks)
  /\ DeleteTask (env_at 900) three_tasks 7 = (inr ErrTaskNotFound, three_tasks).
Proof.
  split; [vm_compute; reflexivity|]. apply lookup_errors_agree. vm_compute. reflexivity.
Defined.


Lemma AddTask_then_GetTask_witness :
  let task := NewTask 400 4 "d" in
  let m' := {| tasks := [task_a; task_b; task_c; task]; nextID := 5 |} in
  AddTask (env_at 400) three_tasks "d" "" None = (inl task, m')
  /\ GetTask m' 4 = inl task
  /\ GetTask m' 2 = GetTask three_tasks 2.
Proof.
  cbn zeta.
  assert (Hadd : AddTask (env_at 400) three_tasks "d" "" None
                 = (inl (NewTask 400 4 "d"),
                    {| tasks := [task_a; task_b; task_c; NewTask 400 4 "d"]; nextID := 5 |}))
    by (vm_compute; reflexivity).
  split; [exact Hadd|].
  assert (Hw : watermark three_tasks) by (unfold watermark; vm_compute; repeat constructor).
  assert (Hpos : 0 < nextID three_tasks) by (vm_compute; reflexivity).
  destruct (AddTask_then_GetTask _ _ _ _ _ _ _ Hw Hpos Hadd) as [Hget Hother].
  split; [exact Hget|]. apply Hother. discriminate.
Defined.

Lemma AddTask_nonpositive_id_witness :
  let m := snd (LoadTasks (disk_with negative_document) NewManager) in
  let task := NewTask 100 (-3) "call home" in
  let m' := {| tasks := [task]; nextID := -2 |} in
  AddTask (env_at 100) m "call home" "" None = (inl task, m')
  /\ GetTask m' (-3) = inr ErrInvalidID
  /\ DeleteTask (env_at 200) m' (-3) = (inr ErrInvalidID, m').
Proof.
  cbn zeta.
  assert (Hadd : AddTask (env_at 100) (snd (LoadTasks (disk_with negative_document) NewManager))
                   "call home" "" None
                 = (inl (NewTask 100 (-3) "call home"),
                    {| tasks := [NewTask 100 (-3) "call home"]; nextID := -2 |}))
    by (vm_compute; reflexivity).
  split; [exact Hadd|].
  assert (Hle : nextID (snd (LoadTasks (disk_with negative_document) NewManager)) <= 0)
    by (vm_compute; discriminate).
  destruct (AddTask_nonpositive_id (env_at 100) (env_at 200) _ _ _ _ _ _ Hle Hadd)
    as (_ & Hget & _ & Hdelete).
  split; [exact Hget|exact Hdelete].
Defined.

Lemma CompleteTask_completes_witness :
  CompleteTask (env_at 500) three_tasks 2
  = (inl (Complete 500 task_b),
     {| tasks := [task_a; Complete 500 task_b; task_c]; nextID := 4 |})
  /\ exists before after : list Task.t,
       tasks three_tasks = (before ++ task_b :: after)%list
       /\ GetTask {| tasks := (before ++ Complete 500 task_b :: after)%list; nextID := 4 |} 2
          = inl (Complete 500 task_b).
Proof.
  split; [vm_compute; reflexivity|].
  destruct (CompleteTask_completes (env_at 500) three_tasks 2 task_b)
    as (before & after & Hl & _ & _ & Hget & _).
  - vm_compute. reflexivity.
  - reflexivity.
  - exists before, after. split; [exact Hl|exact Hget].
Defined.

Lemma CompleteTask_twice_witness :
  CompleteTask (env_at 900) (snd (CompleteTask (env_at 500) three_tasks 2)) 2
  = (inr (ErrAlreadyCompleted 2), snd (CompleteTask (env_at 500) three_tasks 2)).
Proof.
  apply (CompleteTask_twice (env_at 500) (env_at 900) three_tasks 2 task_b).
  vm_compute. reflexivity.
Defined.

Lemma DeleteTask_removes_witness :
  exists before after : list Task.t,
    tasks three_tasks = (before ++ task_b :: after)%list
    /\ DeleteTask (env_at 500) three_tasks 2
       = (inl task_b, {| tasks := (before ++ after)%list; nextID := 4 |}).
Proof.
  destruct (DeleteTask_removes (env_at 500) three_tasks 2 task_b)
    as (before & after & Hl & _ & Hdelete).
  - vm_compute. reflexivity.
  - exists before, after. split; [exact Hl|exact Hdelete].
Defined.

Lemma DeleteTask_then_GetTask_witness :
  let m' := {| tasks := [task_a; task_c]; nextID := 4 |} in
  DeleteTask (env_at 500) three_tasks 2 = (inl task_b, m')
  /\ GetTask m' 2 = inr ErrTaskNotFound
  /\ GetTask m' 3 = GetTask three_tasks 3.
Proof.
  cbn zeta.
  assert (Hdelete : DeleteTask (env_at 500) three_tasks 2
                    = (inl task_b, {| tasks := [task_a; task_c]; nextID := 4 |}))
    by (vm_compute; reflexivity).
  split; [exact Hdelete|].
  destruct (DeleteTask_then_GetTask _ _ _ _ _ Hdelete) as (Hother & Hunique & _).
  split.
  - apply Hunique. apply (bool_decide_unpack _). vm_compute. exact I.
  - apply Hother. discriminate.
Defined.

Lemma save_failure_keeps_change_witness :
  (exists task,
     AddTask env_failing three_tasks "d" "" None
     = (inr (ErrSave storage.ErrWriteFile),
        {| tasks := (tasks three_tasks ++ [task])%list; nextID := 5 |})
     /\ Task.ID task = 4)
  /\ exists m', DeleteTask env_failing three_tasks 2 = (inr (ErrSave storage.ErrWriteFile), m')
                /\ (length (tasks m') + 1 = 3)%nat.
Proof.
  destruct (save_failure_keeps_change env_failing three_tasks storage.ErrWriteFile
              (fun _ _ => eq_refl)) as (Hadd & _ & Hdelete).
  split.
  - destruct (Hadd "d" "" None) as (task & Htask & Hid).
    + vm_compute. discriminate.
    + left. reflexivity.
    + exists task. split; [exact Htask|exact Hid].
  - destruct (Hdelete 2 task_b) as (m' & Hm' & Hlen).
    + vm_compute. reflexivity.
    + exists m'. split; [exact Hm'|exact Hlen].
Defined.

Lemma ids_stay_increasing_witness :
  let cs := [CallDeleteTask (env_at 200) 2;
             CallAddTask (env_at 300) "water plants" "" None;
             CallCompleteTask (env_at 400) 1] in
  map Task.ID (tasks (run three_tasks cs)) = [1; 3; 4]
  /\ well_formed (run three_tasks cs)
  /\ NoDup (map Task.ID (tasks (run three_tasks cs))).
Proof.
  cbn zeta. split; [vm_compute; reflexivity|].
  destruct (ids_stay_increasing three_tasks
              [CallDeleteTask (env_at 200) 2;
               CallAddTask (env_at 300) "water plants" "" None;
               CallCompleteTask (env_at 400) 1]) as (Hwf & Hunique & _).
  - repeat constructor.
  - vm_compute. discriminate.
  - unfold well_formed, watermark, ids_increasing. vm_compute. repeat constructor.
  - split; [exact Hwf|exact Hunique].
Defined.

Lemma ListTasks_id_order_witness :
  StronglySorted by_id
    (ListTasks (fun s => s) three_tasks (FilterOptions.mk true true "" "" "")).
Proof.
  apply ListTasks_id_order. cbn [FilterOptions.SortBy]. unfold sorts_by_id.
  repeat split; discriminate.
Defined.

Lemma ListTasks_storage_order_witness :
  ListTasks (fun s => s) three_tasks (FilterOptions.mk false true "" "" "id")
  = [task_a; task_b; task_c].
Proof.
  rewrite ListTasks_storage_order.
  - vm_compute. reflexivity.
  - unfold ids_increasing. vm_compute. repeat constructor.
  - cbn [FilterOptions.SortBy]. unfold sorts_by_id. repeat split; discriminate.
Defined.

Lemma ListTasks_small_stable_witness :
  let filter := FilterOptions.mk true true "" "" "created" in
  let at_100 task := (Task.CreatedAt task =? 100)%Z in
  map Task.ID (ListTasks (fun s => s) same_time_tasks filter) = [3; 1; 2]
  /\ List.filter at_100 (ListTasks (fun s => s) same_time_tasks filter)
     = List.filter at_100 (filteredTasks (fun s => s) same_time_tasks filter).
Proof.
  cbn zeta. split; [vm_compute; reflexivity|].
  apply ListTasks_small_stable.
  - intros x y Hx%Z.eqb_eq Hy%Z.eqb_eq. cbn [FilterOptions.SortBy].
    change (sort_less "created") with less_created. unfold less_created, Time_Before.
    rewrite Hx, Hy. reflexivity.
  - vm_compute. lia.
Defined.

Lemma GetStats_counts_witness :
  let stats := GetStats (fun k => 1000 + Z.of_nat (Nat.min k 5)) one_completed in
  stat stats "completed" = count Task.Completed (tasks one_completed)
  /\ stat stats "pending" = count pending (tasks one_completed)
  /\ count (IsOverdue 1000) (tasks one_completed) <= stat stats "overdue"
     <= count (IsOverdue 1005) (tasks one_completed)
  /\ stat stats "high" = count (has_priority PriorityHigh) (tasks one_completed)
  /\ stat stats "medium" = count (has_priority PriorityMedium) (tasks one_completed)
  /\ stat stats "low" = count (has_priority PriorityLow) (tasks one_completed)
  /\ forall key, is_Some (stats !! key) <->
       In key ["total"; "completed"; "pending"; "overdue"; "high"; "medium"; "low"].
Proof.
  apply (GetStats_counts (fun k => 1000 + Z.of_nat (Nat.min k 5)) 1000 1005 one_completed).
  - vm_compute. discriminate.
  - intros k. lia.
Defined.

Lemma LoadTasks_recomputes_witness :
  LoadTasks (disk_with old_document) NewManager
  = (None, {| tasks := map task_of_storage (storage.Tasks old_document); nextID := 6 |}).
Proof.
  destruct (LoadTasks_recomputes (disk_with old_document) NewManager old_document
              eq_refl eq_refl eq_refl) as [Hload _].
  - repeat constructor.
  - exact Hload.
Defined.

Lemma SaveTasks_then_LoadTasks_witness :
  LoadTasks (saved os_ok empty_disk three_tasks) NewManager = (None, three_tasks).
Proof.
  destruct (SaveTasks_then_LoadTasks os_ok empty_disk (fun _ => 0) three_tasks NewManager
              eq_refl eq_refl) as (_ & _ & Hsame & _).
  apply Hsame. vm_compute. discriminate.
Defined.

Lemma change_is_saved_witness :
  let e := env_on os_ok empty_disk (fun k => 100 + Z.of_nat k) in
  let task := NewTask 100 1 "Buy milk" in
  let m' := {| tasks := [task]; nextID := 2 |} in
  AddTask e NewManager "Buy milk" "" None = (inl task, m')
  /\ LoadTasks (saved os_ok empty_disk m') NewManager = (None, m').
Proof.
  cbn zeta.
  assert (Hadd : AddTask (env_on os_ok empty_disk (fun k => 100 + Z.of_nat k)) NewManager
                   "Buy milk" "" None
                 = (inl (NewTask 100 1 "Buy milk"),
                    {| tasks := [NewTask 100 1 "Buy milk"]; nextID := 2 |}))
    by (vm_compute; reflexivity).
  split; [exact Hadd|].
  apply (change_is_saved os_ok empty_disk (fun k => 100 + Z.of_nat k) NewManager).
  - reflexivity.
  - vm_compute. discriminate.
  - left. exists "Buy milk", "", None, (NewTask 100 1 "Buy milk"). exact Hadd.
Defined.
